(** * ClusterEnsembles: consensus clustering over base clusterings

    A shallow embedding of [ClusterEnsembles.py] and the properties of its
    hypergraph builder, connectivity matrix, graph-format adapter, the four
    solvers (CSPA, MCLA, HBGF, NMF) and the orchestrator.

    Conventions of the embedding.
    - A NumPy 2-D array is a list of rows.  The base-clustering matrix has
      one row per run; [ncols] reads [shape[1]] off the first row.
    - A label is a float that is either NaN (the missing sentinel) or a
      number; numbers are integers here.  [label_eqb] is the IEEE [==],
      under which NaN equals nothing.
    - Integer-valued arrays hold [Z]; the quotients of the connectivity
      matrix are exact rationals ([Qc]), with the IEEE result of a division
      by zero written out.
    - The floats of the MCLA weights are doubles: a finite double is the
      rational it denotes, and each operation rounds its exact result to
      the nearest double ([round64]).
    - The graph partitioner, the random source and the float arithmetic of
      the factorisation are collaborators: Section variables. *)

From Stdlib Require Import ZArith List Lia QArith Qcanon.
From stdpp Require Import base tactics option list gmap numbers strings sorting pretty.

Local Open Scope Z_scope.

(** ** Labels and small array helpers *)

Inductive label := NaN | Lab (v : Z).

Global Instance label_eq_dec : EqDecision label.
Proof. solve_decision. Defined.

(** [np.isnan] *)
Definition isnan (x : label) : bool :=
  match x with NaN => true | Lab _ => false end.

(** The float comparison [x == y]: false as soon as one side is NaN. *)
Definition label_eqb (x y : label) : bool :=
  match x, y with
  | Lab a, Lab b => bool_decide (a = b)
  | _, _ => false
  end.

(** [bc[~np.isnan(bc)]]: the non-missing values, in order. *)
Definition non_missing (bc : list label) : list Z :=
  omap (λ x, match x with NaN => None | Lab v => Some v end) bc.

(** [np.unique]: the distinct values in ascending order. *)
Definition np_unique (l : list Z) : list Z :=
  merge_sort Z.le (remove_dups l).

(** [dict(pairs)]: later pairs overwrite earlier ones. *)
Definition dict_from (m : gmap Z nat) (pairs : list (Z * nat)) : gmap Z nat :=
  foldl (λ m kv, <[kv.1 := kv.2]> m) m pairs.

Definition dict (pairs : list (Z * nat)) : gmap Z nat := dict_from ∅ pairs.

(** [enumerate] *)
Definition enumerate {A} (l : list A) : list (nat * A) :=
  zip (seq 0 (length l)) l.

(** [np.zeros((n, k), dtype=int)] *)
Definition zeros (n k : nat) : list (list Z) :=
  replicate n (replicate k 0).

(** [shape[1]] of a 2-D array given by its rows. *)
Definition ncols {A} (a : list (list A)) : nat :=
  match a with [] => 0%nat | row :: _ => length row end.

(** [h[i, c] = x]; the callers below only use indices that are in range. *)
Definition set_cell (h : list (list Z)) (i c : nat) (x : Z) : list (list Z) :=
  match h !! i with
  | Some row => <[i := <[c := x]> row]> h
  | None => h
  end.

(** An array of shape [(n, k)]. *)
Definition has_shape {A} (n k : nat) (a : list (list A)) : Prop :=
  length a = n ∧ Forall (λ row, length row = k) a.

(** [a[i, j]], when both indices are in range. *)
Definition at2 {A} (a : list (list A)) (i j : nat) : option A :=
  a !! i ≫= (.!! j).

(** [np.hstack([H, h])] for two arrays with the same number of rows. *)
Definition hstack {A} (H h : list (list A)) : list (list A) :=
  zip_with app H h.

(** [np.vstack([a, b])] *)
Definition vstack {A} (a b : list (list A)) : list (list A) := a ++ b.

(** ** Hypergraph builder *)

(** The column block of one run: the body of the loop of
    [create_hypergraph] up to the stacking. *)
Definition bc2id_of (unique_bc : list Z) : gmap Z nat :=
  dict (zip unique_bc (seq 0 (length unique_bc))).

Definition mark_row (bc2id : gmap Z nat) (h : list (list Z))
    (ie : nat * label) : list (list Z) :=
  match ie.2 with
  | NaN => h
  | Lab v =>
      match bc2id !! v with
      | Some c => set_cell h ie.1 c 1
      | None => h (* KeyError: unreachable, see [bc2id_lookup] *)
      end
  end.

(** What one pass of the marking loop does to a row. *)
Definition mark_one (bc2id : gmap Z nat) (x : label) (row : list Z) : list Z :=
  match x with
  | NaN => row
  | Lab v => match bc2id !! v with Some c => <[c := 1]> row | None => row end
  end.

Definition run_block (len_bcs : nat) (bc : list label) : list (list Z) :=
  let unique_bc := np_unique (non_missing bc) in
  let len_unique_bc := length unique_bc in
  let bc2id := bc2id_of unique_bc in
  let h := zeros len_bcs len_unique_bc in
  foldl (mark_row bc2id) h (enumerate bc).

(** [create_hypergraph]: [None] is Python's [None], the initial value of
    the accumulator [H], returned as such when there is no run. *)
Definition create_hypergraph (base_clusters : list (list label))
    : option (list (list Z)) :=
  let len_bcs := ncols base_clusters in
  foldl (λ H bc,
           let h := run_block len_bcs bc in
           match H with
           | None => Some h
           | Some H' => Some (hstack H' h)
           end)
        None base_clusters.

(** The description of the incidence matrix in the words of the
    specification, to compare [create_hypergraph] with. *)
Definition K_of (bc : list label) : nat :=
  length (np_unique (non_missing bc)).

Definition one_hot (k c : nat) : list Z := <[c := 1]> (replicate k 0).

Definition local_id (bc : list label) (v : Z) : option nat :=
  list_find (λ u, u = v) (np_unique (non_missing bc)) ≫= λ p, Some p.1.

Definition block_row_spec (bc : list label) (x : label) : list Z :=
  match x with
  | NaN => replicate (K_of bc) 0
  | Lab v =>
      match local_id bc v with
      | Some c => one_hot (K_of bc) c
      | None => replicate (K_of bc) 0
      end
  end.

Definition hypergraph_spec (N : nat) (bcs : list (list label)) : list (list Z) :=
  map (λ i, concat (map (λ bc, block_row_spec bc (default NaN (bc !! i))) bcs))
      (seq 0 N).

(** A base-clustering matrix of shape (R, N) with at least one run. *)
Definition valid_bc (N : nat) (bcs : list (list label)) : Prop :=
  bcs ≠ [] ∧ Forall (λ bc, length bc = N) bcs.

(** ** Graph-format adapter *)

(** [np.nonzero(row)[0]]: the indices of the non-zero entries, ascending. *)
Definition np_nonzero (row : list Z) : list nat :=
  (filter (λ p : nat * Z, p.2 ≠ 0) (enumerate row)).*1.

(** [row[idx]] *)
Definition take_at (row : list Z) (idx : list nat) : list Z :=
  (λ i, row !!! i) <$> idx.

Definition csr : Type := list nat * list nat * list Z.

(** One round of the loop of [to_pymetis_format]. *)
Definition csr_step (st : csr) (row : list Z) : csr :=
  let '(xadj, adjncy, eweights) := st in
  let idx := np_nonzero row in
  let val := take_at row idx in
  let adjncy := adjncy ++ idx in
  let eweights := eweights ++ val in
  (xadj ++ [length adjncy], adjncy, eweights).

Definition to_pymetis_format (adj_mat : list (list Z)) : csr :=
  foldl csr_step ([0%nat], [], []) adj_mat.

(** An edge of the CSR triple: a position [p] of the slice of node [r]
    that names the neighbour [c] with weight [w]. *)
Definition csr_edge (g : csr) (r c : nat) (w : Z) : Prop :=
  let '(xadj, adjncy, eweights) := g in
  ∃ a b p : nat,
    xadj !! r = Some a ∧ xadj !! S r = Some b ∧ (a ≤ p < b)%nat
    ∧ adjncy !! p = Some c ∧ eweights !! p = Some w.

(** ** Dense integer matrices *)

(** [A.T] for an array with [k] columns. *)
Definition transpose {A} `{Inhabited A} (k : nat) (a : list (list A)) : list (list A) :=
  (λ c, (λ row : list A, row !!! c) <$> a) <$> seq 0 k.

Definition dotZ (u v : list Z) : Z :=
  foldr Z.add 0 (zip_with Z.mul u v).

(** [np.dot(A, B.T)] written with the rows of [B]. *)
Definition dot_rows (a b : list (list Z)) : list (list Z) :=
  (λ u, dotZ u <$> b) <$> a.

(** In how many columns do two rows both hold a 1: for two rows of the
    incidence matrix, the number of hyperedges that contain both objects. *)
Definition both_in (u v : list Z) : nat :=
  length (filter (λ p : Z * Z, p.1 = 1 ∧ p.2 = 1) (zip u v)).

(** ** Exceptions *)

Inductive exn :=
  | AttributeError
  | IndexError
  | ValueError (msg : string).

Inductive result (A : Type) :=
  | Ok (a : A)
  | Raise (e : exn).
Global Arguments Ok {A} a.
Global Arguments Raise {A} e.

Definition rbind {A B} (r : result A) (k : A → result B) : result B :=
  match r with Ok a => k a | Raise e => Raise e end.

(** A method or attribute of the value returned by [create_hypergraph]:
    [None] has none. *)
Definition attr_of {A} (H : option A) : result A :=
  match H with Some a => Ok a | None => Raise AttributeError end.

(** ** Connectivity matrix *)

(** A float that is a quotient of two integers: a rational, or what IEEE
    division gives for a zero divisor. *)
Inductive cell :=
  | cnan
  | cinf (negative : bool)
  | cfin (q : Qc).

(** [c / n] for an integer-valued float [c] and an integer [n]. *)
Definition np_div (c : Z) (n : nat) : cell :=
  match n with
  | O => if decide (c = 0) then cnan else cinf (bool_decide (c < 0))
  | S _ => cfin (Qc_of_Z c / Qc_of_Z (Z.of_nat n))
  end.

(** [np.where(elem_bc == bc, 1, 0)] *)
Definition co_row (elem_bc : label) (bc : list label) : list Z :=
  (λ y, if label_eqb elem_bc y then 1 else 0) <$> bc.

(** The co-membership indicator of one run: row [i] compares the label
    of object [i] with every label of the run. *)
Definition co_membership (bc : list label) : list (list Z) :=
  (λ x, co_row x bc) <$> bc.

(** The inner loop: every row of the shared scratch array [m] is
    overwritten in place. *)
Definition fill_m (m : list (list Z)) (bc : list label) : list (list Z) :=
  foldl (λ m ie, <[ie.1 := co_row ie.2 bc]> m) m (enumerate bc).

(** [M += m] *)
Definition mat_add (M m : list (list Z)) : list (list Z) :=
  zip_with (zip_with Z.add) M m.

(** One round of the outer loop on the pair [(M, m)]. *)
Definition ccm_step (st : list (list Z) * list (list Z)) (bc : list label)
    : list (list Z) * list (list Z) :=
  let m := fill_m st.2 bc in
  (mat_add st.1 m, m).

Definition create_connectivity_matrix (base_clusters : list (list label))
    : list (list cell) :=
  let n_bcs := length base_clusters in
  let len_bcs := ncols base_clusters in
  let M := zeros len_bcs len_bcs in
  let m := zeros len_bcs len_bcs in
  let M := (foldl ccm_step (M, m) base_clusters).1 in
  (λ row : list Z, (λ c, np_div c n_bcs) <$> row) <$> M.

(** In how many runs do objects [i] and [j] carry equal labels, under the
    float equality (the description to compare the matrix with). *)
Definition co_count (bcs : list (list label)) (i j : nat) : nat :=
  length (filter (λ bc, label_eqb (default NaN (bc !! i)) (default NaN (bc !! j)) = true) bcs).

(** In how many runs does object [i] have a non-missing label. *)
Definition labelled_runs (bcs : list (list label)) (i : nat) : nat :=
  length (filter (λ bc, isnan (default NaN (bc !! i)) = false) bcs).

(** ** Jaccard similarity of hyperedges *)

(** [H.astype(bool)] *)
Definition astype_bool (H : list (list Z)) : list (list bool) :=
  (λ row : list Z, (λ z, bool_decide (z ≠ 0)) <$> row) <$> H.

Definition count_true (l : list bool) : nat := length (filter (λ b, b = true) l).

(** *** Doubles (IEEE 754 binary64)

    A finite double is a rational [m * 2^p] with [|m| < 2^53] and
    [-1074 <= p]; the operations [-], [*] and [/] return the double nearest
    to the exact result, the one with an even [m] when two are equally
    near. *)

(** [a / b] rounded to the nearest integer, to the even one on a tie, for
    [0 <= a] and [0 < b]. *)
Definition round_half_even (a b : Z) : Z :=
  let q := a / b in
  let r := a mod b in
  if decide (2 * r < b) then q
  else if decide (b < 2 * r) then q + 1
  else if Z.even q then q else q + 1.

(** The binary exponent of [n / d], for [0 < n] and [0 < d]: the [e] with
    [2^e <= n / d < 2^(e+1)]. *)
Definition binary_exponent (n d : Z) : Z :=
  let e0 := Z.log2 n - Z.log2 d in
  if decide (d * 2 ^ Z.max 0 e0 ≤ n * 2 ^ Z.max 0 (- e0)) then e0 else e0 - 1.

(** The exponent of the unit in the last place: 53 significant bits, and
    no unit below [2^-1074] (the subnormal doubles). *)
Definition ulp_exponent (n d : Z) : Z :=
  Z.max (binary_exponent n d - 52) (-1074).

(** The double nearest to [n / d], for [0 < n] and [0 < d]. *)
Definition round64_pos (n d : Z) : Qc :=
  let p := ulp_exponent n d in
  let m := round_half_even (n * 2 ^ Z.max 0 (- p)) (d * 2 ^ Z.max 0 p) in
  Q2Qc (Qmake (m * 2 ^ Z.max 0 p) (Z.to_pos (2 ^ Z.max 0 (- p)))).

(** The double nearest to [x].  No overflow is written out: the values
    rounded below are at most 1000. *)
Definition round64 (x : Qc) : Qc :=
  let n := Qnum (this x) in
  let d := Z.pos (Qden (this x)) in
  if decide (n = 0) then 0%Qc
  else if decide (0 < n) then round64_pos n d
  else (- round64_pos (- n) d)%Qc.

Definition fsub64 (x y : Qc) : Qc := round64 (x - y).
Definition fmul64 (x y : Qc) : Qc := round64 (x * y).
Definition fdiv64 (x y : Qc) : Qc := round64 (x / y).

(** The Jaccard distance of two boolean vectors: among the positions where
    one of them is set, the share of those where they differ, as a double;
    0 when no position is set.  This stands for the entries computed by
    [sklearn.metrics.pairwise_distances(metric='jaccard')], which divides
    the two counts in double precision. *)
Definition jaccard (u v : list bool) : Qc :=
  let differ := count_true (zip_with xorb u v) in
  let either := count_true (zip_with orb u v) in
  match either with
  | O => 0%Qc
  | S _ => fdiv64 (Qc_of_Z (Z.of_nat differ)) (Qc_of_Z (Z.of_nat either))
  end.

Definition pairwise_distances (X : list (list bool)) : list (list Qc) :=
  (λ u : list bool, jaccard u <$> X) <$> X.

(** [astype(int)] of a float: truncation toward zero. *)
Definition astype_int (q : Qc) : Z :=
  Z.quot (Qnum (this q)) (Z.pos (Qden (this q))).

(** [S = ones_like(d) - d; S *= 1e3; S = S.astype(int)], entry by entry:
    a subtraction and a multiplication of doubles, then the truncation. *)
Definition jaccard_weight (d : Qc) : Z :=
  astype_int (fmul64 (fsub64 1%Qc d) (Qc_of_Z 1000)).

Definition mcla_similarity (H : list (list bool)) : list (list Z) :=
  let pair_dist_jac := pairwise_distances (transpose (ncols H) H) in
  (λ row : list Qc, jaccard_weight <$> row) <$> pair_dist_jac.

(** ** Meta-cluster votes *)

(** [a[:, i]] *)
Definition column {A} `{Inhabited A} (a : list (list A)) (i : nat) : list A :=
  (λ row : list A, row !!! i) <$> a.

(** [meta_clusters[:, v] += col] *)
Definition add_column (meta : list (list Z)) (v : nat) (col : list bool)
    : list (list Z) :=
  zip_with (λ row (b : bool), <[v := row !!! v + (if b then 1 else 0)]> row)
           meta col.

(** One round of the vote loop; an index outside either array raises. *)
Definition meta_step (nclass : nat) (H : list (list bool))
    (meta : result (list (list Z))) (iv : nat * nat) : result (list (list Z)) :=
  rbind meta (λ meta,
    if decide (iv.2 < nclass ∧ iv.1 < ncols H)%nat
    then Ok (add_column meta iv.2 (column H iv.1))
    else Raise IndexError).

(** [np.max] of a row; [None] for an empty one. *)
Definition np_max (v : list Z) : option Z :=
  match v with
  | [] => None
  | x :: l => Some (foldl Z.max x l)
  end.

(** [np.nonzero(v == mx)[0]] *)
Definition tied_at (v : list Z) (mx : Z) : list nat :=
  (filter (λ p : nat * Z, p.2 = mx) (enumerate v)).*1.

(** [np.nonzero(v == np.max(v))[0]], the candidates of one row. *)
Definition tied_set (v : list Z) : list nat :=
  match np_max v with
  | Some mx => tied_at v mx
  | None => []
  end.

(** ** Contracts of the collaborators, and descriptions to compare with *)

(** The partitioner returns one part in [0, nparts) per node; the nodes are
    the rows of the adjacency matrix, one more offset than nodes. *)
Definition partitioner_contract
    (part_graph : nat → list nat → list nat → option (list Z) → Z * list nat)
    : Prop :=
  ∀ nparts xadj adjncy eweights,
    (0 < nparts)%nat →
    let membership := (part_graph nparts xadj adjncy eweights).2 in
    length membership = (length xadj - 1)%nat
    ∧ Forall (λ v, v < nparts)%nat membership.

(** [choice] returns one of the candidates. *)
Definition choice_contract {rng} (random_choice : list nat → rng → nat * rng)
    : Prop :=
  ∀ l g, l ≠ [] → (random_choice l g).1 ∈ l.

(** The votes of object [i] for meta-cluster [k]: the number of hyperedges
    put into [k] that contain [i]. *)
Definition votes (H : list (list bool)) (membership : list nat) (i k : nat) : nat :=
  length (filter (λ cv : nat * nat, cv.2 = k ∧ at2 H i cv.1 = Some true)
                 (enumerate membership)).

(** One draw after the other from a list of candidate lists. *)
Fixpoint draw {rng} (random_choice : list nat → rng → nat * rng)
    (candidates : list (list nat)) (g : rng) : list nat * rng :=
  match candidates with
  | [] => ([], g)
  | c :: cs =>
      let '(lab, g1) := random_choice c g in
      let '(labs, g2) := draw random_choice cs g1 in
      (lab :: labs, g2)
  end.

(** The float order, as far as [argmax] needs it: [<=] is transitive,
    total on the values that are not NaN, and false as soon as one side
    is NaN (a NaN being a value with [x <= x] false). *)
Definition fleb_order {F} (fleb : F → F → bool) : Prop :=
  (∀ x y z, fleb x y = true → fleb y z = true → fleb x z = true)
  ∧ (∀ x y, fleb x x = true → fleb y y = true →
            fleb x y = true ∨ fleb y x = true)
  ∧ (∀ x y, fleb x y = true → fleb x x = true ∧ fleb y y = true).

(** [k] is the first position of the maximum of [row]. *)
Definition first_max {F} (fleb : F → F → bool) (row : list F) (k : nat) : Prop :=
  ∃ m, row !! k = Some m
       ∧ (∀ j y, row !! j = Some y → fleb y m = true)
       ∧ (∀ j y, row !! j = Some y → (j < k)%nat → fleb m y = false).

(** [k] is the position of the first NaN of [row]. *)
Definition first_nan {F} (fleb : F → F → bool) (row : list F) (k : nat) : Prop :=
  ∃ x, row !! k = Some x
       ∧ fleb x x = false
       ∧ (∀ j y, row !! j = Some y → (j < k)%nat → fleb y y = true).

(** A label vector for [N] objects and [nclass] classes. *)
Definition valid_labels (N nclass : nat) (r : result (list nat)) : Prop :=
  ∃ labs, r = Ok labs ∧ length labs = N ∧ Forall (λ v, v < nclass)%nat labs.

(** ** The solvers *)

(** Python's [for _ in range(n)] on a loop state. *)
Definition for_range {St} (n : nat) (body : nat → St → St) (s : St) : St :=
  foldl (λ s i, body i s) s (seq 0 n).

(** The default of the [maxiter] parameter. *)
Definition default_maxiter : nat := 500.

Section Solvers.

(** [pymetis.part_graph(nparts, xadj, adjncy, eweights)]: the edge cut and
    the membership vector. *)
Variable part_graph :
  nat → list nat → list nat → option (list Z) → Z * list nat.

(** The state of NumPy's global random source, and [np.random.choice]. *)
Context {rng : Type}.
Variable random_choice : list nat → rng → nat * rng.

Definition cspa (base_clusters : list (list label)) (nclass : nat)
    : result (list nat) :=
  rbind (attr_of (create_hypergraph base_clusters)) (λ H,
    let S := dot_rows H H in
    let '(xadj, adjncy, eweights) := to_pymetis_format S in
    let membership := (part_graph nclass xadj adjncy (Some eweights)).2 in
    Ok membership).

(** The list comprehension that draws one label per row of
    [meta_clusters]. *)
Fixpoint choose_labels (rows : list (list Z)) (g : rng)
    : result (list nat) * rng :=
  match rows with
  | [] => (Ok [], g)
  | v :: rows' =>
      match np_max v with
      | None => (Raise (ValueError "zero-size array to reduction operation maximum which has no identity"), g)
      | Some mx =>
          let '(lab, g1) := random_choice (tied_at v mx) g in
          let '(r, g2) := choose_labels rows' g1 in
          (rbind r (λ labs, Ok (lab :: labs)), g2)
      end
  end.

(** The second half of [mcla]: the votes of the hyperedges for their
    meta-clusters, then one draw per object among the best. *)
Definition mcla_assign (len_bcs nclass : nat) (H : list (list bool))
    (membership : list nat) (g : rng) : result (list nat) * rng :=
  let meta_clusters := zeros len_bcs nclass in
  match foldl (meta_step nclass H) (Ok meta_clusters) (enumerate membership) with
  | Raise e => (Raise e, g)
  | Ok meta_clusters => choose_labels meta_clusters g
  end.

Definition mcla (base_clusters : list (list label)) (nclass : nat) (g : rng)
    : result (list nat) * rng :=
  match attr_of (create_hypergraph base_clusters) with
  | Raise e => (Raise e, g)
  | Ok H =>
      let H := astype_bool H in
      let S := mcla_similarity H in
      let '(xadj, adjncy, eweights) := to_pymetis_format S in
      let membership := (part_graph nclass xadj adjncy (Some eweights)).2 in
      mcla_assign (ncols base_clusters) nclass H membership g
  end.

(** The bipartite adjacency matrix of HBGF. *)
Definition hbgf_adjacency (A : list (list Z)) : list (list Z) :=
  let rowA := length A in
  let colA := ncols A in
  vstack (hstack (zeros colA colA) (transpose colA A))
         (hstack A (zeros rowA rowA)).

Definition hbgf (base_clusters : list (list label)) (nclass : nat)
    : result (list nat) :=
  rbind (attr_of (create_hypergraph base_clusters)) (λ A,
    let colA := ncols A in
    let W := hbgf_adjacency A in
    let '(xadj, adjncy, _) := to_pymetis_format W in
    let membership := (part_graph nclass xadj adjncy None).2 in
    Ok (drop colA membership)).

(** *** NMF, over the float arithmetic *)

Section NMF.

Context {F : Type}.
Variables (fzero feps : F) (fadd fmul fdiv : F → F → F) (fsqrt : F → F).
(** [x <= y] on floats; a NaN is the only value with [x <= x] false. *)
Variable fleb : F → F → bool.
(** The float of an entry of the connectivity matrix. *)
Variable of_cell : cell → F.
(** One draw of [np.random.rand]. *)
Variable random_rand : rng → F * rng.

Definition fisnan (x : F) : bool := negb (fleb x x).

Definition fsum (l : list F) : F := foldl fadd fzero l.

Definition fcolumn (a : list (list F)) (c : nat) : list F :=
  (λ row : list F, default fzero (row !! c)) <$> a.

(** [a.T] for an array with [k] columns. *)
Definition ftranspose (k : nat) (a : list (list F)) : list (list F) :=
  fcolumn a <$> seq 0 k.

(** [np.dot(a, b)] for [b] with [k] columns. *)
Definition fdot (k : nat) (a b : list (list F)) : list (list F) :=
  (λ row : list F, (λ c, fsum (zip_with fmul row (fcolumn b c))) <$> seq 0 k)
    <$> a.

(** Elementwise operations. *)
Definition fmat_map (f : F → F) (a : list (list F)) : list (list F) :=
  (λ row : list F, f <$> row) <$> a.

Definition fmat_zip (op : F → F → F) (a b : list (list F)) : list (list F) :=
  zip_with (zip_with op) a b.

(** [np.random.rand(k)] and [np.random.rand(n, k)], drawn in row order. *)
Fixpoint rand_vec (k : nat) (g : rng) : list F * rng :=
  match k with
  | O => ([], g)
  | S k' =>
      let '(x, g1) := random_rand g in
      let '(l, g2) := rand_vec k' g1 in
      (x :: l, g2)
  end.

Fixpoint rand_mat (n k : nat) (g : rng) : list (list F) * rng :=
  match n with
  | O => ([], g)
  | S n' =>
      let '(row, g1) := rand_vec k g in
      let '(rows, g2) := rand_mat n' k g1 in
      (row :: rows, g2)
  end.

(** [np.diag(d)] *)
Definition np_diag (d : list F) : list (list F) :=
  imap (λ i x, <[i := x]> (replicate (length d) fzero)) d.

(** One round of the loop: the update of [Q], then of [S]. *)
Definition nmf_round (W : list (list F)) (nclass : nat)
    (QS : list (list F) * list (list F)) : list (list F) * list (list F) :=
  let '(Q, S0) := QS in
  let WQS := fdot nclass W (fdot nclass Q S0) in
  let Q :=
    fmat_zip fmul Q
      (fmat_map fsqrt
         (fmat_zip fdiv WQS
            (fmat_map (λ x, fadd x feps)
               (fdot nclass Q (fdot nclass (ftranspose nclass Q) WQS))))) in
  let QTQ := fdot nclass (ftranspose nclass Q) Q in
  let S1 :=
    fmat_zip fmul S0
      (fmat_map fsqrt
         (fmat_zip fdiv
            (fdot nclass (ftranspose nclass Q) (fdot nclass W Q))
            (fmat_map (λ x, fadd x feps)
               (fdot nclass QTQ (fdot nclass S0 QTQ))))) in
  (Q, S1).

Definition orthogonal_nmf_algorithm (W : list (list F)) (nclass : nat)
    (maxiter : nat) (g : rng) : (list (list F) * list (list F)) * rng :=
  let n := length W in
  let '(Q, g1) := rand_mat n nclass g in
  let '(d, g2) := rand_vec nclass g1 in
  let S0 := np_diag d in
  (for_range maxiter (λ _, nmf_round W nclass) (Q, S0), g2).

(** [np.argmax] of one row: the scan keeps the first entry that no
    later one exceeds, and stops at the first NaN. *)
Fixpoint argmax_from (mp : F) (max_ind i : nat) (l : list F) : nat :=
  match l with
  | [] => max_ind
  | x :: l' =>
      if negb (fleb x mp)
      then (if fisnan x then i else argmax_from x i (S i) l')
      else argmax_from mp max_ind (S i) l'
  end.

Definition np_argmax (row : list F) : option nat :=
  match row with
  | [] => None
  | x :: l => Some (if fisnan x then 0%nat else argmax_from x 0 1 l)
  end.

(** [np.argmax(a, axis=1)] for an array with [k] columns. *)
Definition argmax_axis1 (k : nat) (a : list (list F)) : result (list nat) :=
  match k with
  | O => Raise (ValueError "attempt to get argmax of an empty sequence")
  | S _ => Ok ((λ row, default 0%nat (np_argmax row)) <$> a)
  end.

(** The last line of [nmf]: the labels read off the factors. *)
Definition nmf_labels (nclass : nat)
    (QS : list (list F) * list (list F)) : result (list nat) :=
  argmax_axis1 nclass (fdot nclass QS.1 (fmat_map fsqrt QS.2)).

Definition nmf (base_clusters : list (list label)) (nclass : nat) (g : rng)
    : result (list nat) * rng :=
  let M := create_connectivity_matrix base_clusters in
  let W := (λ row : list cell, of_cell <$> row) <$> M in
  let '(QS, g') := orthogonal_nmf_algorithm W nclass default_maxiter g in
  (nmf_labels nclass QS, g').

(** *** Orchestrator *)

(** The [nclass] argument as Python passes it: absent, an [int], or a
    value of another type, of which only its text matters. *)
Inductive pyval :=
  | PyNone
  | PyInt (z : Z)
  | PyOther (text : string).

Definition str_of (v : pyval) : string :=
  match v with
  | PyNone => "None"
  | PyInt z => pretty z
  | PyOther s => s
  end.

(** The loop that computes the default class count. *)
Definition default_nclass (base_clusters : list (list label)) : Z :=
  foldl (λ nclass bc,
           let len_unique_bc := length (np_unique (non_missing bc)) in
           Z.max nclass (Z.of_nat len_unique_bc))
        (-1) base_clusters.

Definition nclass_error (nclass : pyval) : exn :=
  ValueError ("Number of class must be a positive integer; got (nclass="
              +:+ str_of nclass +:+ ")").

Definition solver_error (solver : string) : exn :=
  ValueError ("Invalid solver parameter: got '" +:+ solver
              +:+ "' instead of one of ('cspa', 'mcla', 'hbgf', 'nmf')").

(** The lines printed when [verbose] is set. *)
Definition verbose_lines (base_clusters : list (list label))
    (nclass : pyval) (solver : string) : list string :=
  [ "Cluster Ensembles";
    "    - number of classes:  " +:+ str_of nclass;
    "    - solver:  " +:+ solver;
    "    - length of base clustering labels:  " +:+ pretty (ncols base_clusters);
    "    - number of base clusters:  " +:+ pretty (length base_clusters) ].

(** The class count after the defaulting step. *)
Definition effective_nclass (base_clusters : list (list label))
    (nclass : pyval) : pyval :=
  match nclass with
  | PyNone => PyInt (default_nclass base_clusters)
  | _ => nclass
  end.

(** A positive [int]. *)
Definition positive_int (nclass : pyval) : Prop :=
  ∃ z, nclass = PyInt z ∧ 0 < z.

(** The accepted solver names. *)
Definition solver_names : list string := ["cspa"; "mcla"; "hbgf"; "nmf"].

(** [cluster_ensembles]: the printed lines, the labels or the exception,
    and the state of the random source afterwards. *)
Definition cluster_ensembles (base_clusters : list (list label))
    (nclass : pyval) (solver : string) (verbose : bool) (g : rng)
    : list string * (result (list nat) * rng) :=
  let nclass :=
    match nclass with
    | PyNone => PyInt (default_nclass base_clusters)
    | _ => nclass
    end in
  let out := if verbose then verbose_lines base_clusters nclass solver else [] in
  match nclass with
  | PyInt z =>
      if decide (0 < z) then
        let k := Z.to_nat z in
        if decide (solver = "cspa") then (out, (cspa base_clusters k, g))
        else if decide (solver = "mcla") then (out, mcla base_clusters k g)
        else if decide (solver = "hbgf") then (out, (hbgf base_clusters k, g))
        else if decide (solver = "nmf") then (out, nmf base_clusters k g)
        else (out, (Raise (solver_error solver), g))
      else (out, (Raise (nclass_error nclass), g))
  | _ => (out, (Raise (nclass_error nclass), g))
  end.

End NMF.

End Solvers.

(** ** Renaming the labels of a run *)

(** The label [f v] for [v]; a missing label stays missing. *)
Definition relabel (f : Z → Z) (x : label) : label :=
  match x with NaN => NaN | Lab v => Lab (f v) end.

(** Run [r] renamed by the [r]-th function. *)
Definition relabel_runs (fs : list (Z → Z)) (bcs : list (list label))
    : list (list label) :=
  zip_with (λ f bc, relabel f <$> bc) fs bcs.

Definition increasing (f : Z → Z) : Prop := ∀ a b, a < b → f a < f b.



(** ** Concrete collaborators, used in the examples *)

(** A partitioner that deals the nodes round-robin. *)
Definition part_graph_mod (nparts : nat) (xadj adjncy : list nat)
    (eweights : option (list Z)) : Z * list nat :=
  (0, (λ i, i `mod` nparts)%nat <$> seq 0 (length xadj - 1)).

(** A partitioner that breaks the contract: one part, numbered [nparts]. *)
Definition part_graph_out_of_range (nparts : nat) (xadj adjncy : list nat)
    (eweights : option (list Z)) : Z * list nat :=
  (0, [nparts]).

(** A random source with a counter as state: [choice] takes the candidate
    at the counter's position, [rand] returns the counter. *)
Definition choice_counter (l : list nat) (g : nat) : nat * nat :=
  (default 0%nat (l !! (g `mod` length l)%nat), S g).

Definition rand_counter (g : nat) : Z * nat := (Z.of_nat g, S g).

(** Integers standing for floats: an entry of the connectivity matrix
    scaled by 100 and truncated. *)
Definition cell_to_Z (c : cell) : Z :=
  match c with
  | cfin q => astype_int (q * Qc_of_Z 100)%Qc
  | _ => 0
  end.

(** ** Properties of the array helpers *)

Lemma elem_of_non_missing (bc : list label) (v : Z) :
  v ∈ non_missing bc ↔ Lab v ∈ bc.
Proof.
  unfold non_missing. rewrite list_elem_of_omap. split.
  - intros (x & Hx & Hv). destruct x; naive_solver.
  - intros Hv. by exists (Lab v).
Qed.

Lemma elem_of_np_unique (l : list Z) (v : Z) : v ∈ np_unique l ↔ v ∈ l.
Proof.
  unfold np_unique. rewrite merge_sort_Permutation. apply elem_of_remove_dups.
Qed.

Lemma NoDup_np_unique (l : list Z) : NoDup (np_unique l).
Proof.
  unfold np_unique. rewrite merge_sort_Permutation. apply NoDup_remove_dups.
Qed.

Lemma StronglySorted_le_lt (l : list Z) :
  StronglySorted Z.le l → NoDup l → StronglySorted Z.lt l.
Proof.
  induction 1 as [|x l Hs IH Hx]; intros Hnd; [constructor|].
  apply NoDup_cons in Hnd as [Hnin Hnd]. constructor; [by apply IH|].
  rewrite Forall_forall in Hx |- *. intros y Hy.
  specialize (Hx y Hy). assert (x ≠ y) by (intros ->; done). lia.
Qed.

Lemma np_unique_ascending (l : list Z) : StronglySorted Z.lt (np_unique l).
Proof.
  apply StronglySorted_le_lt; [|apply NoDup_np_unique].
  unfold np_unique. apply (StronglySorted_merge_sort Z.le).
Qed.

Lemma dict_zip_lookup (ks : list Z) (s : nat) (m : gmap Z nat) (v : Z) :
  NoDup ks →
  (∀ c, ks !! c = Some v →
        dict_from m (zip ks (seq s (length ks))) !! v = Some (s + c)%nat) ∧
  (v ∉ ks → dict_from m (zip ks (seq s (length ks))) !! v = m !! v).
Proof.
  revert s m. induction ks as [|k ks IH]; intros s m Hnd; simpl.
  { split; [intros c Hc; by rewrite lookup_nil in Hc|done]. }
  apply NoDup_cons in Hnd as [Hk Hnd].
  destruct (IH (S s) (<[k:=s]> m) Hnd) as [IH1 IH2]. split.
  - intros [|c] Hc; simpl in Hc.
    + injection Hc as ->. rewrite IH2 by done.
      rewrite lookup_insert_eq. f_equal. lia.
    + rewrite (IH1 c Hc). f_equal. lia.
  - intros Hv. apply not_elem_of_cons in Hv as [Hvk Hv].
    rewrite IH2 by done. by rewrite lookup_insert_ne.
Qed.

Lemma local_id_lookup (bc : list label) (v : Z) (c : nat) :
  local_id bc v = Some c ↔ np_unique (non_missing bc) !! c = Some v.
Proof.
  unfold local_id. split.
  - destruct (list_find _ _) as [[i u]|] eqn:Hf; simpl; [|done].
    intros [= <-]. apply list_find_Some in Hf as (Hu & -> & _). done.
  - intros Hc.
    destruct (list_find _ _) as [[i u]|] eqn:Hf; simpl.
    + apply list_find_Some in Hf as (Hu & -> & _). f_equal.
      eapply NoDup_lookup; eauto using NoDup_np_unique.
    + apply list_find_None in Hf. rewrite Forall_forall in Hf.
      destruct (Hf v); [by eapply list_elem_of_lookup_2|done].
Qed.

(** The dictionary built by the loop finds every id: no [KeyError]. *)
Lemma bc2id_lookup (bc : list label) (v : Z) :
  bc2id_of (np_unique (non_missing bc)) !! v = local_id bc v.
Proof.
  unfold bc2id_of, dict.
  pose proof (dict_zip_lookup (np_unique (non_missing bc)) 0 ∅ v
                (NoDup_np_unique _)) as [H1 H2].
  destruct (local_id bc v) as [c|] eqn:Hid.
  - apply local_id_lookup in Hid. by rewrite (H1 c Hid).
  - rewrite H2; [done|]. intros [c Hc]%list_elem_of_lookup_1.
    apply local_id_lookup in Hc. congruence.
Qed.

Lemma bc2id_total (bc : list label) (v : Z) :
  Lab v ∈ bc → ∃ c, local_id bc v = Some c ∧ (c < K_of bc)%nat.
Proof.
  intros Hv. apply elem_of_non_missing, (elem_of_np_unique _ v) in Hv.
  apply list_elem_of_lookup_1 in Hv as [c Hc]. exists c. split.
  - by apply local_id_lookup.
  - by apply lookup_lt_Some in Hc.
Qed.

Lemma set_cell_lookup (h : list (list Z)) (i c j : nat) (x : Z) :
  set_cell h i c x !! j =
    if decide (i = j) then (λ row, <[c := x]> row) <$> h !! j else h !! j.
Proof.
  unfold set_cell. destruct (h !! i) as [row|] eqn:Hi.
  - rewrite list_lookup_insert. apply lookup_lt_Some in Hi as Hlt.
    destruct (decide (i = j)) as [->|Hne].
    + rewrite decide_True by done. by rewrite Hi.
    + rewrite decide_False by (intros [? _]; done). done.
  - case_decide; subst; [by rewrite Hi|done].
Qed.

Lemma mark_row_lookup (bc2id : gmap Z nat) (h : list (list Z))
    (i j : nat) (x : label) :
  mark_row bc2id h (i, x) !! j =
    if decide (i = j) then mark_one bc2id x <$> h !! j else h !! j.
Proof.
  unfold mark_row, mark_one; simpl. destruct x as [|v].
  - case_decide; [by destruct (h !! j)|done].
  - destruct (bc2id !! v).
    + apply set_cell_lookup.
    + case_decide; [by destruct (h !! j)|done].
Qed.

(** A loop over [enumerate l] that rewrites row [i] with the [i]-th element
    touches every row once. *)
Lemma foldl_rows_lookup {A} (step : list (list Z) → nat * A → list (list Z))
    (upd : A → list Z → list Z) :
  (∀ h i x j,
     step h (i, x) !! j = if decide (i = j) then upd x <$> h !! j else h !! j) →
  ∀ (l : list A) (s : nat) (h : list (list Z)) (i : nat),
    foldl step h (zip (seq s (length l)) l) !! i =
      match l !! (i - s)%nat with
      | Some x => if decide (s ≤ i)%nat then upd x <$> h !! i else h !! i
      | None => h !! i
      end.
Proof.
  intros Hstep l. induction l as [|x l IH]; intros s h i; simpl; [done|].
  rewrite IH, Hstep.
  destruct (decide (s = i)) as [->|Hne].
  - replace (i - i)%nat with 0%nat by lia. simpl.
    rewrite (decide_True _ _ (le_n i)).
    destruct (l !! _); [|done]. by rewrite decide_False by lia.
  - destruct (decide (s ≤ i)%nat) as [Hle|Hgt].
    + replace (i - s)%nat with (S (i - S s)) by lia. simpl.
      destruct (l !! _); [|done]. by rewrite decide_True by lia.
    + replace (i - S s)%nat with 0%nat by lia.
      replace (i - s)%nat with 0%nat by lia. simpl.
      destruct (l !! 0%nat); [|done]. by rewrite decide_False by lia.
Qed.

Lemma foldl_mark_row_lookup (bc2id : gmap Z nat) (l : list label) (s : nat)
    (h : list (list Z)) (i : nat) :
  foldl (mark_row bc2id) h (zip (seq s (length l)) l) !! i =
    match l !! (i - s)%nat with
    | Some x => if decide (s ≤ i)%nat then mark_one bc2id x <$> h !! i else h !! i
    | None => h !! i
    end.
Proof.
  apply (foldl_rows_lookup (mark_row bc2id) (mark_one bc2id)).
  intros h' i' x j. apply mark_row_lookup.
Qed.

Lemma mark_one_spec (bc : list label) (x : label) :
  mark_one (bc2id_of (np_unique (non_missing bc))) x (replicate (K_of bc) 0)
  = block_row_spec bc x.
Proof.
  unfold mark_one, block_row_spec. destruct x as [|v]; [done|].
  by rewrite bc2id_lookup.
Qed.

Lemma run_block_spec (bc : list label) :
  run_block (length bc) bc = map (block_row_spec bc) bc.
Proof.
  unfold run_block, enumerate. apply list_eq. intros i.
  rewrite foldl_mark_row_lookup, list_lookup_fmap.
  replace (i - 0)%nat with i by lia.
  destruct (bc !! i) as [x|] eqn:Hx; simpl.
  - unfold zeros.
    rewrite lookup_replicate_2 by (by apply lookup_lt_Some in Hx). simpl.
    f_equal. apply mark_one_spec.
  - unfold zeros. apply lookup_replicate_None.
    apply lookup_ge_None in Hx. lia.
Qed.

(** ** [create_hypergraph] against its description *)

Lemma hypergraph_spec_lookup (N : nat) (bcs : list (list label)) (i : nat) :
  hypergraph_spec N bcs !! i =
    if decide (i < N)%nat
    then Some (concat (map (λ bc, block_row_spec bc (default NaN (bc !! i))) bcs))
    else None.
Proof.
  unfold hypergraph_spec. rewrite list_lookup_fmap. case_decide as Hi.
  - by rewrite lookup_seq_lt.
  - by rewrite lookup_seq_ge by lia.
Qed.

Lemma length_hypergraph_spec (N : nat) (bcs : list (list label)) :
  length (hypergraph_spec N bcs) = N.
Proof. unfold hypergraph_spec. by rewrite length_map, length_seq. Qed.

Lemma foldl_stack_Some (N : nat) (H : list (list Z)) (bcs : list (list label)) :
  foldl (λ H bc,
           let h := run_block N bc in
           match H with
           | None => Some h
           | Some H' => Some (hstack H' h)
           end) (Some H) bcs
  = Some (foldl (λ H' bc, hstack H' (run_block N bc)) H bcs).
Proof. revert H. induction bcs as [|bc bcs IH]; intros H; simpl; [done|apply IH]. Qed.

Lemma foldl_hstack_spec (N : nat) (bcs : list (list label)) (H0 : list (list Z)) :
  Forall (λ bc, length bc = N) bcs → length H0 = N →
  foldl (λ H' bc, hstack H' (run_block N bc)) H0 bcs
  = zip_with app H0 (hypergraph_spec N bcs).
Proof.
  intros Hall. revert H0. induction Hall as [|bc bcs Hbc Hall IH]; intros H0 HN; simpl.
  - apply list_eq. intros i. rewrite lookup_zip_with, hypergraph_spec_lookup.
    destruct (H0 !! i) as [row|] eqn:Hrow; simpl; [|done].
    apply lookup_lt_Some in Hrow as Hlt. rewrite decide_True by lia. simpl.
    by rewrite app_nil_r.
  - subst N. rewrite IH.
    2:{ unfold hstack. rewrite length_zip_with, run_block_spec, length_map. lia. }
    apply list_eq. intros i. unfold hstack.
    rewrite !lookup_zip_with, !hypergraph_spec_lookup.
    rewrite run_block_spec, list_lookup_fmap.
    destruct (H0 !! i) as [row|] eqn:Hrow; [|done].
    apply lookup_lt_Some in Hrow as Hlt.
    destruct (decide (i < length bc)%nat) as [Hi|Hi]; [|lia].
    destruct (bc !! i) as [x|] eqn:Hx; simpl; rewrite ?Hx; simpl.
    + by rewrite <- app_assoc.
    + apply lookup_ge_None in Hx. lia.
Qed.

Lemma create_hypergraph_spec (N : nat) (bcs : list (list label)) :
  valid_bc N bcs → create_hypergraph bcs = Some (hypergraph_spec N bcs).
Proof.
  intros [Hne Hall]. destruct bcs as [|bc bcs]; [done|].
  apply Forall_cons in Hall as [Hbc Hall].
  unfold create_hypergraph. simpl. subst N.
  rewrite foldl_stack_Some. f_equal.
  rewrite foldl_hstack_spec; [|done|by rewrite run_block_spec, length_map].
  apply list_eq. intros i.
  rewrite lookup_zip_with, !hypergraph_spec_lookup.
  rewrite run_block_spec, list_lookup_fmap.
  destruct (decide (i < length bc)%nat) as [Hi|Hi].
  - destruct (bc !! i) as [x|] eqn:Hx; simpl; rewrite ?Hx; simpl; [done|].
    apply lookup_ge_None in Hx. lia.
  - rewrite lookup_ge_None_2 by lia. done.
Qed.

Lemma length_block_row_spec (bc : list label) (x : label) :
  length (block_row_spec bc x) = K_of bc.
Proof.
  unfold block_row_spec, one_hot. destruct x as [|v]; [apply length_replicate|].
  destruct (local_id bc v); by rewrite ?length_insert, length_replicate.
Qed.

Lemma block_row_spec_lookup (bc : list label) (x : label) (c : nat) :
  (c < K_of bc)%nat →
  block_row_spec bc x !! c =
    Some (if bool_decide (Lab <$> np_unique (non_missing bc) !! c = Some x)
          then 1 else 0).
Proof.
  intros Hc. destruct (lookup_lt_is_Some_2 _ _ Hc) as [u Hu]. rewrite Hu. simpl.
  unfold block_row_spec, one_hot. destruct x as [|v].
  - rewrite bool_decide_eq_false_2 by done. by apply lookup_replicate_2.
  - destruct (local_id bc v) as [c'|] eqn:Hid.
    + apply local_id_lookup in Hid. rewrite list_lookup_insert, length_replicate.
      destruct (decide (c' = c)) as [->|Hne].
      * rewrite decide_True by done. rewrite bool_decide_eq_true_2; [done|].
        congruence.
      * rewrite decide_False by (intros [? _]; done).
        rewrite bool_decide_eq_false_2; [by apply lookup_replicate_2|].
        intros [= ->]. apply Hne.
        eapply NoDup_lookup; eauto using NoDup_np_unique.
    + rewrite bool_decide_eq_false_2; [by apply lookup_replicate_2|].
      intros [= ->]. apply local_id_lookup in Hu. congruence.
Qed.

Lemma length_concat_blocks {A B} (f : A → list B) (g : A → nat) (l : list A) :
  (∀ a, length (f a) = g a) →
  length (concat (map f l)) = sum_list (g <$> l).
Proof.
  intros Hfg. induction l as [|a l IH]; simpl; [done|].
  by rewrite length_app, Hfg, IH.
Qed.

Lemma lookup_concat_blocks {A B} (f : A → list B) (g : A → nat) (l : list A)
    (r : nat) (a : A) (c : nat) :
  (∀ a, length (f a) = g a) →
  l !! r = Some a → (c < g a)%nat →
  concat (map f l) !! (sum_list (g <$> take r l) + c)%nat = f a !! c.
Proof.
  intros Hfg. revert r. induction l as [|b l IH]; intros r Hr Hc; [done|].
  destruct r as [|r]; simpl in *.
  - injection Hr as ->. by rewrite lookup_app_l by (rewrite Hfg; lia).
  - change (list_fmap A nat g (take r l)) with (g <$> take r l).
    rewrite lookup_app_r by (rewrite Hfg; lia).
    rewrite <- (IH r Hr Hc), Hfg. f_equal. lia.
Qed.

(** C3. For a base-clustering matrix of shape (R, N), [create_hypergraph]
    returns an N x Sum(K_r) matrix: the column blocks of the runs in run
    order, the block of run r being K_r wide, K_r the number of distinct
    non-missing labels of the run, its columns numbered by ascending label.
    In row i the entry of column c of block r is 1 when bc[r][i] is the
    label of that column and 0 otherwise, so the segment has a single 1
    for a non-missing label and none for a missing one; a run without
    labels contributes no column. *)
Theorem create_hypergraph_incidence (N : nat) (bcs : list (list label)) :
  valid_bc N bcs →
  ∃ H : list (list Z),
    create_hypergraph bcs = Some H
    ∧ length H = N
    ∧ Forall (λ row, length row = sum_list (K_of <$> bcs)) H
    ∧ (∀ r bc i x c,
         bcs !! r = Some bc → bc !! i = Some x → (c < K_of bc)%nat →
         H !! i ≫= (.!! (sum_list (K_of <$> take r bcs) + c)%nat)
         = Some (if bool_decide
                      (Lab <$> np_unique (non_missing bc) !! c = Some x)
                 then 1 else 0))
    ∧ (∀ bc i v,
         bc ∈ bcs → bc !! i = Some (Lab v) →
         ∃ c, (c < K_of bc)%nat ∧ np_unique (non_missing bc) !! c = Some v)
    ∧ (∀ bc,
         bc ∈ bcs →
         StronglySorted Z.lt (np_unique (non_missing bc))
         ∧ (∀ v, v ∈ np_unique (non_missing bc) ↔ Lab v ∈ bc)
         ∧ (Forall (λ x, x = NaN) bc → K_of bc = 0%nat)).
Proof.
  intros Hvalid. exists (hypergraph_spec N bcs).
  split; [by apply create_hypergraph_spec|].
  split; [apply length_hypergraph_spec|].
  destruct Hvalid as [_ Hall].
  split; [|split; [|split]].
  - apply Forall_forall. intros row [i Hrow]%list_elem_of_lookup_1.
    rewrite hypergraph_spec_lookup in Hrow. case_decide; [|done].
    injection Hrow as <-.
    apply (length_concat_blocks _ K_of). intros bc. apply length_block_row_spec.
  - intros r bc i x c Hr Hx Hc.
    rewrite hypergraph_spec_lookup.
    rewrite Forall_forall in Hall.
    assert (length bc = N) as HN by (apply Hall; by eapply list_elem_of_lookup_2).
    apply lookup_lt_Some in Hx as Hlt. rewrite decide_True by lia. simpl.
    rewrite (lookup_concat_blocks
               (λ bc, block_row_spec bc (default NaN (bc !! i))) K_of bcs r bc c);
      [|intros; apply length_block_row_spec|done|done].
    rewrite Hx. simpl. by apply block_row_spec_lookup.
  - intros bc i v _ Hv.
    destruct (bc2id_total bc v) as (c & Hc & Hlt); [by eapply list_elem_of_lookup_2|].
    exists c. split; [done|]. by apply local_id_lookup.
  - intros bc _. split; [apply np_unique_ascending|]. split.
    + intros v. rewrite elem_of_np_unique. apply elem_of_non_missing.
    + intros Hnan. unfold K_of.
      destruct (np_unique (non_missing bc)) as [|v l] eqn:Hl; [done|].
      assert (v ∈ np_unique (non_missing bc)) as Hv by (rewrite Hl; left).
      apply elem_of_np_unique, elem_of_non_missing in Hv.
      rewrite Forall_forall in Hnan. by specialize (Hnan _ Hv).
Qed.

Lemma create_hypergraph_incidence_witness :
  ∃ H : list (list Z),
    create_hypergraph [[Lab 5; NaN; Lab 2]; [NaN; NaN; NaN]; [Lab 1; Lab 1; Lab 7]]
    = Some H ∧ length H = 3%nat.
Proof.
  destruct (create_hypergraph_incidence 3
    [[Lab 5; NaN; Lab 2]; [NaN; NaN; NaN]; [Lab 1; Lab 1; Lab 7]])
    as (H & HH & Hlen & _).
  - split; [done|]. repeat constructor.
  - exists H. by split.
Defined.

(** ** The graph-format adapter *)

Lemma elem_of_enumerate {A} (l : list A) (i : nat) (x : A) :
  (i, x) ∈ enumerate l ↔ l !! i = Some x.
Proof.
  unfold enumerate. rewrite list_elem_of_lookup. split.
  - intros [k Hk]. apply lookup_zip_with_Some in Hk as (i' & x' & [= <- <-] & Hi & Hx).
    apply lookup_seq in Hi as [-> _]. done.
  - intros Hx. exists i. apply lookup_zip_with_Some. exists i, x.
    split; [done|]. split; [|done].
    apply lookup_seq. split; [done|]. by apply lookup_lt_Some in Hx.
Qed.

Lemma elem_of_np_nonzero (row : list Z) (c : nat) :
  c ∈ np_nonzero row ↔ ∃ w, row !! c = Some w ∧ w ≠ 0.
Proof.
  unfold np_nonzero. rewrite list_elem_of_fmap. split.
  - intros ([i w] & -> & Hin). apply list_elem_of_filter in Hin as [Hw Hin].
    apply elem_of_enumerate in Hin. by exists w.
  - intros (w & Hc & Hw). exists (c, w). split; [done|].
    apply list_elem_of_filter. split; [done|]. by apply elem_of_enumerate.
Qed.

Lemma sum_list_app (l k : list nat) :
  sum_list (l ++ k) = (sum_list l + sum_list k)%nat.
Proof. induction l as [|x l IH]; simpl; [done|]. rewrite IH. lia. Qed.

Lemma to_pymetis_format_snoc (adj : list (list Z)) (row : list Z) :
  to_pymetis_format (adj ++ [row]) = csr_step (to_pymetis_format adj) row.
Proof. unfold to_pymetis_format. by rewrite foldl_snoc. Qed.

(** The triple in closed form: the offsets are the running totals of the
    numbers of non-zero entries, the two flat sequences are the row-wise
    concatenations. *)
Lemma to_pymetis_format_closed (adj : list (list Z)) :
  to_pymetis_format adj =
    ((λ r, sum_list ((length ∘ np_nonzero) <$> take r adj)) <$> seq 0 (S (length adj)),
     concat (np_nonzero <$> adj),
     concat ((λ row, take_at row (np_nonzero row)) <$> adj)).
Proof.
  induction adj as [|row adj IH] using rev_ind; [done|].
  rewrite to_pymetis_format_snoc, IH. unfold csr_step.
  rewrite !fmap_app, !concat_app. simpl. rewrite !app_nil_r.
  do 3 f_equal.
  rewrite (length_app adj), Nat.add_1_r, seq_S.
  change (list_fmap nat nat) with (@fmap list _ nat nat).
  rewrite fmap_app. simpl. f_equal.
  - apply list_fmap_ext. intros i r Hr. apply lookup_seq in Hr as [-> Hr].
    by rewrite take_app_le by lia.
  - f_equal. rewrite take_ge by (rewrite length_app; simpl; lia).
    rewrite fmap_app, sum_list_app. simpl.
    rewrite !length_app. f_equal; [|lia].
    apply (length_concat_blocks np_nonzero (length ∘ np_nonzero)). done.
Qed.

Lemma length_xadj (adj : list (list Z)) :
  length (to_pymetis_format adj).1.1 = S (length adj).
Proof. rewrite to_pymetis_format_closed. simpl. by rewrite length_map, length_seq. Qed.

(** The adapter keeps exactly the non-zero entries: node [r] has the edge
    to [c] with weight [w] iff entry [(r, c)] is [w] and [w] is not zero. *)
Lemma csr_edge_iff (adj : list (list Z)) (r c : nat) (w : Z) (row : list Z) :
  adj !! r = Some row →
  csr_edge (to_pymetis_format adj) r c w ↔ row !! c = Some w ∧ w ≠ 0.
Proof.
  intros Hr. rewrite to_pymetis_format_closed. unfold csr_edge.
  apply lookup_lt_Some in Hr as Hlt.
  set (a := sum_list ((length ∘ np_nonzero) <$> take r adj)).
  assert (Ha : ∀ xs : list nat, xs = seq 0 (S (length adj)) →
    ((λ r, sum_list ((length ∘ np_nonzero) <$> take r adj)) <$> xs) !! r = Some a).
  { intros xs ->. rewrite list_lookup_fmap, lookup_seq_lt by lia. done. }
  assert (Hb : ∀ xs : list nat, xs = seq 0 (S (length adj)) →
    ((λ r, sum_list ((length ∘ np_nonzero) <$> take r adj)) <$> xs) !! S r
    = Some (a + length (np_nonzero row))%nat).
  { intros xs ->. rewrite list_lookup_fmap, lookup_seq_lt by lia. simpl. f_equal.
    rewrite (take_S_r _ _ row) by done. rewrite fmap_app, sum_list_app. simpl.
    unfold a. lia. }
  assert (Hadj : ∀ k, (k < length (np_nonzero row))%nat →
    concat (np_nonzero <$> adj) !! (a + k)%nat = np_nonzero row !! k).
  { intros k Hk.
    apply (lookup_concat_blocks np_nonzero (length ∘ np_nonzero) adj r row k); done. }
  assert (Hew : ∀ k, (k < length (np_nonzero row))%nat →
    concat ((λ row, take_at row (np_nonzero row)) <$> adj) !! (a + k)%nat
    = take_at row (np_nonzero row) !! k).
  { intros k Hk.
    apply (lookup_concat_blocks (λ row, take_at row (np_nonzero row))
             (length ∘ np_nonzero) adj r row k); [|done|done].
    intros row'. unfold take_at. by rewrite length_fmap. }
  split.
  - intros (a' & b' & p & Ha' & Hb' & Hp & Hc & Hw).
    rewrite Ha in Ha' by done. rewrite Hb in Hb' by done.
    injection Ha' as <-. injection Hb' as <-.
    replace p with (a + (p - a))%nat in Hc, Hw by lia.
    rewrite Hadj in Hc by lia. rewrite Hew in Hw by lia.
    unfold take_at in Hw. rewrite list_lookup_fmap, Hc in Hw. simpl in Hw.
    injection Hw as <-.
    apply list_elem_of_lookup_2, elem_of_np_nonzero in Hc as (w & Hc & Hw).
    by rewrite (list_lookup_total_correct _ _ _ Hc).
  - intros [Hc Hw].
    assert (c ∈ np_nonzero row) as [k Hk]%list_elem_of_lookup_1
      by (apply elem_of_np_nonzero; eauto).
    apply lookup_lt_Some in Hk as Hklt.
    exists a, (a + length (np_nonzero row))%nat, (a + k)%nat.
    split; [by apply Ha|]. split; [by apply Hb|]. split; [lia|].
    rewrite Hadj, Hew by done. split; [done|].
    unfold take_at. rewrite list_lookup_fmap, Hk. simpl.
    by rewrite (list_lookup_total_correct _ _ _ Hc).
Qed.

(** ** The connectivity matrix *)

Lemma label_eqb_sym (x y : label) : label_eqb x y = label_eqb y x.
Proof.
  destruct x as [|a], y as [|b]; simpl; try done.
  apply bool_decide_ext. split; congruence.
Qed.

Lemma label_eqb_refl (x : label) : label_eqb x x = negb (isnan x).
Proof. destruct x; simpl; [done|]. by apply bool_decide_eq_true_2. Qed.

Lemma label_eqb_nan (x : label) :
  label_eqb NaN x = false ∧ label_eqb x NaN = false.
Proof. by destruct x. Qed.

Lemma has_shape_zeros (n k : nat) : has_shape n k (zeros n k).
Proof.
  unfold has_shape, zeros. split; [apply length_replicate|].
  apply Forall_replicate, length_replicate.
Qed.

Lemma has_shape_co_membership (bc : list label) :
  has_shape (length bc) (length bc) (co_membership bc).
Proof.
  unfold has_shape, co_membership. split; [apply length_fmap|].
  apply Forall_fmap, Forall_forall. intros x _. simpl.
  unfold co_row. apply length_fmap.
Qed.

Lemma has_shape_mat_add (n k : nat) (M m : list (list Z)) :
  has_shape n k M → has_shape n k m → has_shape n k (mat_add M m).
Proof.
  intros [HM1 HM2] [Hm1 Hm2]. unfold has_shape, mat_add. split.
  - rewrite length_zip_with. lia.
  - apply Forall_forall. intros row [i Hrow]%list_elem_of_lookup_1.
    apply lookup_zip_with_Some in Hrow as (u & v & -> & Hu & Hv).
    rewrite length_zip_with.
    rewrite Forall_forall in HM2, Hm2.
    rewrite (HM2 u), (Hm2 v) by (by eapply list_elem_of_lookup_2). lia.
Qed.

Lemma at2_mat_add (M m : list (list Z)) (i j : nat) (a b : Z) :
  at2 M i j = Some a → at2 m i j = Some b →
  at2 (mat_add M m) i j = Some (a + b).
Proof.
  unfold at2, mat_add. intros HM Hm. rewrite lookup_zip_with.
  destruct (M !! i) as [u|]; [|done]. destruct (m !! i) as [v|]; [|done].
  simpl in *. rewrite lookup_zip_with, HM, Hm. done.
Qed.

Lemma at2_zeros (n k i j : nat) :
  (i < n)%nat → (j < k)%nat → at2 (zeros n k) i j = Some 0.
Proof.
  intros Hi Hj. unfold at2, zeros. rewrite lookup_replicate_2 by done.
  simpl. by apply lookup_replicate_2.
Qed.

Lemma at2_co_membership (bc : list label) (i j : nat) (x y : label) :
  bc !! i = Some x → bc !! j = Some y →
  at2 (co_membership bc) i j = Some (if label_eqb x y then 1 else 0).
Proof.
  intros Hx Hy. unfold at2, co_membership, co_row.
  rewrite list_lookup_fmap, Hx. simpl. by rewrite list_lookup_fmap, Hy.
Qed.

(** The inner loop rewrites the whole scratch array: nothing of the
    previous run survives in [m]. *)
Lemma fill_m_co_membership (m : list (list Z)) (bc : list label) :
  length m = length bc → fill_m m bc = co_membership bc.
Proof.
  intros Hlen. unfold fill_m, enumerate, co_membership. apply list_eq. intros i.
  rewrite (foldl_rows_lookup _ (λ x _, co_row x bc)).
  - replace (i - 0)%nat with i by lia. rewrite list_lookup_fmap.
    destruct (bc !! i) as [x|] eqn:Hx; simpl.
    + apply lookup_lt_Some in Hx.
      destruct (lookup_lt_is_Some_2 m i) as [row ->]; [lia|done].
    + apply lookup_ge_None in Hx. apply lookup_ge_None. lia.
  - intros h i' x j. simpl. rewrite list_lookup_insert.
    destruct (decide (i' = j)) as [->|Hne].
    + destruct (h !! j) as [row|] eqn:Hrow; simpl.
      * apply lookup_lt_Some in Hrow. by rewrite decide_True.
      * apply lookup_ge_None in Hrow. rewrite decide_False by lia. done.
    + rewrite decide_False by (intros [? _]; done). done.
Qed.

Lemma foldl_ccm_step (N : nat) (bcs : list (list label)) (M m : list (list Z)) :
  Forall (λ bc, length bc = N) bcs → length m = N →
  (foldl ccm_step (M, m) bcs).1 = foldl mat_add M (co_membership <$> bcs).
Proof.
  intros Hall. revert M m. induction Hall as [|bc bcs Hbc Hall IH]; intros M m Hm;
    simpl; [done|].
  unfold ccm_step at 2. simpl.
  rewrite fill_m_co_membership by lia.
  apply IH. destruct (has_shape_co_membership bc) as [-> _]. done.
Qed.

Lemma co_count_cons (bc : list label) (bcs : list (list label)) (i j : nat) :
  co_count (bc :: bcs) i j =
    ((if label_eqb (default NaN (bc !! i)) (default NaN (bc !! j)) then 1 else 0)
     + co_count bcs i j)%nat.
Proof.
  unfold co_count. rewrite filter_cons.
  destruct (decide _) as [Heq|Hne]; simpl.
  - by rewrite Heq.
  - by destruct (label_eqb _ _).
Qed.

Lemma foldl_mat_add_shape (N : nat) (bcs : list (list label)) (M : list (list Z)) :
  Forall (λ bc, length bc = N) bcs → has_shape N N M →
  has_shape N N (foldl mat_add M (co_membership <$> bcs)).
Proof.
  intros Hall. revert M. induction Hall as [|bc bcs Hbc Hall IH]; intros M HM;
    simpl; [done|].
  apply IH, has_shape_mat_add; [done|].
  rewrite <- Hbc. apply has_shape_co_membership.
Qed.

Lemma at2_foldl_mat_add (N : nat) (bcs : list (list label)) (M : list (list Z))
    (i j : nat) (a : Z) :
  Forall (λ bc, length bc = N) bcs → (i < N)%nat → (j < N)%nat →
  at2 M i j = Some a →
  at2 (foldl mat_add M (co_membership <$> bcs)) i j
  = Some (a + Z.of_nat (co_count bcs i j)).
Proof.
  intros Hall Hi Hj. revert M a.
  induction Hall as [|bc bcs Hbc Hall IH]; intros M a HM; simpl.
  - rewrite HM. f_equal. unfold co_count. simpl. lia.
  - destruct (lookup_lt_is_Some_2 bc i) as [x Hx]; [lia|].
    destruct (lookup_lt_is_Some_2 bc j) as [y Hy]; [lia|].
    erewrite IH; [|by eapply at2_mat_add, at2_co_membership].
    f_equal. rewrite co_count_cons, Hx, Hy. simpl.
    destruct (label_eqb x y); lia.
Qed.

Lemma ncols_valid (N : nat) (bcs : list (list label)) :
  valid_bc N bcs → ncols bcs = N.
Proof.
  intros [Hne Hall]. destruct bcs as [|bc bcs]; [done|].
  by apply Forall_cons in Hall as [Hbc _].
Qed.

Lemma at2_fmap {A B} (f : A → B) (a : list (list A)) (i j : nat) :
  at2 ((λ row : list A, f <$> row) <$> a) i j = f <$> at2 a i j.
Proof.
  unfold at2. rewrite list_lookup_fmap. destruct (a !! i) as [row|]; simpl; [|done].
  apply list_lookup_fmap.
Qed.

Lemma has_shape_fmap {A B} (f : A → B) (n k : nat) (a : list (list A)) :
  has_shape n k a → has_shape n k ((λ row : list A, f <$> row) <$> a).
Proof.
  intros [Hn Hk]. split; [by rewrite length_fmap|].
  apply Forall_fmap. eapply Forall_impl; [exact Hk|].
  intros row Hrow. simpl. by rewrite length_fmap.
Qed.

Lemma create_connectivity_matrix_entry (N : nat) (bcs : list (list label))
    (i j : nat) :
  valid_bc N bcs → (i < N)%nat → (j < N)%nat →
  at2 (create_connectivity_matrix bcs) i j
  = Some (np_div (Z.of_nat (co_count bcs i j)) (length bcs)).
Proof.
  intros Hvalid Hi Hj. unfold create_connectivity_matrix.
  rewrite (ncols_valid N bcs Hvalid). destruct Hvalid as [_ Hall].
  rewrite at2_fmap, (foldl_ccm_step N) by (done || apply has_shape_zeros).
  by rewrite (at2_foldl_mat_add N bcs _ i j 0 Hall Hi Hj (at2_zeros N N i j Hi Hj)).
Qed.

Lemma create_connectivity_matrix_shape (N : nat) (bcs : list (list label)) :
  valid_bc N bcs → has_shape N N (create_connectivity_matrix bcs).
Proof.
  intros Hvalid. unfold create_connectivity_matrix.
  rewrite (ncols_valid N bcs Hvalid). destruct Hvalid as [_ Hall].
  apply has_shape_fmap.
  rewrite (foldl_ccm_step N) by (done || apply has_shape_zeros).
  apply foldl_mat_add_shape; [done|apply has_shape_zeros].
Qed.

Lemma Qc_fraction_bounds (a b : Z) :
  0 ≤ a ≤ b → 0 < b → (0 ≤ Qc_of_Z a / Qc_of_Z b ≤ 1)%Qc.
Proof.
  intros [Ha Hab] Hb.
  apply Z2Qc_inj_le in Ha, Hab. apply Z2Qc_inj_lt in Hb.
  rewrite Z2Qc_inj_0 in Ha, Hb. split.
  - apply Qcmult_nonneg_nonneg; [done|]. by apply Qclt_le_weak, Qcinv_pos.
  - apply (Qcmult_le_mono_pos_r _ _ (Qc_of_Z b)); [done|].
    rewrite Qcmult_1_l, Qcmult_comm, Qcmult_div_r; [done|].
    intros Heq. rewrite Heq in Hb. by apply (irreflexivity Qclt 0%Qc).
Qed.

Lemma Qc_fraction_one (a b : Z) :
  0 < b → (Qc_of_Z a / Qc_of_Z b)%Qc = 1%Qc ↔ a = b.
Proof.
  intros Hb. apply Z2Qc_inj_lt in Hb. rewrite Z2Qc_inj_0 in Hb.
  assert (Qc_of_Z b ≠ 0%Qc) as Hne.
  { intros Heq. rewrite Heq in Hb. by apply (irreflexivity Qclt 0%Qc). }
  split.
  - intros Hq. apply Z2Qc_inj.
    rewrite <- (Qcmult_div_r (Qc_of_Z a) (Qc_of_Z b) Hne), Hq. apply Qcmult_1_r.
  - intros ->. by apply Qcmult_inv_r.
Qed.

Lemma length_filter_all {A} (P : A → Prop) `{∀ x, Decision (P x)} (l : list A) :
  length (filter P l) = length l ↔ Forall P l.
Proof.
  induction l as [|x l IH]; [by split|].
  rewrite filter_cons. destruct (decide (P x)) as [HP|HP]; simpl.
  - rewrite Forall_cons. split.
    + intros [= Hlen]. split; [done|]. by apply IH.
    + intros [_ Hall]. f_equal. by apply IH.
  - split.
    + intros Hlen. pose proof (length_filter P l). lia.
    + intros [? _]%Forall_cons. done.
Qed.

Lemma co_count_diag (bcs : list (list label)) (i : nat) :
  co_count bcs i i = labelled_runs bcs i.
Proof.
  unfold co_count, labelled_runs. f_equal. apply list_filter_iff.
  intros bc. rewrite label_eqb_refl. by destruct (isnan _).
Qed.

(** C4. For a base-clustering matrix with R runs the connectivity matrix is
    N x N and symmetric, its entry (i, j) is the number of runs in which
    the labels of i and j are equal divided by R, a number in [0, 1]; the
    equality is the float one, under which a missing label equals nothing,
    not even a missing label. *)
Theorem create_connectivity_matrix_fraction (N : nat) (bcs : list (list label)) :
  valid_bc N bcs →
  let M := create_connectivity_matrix bcs in
  has_shape N N M
  ∧ (∀ i j, (i < N)%nat → (j < N)%nat →
       let q := (Qc_of_Z (Z.of_nat (co_count bcs i j))
                 / Qc_of_Z (Z.of_nat (length bcs)))%Qc in
       at2 M i j = Some (cfin q) ∧ (0 ≤ q ≤ 1)%Qc ∧ at2 M j i = at2 M i j)
  ∧ (∀ x, label_eqb NaN x = false ∧ label_eqb x NaN = false).
Proof.
  intros Hvalid. split; [by apply create_connectivity_matrix_shape|].
  split; [|apply label_eqb_nan].
  intros i j Hi Hj.
  assert (length bcs ≠ 0%nat) as HR.
  { destruct Hvalid as [Hne _]. by destruct bcs. }
  split; [|split].
  - rewrite (create_connectivity_matrix_entry N) by done.
    unfold np_div. by destruct (length bcs).
  - apply Qc_fraction_bounds; [|lia]. split; [lia|].
    unfold co_count. pose proof (length_filter
      (λ bc : list label,
         label_eqb (default NaN (bc !! i)) (default NaN (bc !! j)) = true) bcs).
    lia.
  - rewrite !(create_connectivity_matrix_entry N) by done.
    do 3 f_equal. unfold co_count. f_equal. apply list_filter_iff.
    intros bc. by rewrite label_eqb_sym.
Qed.

Lemma create_connectivity_matrix_fraction_witness :
  has_shape 3 3
    (create_connectivity_matrix [[Lab 0; Lab 0; NaN]; [Lab 2; Lab 1; Lab 1]]).
Proof.
  apply (create_connectivity_matrix_fraction 3
           [[Lab 0; Lab 0; NaN]; [Lab 2; Lab 1; Lab 1]]).
  split; [done|]. repeat constructor.
Defined.

(** C2, as amended. The diagonal entry of object i is the share of the runs
    in which i has a label; it is exactly 1 iff i is missing in no run. *)
Theorem create_connectivity_matrix_diagonal (N : nat) (bcs : list (list label))
    (i : nat) :
  valid_bc N bcs → (i < N)%nat →
  let M := create_connectivity_matrix bcs in
  at2 M i i
  = Some (cfin (Qc_of_Z (Z.of_nat (labelled_runs bcs i))
                / Qc_of_Z (Z.of_nat (length bcs)))%Qc)
  ∧ (at2 M i i = Some (cfin 1%Qc) ↔ ∀ bc, bc ∈ bcs → bc !! i ≠ Some NaN).
Proof.
  intros Hvalid Hi M.
  assert (length bcs ≠ 0%nat) as HR.
  { destruct Hvalid as [Hne _]. by destruct bcs. }
  assert (at2 M i i
          = Some (cfin (Qc_of_Z (Z.of_nat (labelled_runs bcs i))
                        / Qc_of_Z (Z.of_nat (length bcs)))%Qc)) as Hdiag.
  { unfold M. rewrite (create_connectivity_matrix_entry N) by done.
    rewrite co_count_diag. unfold np_div. by destruct (length bcs). }
  split; [done|]. rewrite Hdiag. split.
  - intros Hq.
    apply (f_equal (λ o, match o with Some (cfin q) => q | _ => 0%Qc end)) in Hq.
    simpl in Hq. apply Qc_fraction_one in Hq; [|lia].
    apply Nat2Z.inj in Hq. unfold labelled_runs in Hq.
    apply length_filter_all in Hq. rewrite Forall_forall in Hq.
    intros bc Hbc Hnan. specialize (Hq bc Hbc). simpl in Hq.
    by rewrite Hnan in Hq.
  - intros Hall. do 2 f_equal. apply Qc_fraction_one; [lia|]. f_equal.
    unfold labelled_runs. apply length_filter_all, Forall_forall.
    intros bc Hbc. destruct Hvalid as [_ Hlen]. rewrite Forall_forall in Hlen.
    destruct (lookup_lt_is_Some_2 bc i) as [x Hx]; [rewrite (Hlen bc Hbc); lia|].
    rewrite Hx. simpl. destruct x; [|done]. by destruct (Hall bc Hbc).
Qed.

Lemma create_connectivity_matrix_diagonal_witness :
  at2 (create_connectivity_matrix [[Lab 0; NaN]; [Lab 1; Lab 1]]) 0 0
  = Some (cfin 1%Qc).
Proof.
  apply (create_connectivity_matrix_diagonal 2 [[Lab 0; NaN]; [Lab 1; Lab 1]] 0).
  - split; [done|]. repeat constructor.
  - lia.
  - intros bc Hbc. repeat (apply elem_of_cons in Hbc as [->|Hbc]; [done|]).
    by apply elem_of_nil in Hbc.
Defined.

(** C2, as stated, fails: an object without a label in the only run has
    the diagonal entry 0. *)
Lemma create_connectivity_matrix_diagonal_cex :
  valid_bc 2 [[Lab 0; NaN]]
  ∧ at2 (create_connectivity_matrix [[Lab 0; NaN]]) 1 1 ≠ Some (cfin 1%Qc).
Proof.
  split; [split; [done|repeat constructor]|].
  intros Heq.
  apply (f_equal (λ o, match o with
                       | Some (cfin q) => Qnum (this q)
                       | _ => 0
                       end)) in Heq.
  vm_compute in Heq. discriminate.
Qed.

(** ** CSPA: the co-occurrence matrix *)

Lemma dotZ_app (u1 u2 v1 v2 : list Z) :
  length u1 = length v1 →
  dotZ (u1 ++ u2) (v1 ++ v2) = dotZ u1 v1 + dotZ u2 v2.
Proof.
  unfold dotZ. revert v1. induction u1 as [|a u1 IH]; intros [|b v1] Hlen;
    simpl in *; try done.
  rewrite IH by lia. lia.
Qed.

Lemma dotZ_comm (u v : list Z) : dotZ u v = dotZ v u.
Proof.
  unfold dotZ. revert v. induction u as [|a u IH]; intros [|b v]; simpl; try done.
  rewrite IH. lia.
Qed.

Lemma dotZ_zeros_l (k : nat) (u : list Z) : dotZ (replicate k 0) u = 0.
Proof.
  unfold dotZ. revert u. induction k as [|k IH]; intros [|b u]; simpl; try done.
  by rewrite IH.
Qed.

Lemma dotZ_one_hot (k c : nat) (u : list Z) :
  (c < k)%nat → dotZ (one_hot k c) u = default 0 (u !! c).
Proof.
  unfold one_hot. revert c u. induction k as [|k IH]; intros c u Hc; [lia|].
  destruct u as [|b u]; [by destruct c|].
  destruct c as [|c]; simpl.
  - unfold dotZ. simpl. fold (dotZ (replicate k 0) u). rewrite dotZ_zeros_l. lia.
  - unfold dotZ. simpl. fold (dotZ (<[c:=1]> (replicate k 0)) u).
    rewrite IH by lia. lia.
Qed.

Lemma dotZ_block_rows (bc : list label) (x y : label) :
  x ∈ bc →
  dotZ (block_row_spec bc x) (block_row_spec bc y)
  = if label_eqb x y then 1 else 0.
Proof.
  intros Hx. destruct x as [|v].
  { simpl. apply dotZ_zeros_l. }
  destruct (bc2id_total bc v Hx) as (c & Hid & Hc).
  unfold block_row_spec at 1. rewrite Hid.
  rewrite dotZ_one_hot, block_row_spec_lookup by done. simpl.
  apply local_id_lookup in Hid. rewrite Hid. simpl.
  destruct y as [|v']; simpl; [done|].
  destruct (decide (v = v')) as [->|Hne].
  - by rewrite !bool_decide_eq_true_2.
  - rewrite !bool_decide_eq_false_2; [done|congruence|congruence].
Qed.

Lemma dotZ_binary (u v : list Z) :
  Forall (λ z, z = 0 ∨ z = 1) u → Forall (λ z, z = 0 ∨ z = 1) v →
  dotZ u v = Z.of_nat (both_in u v).
Proof.
  unfold dotZ, both_in. intros Hu. revert v.
  induction Hu as [|a u Ha Hu IH]; intros v Hv; [done|].
  destruct Hv as [|b v Hb Hv]; [done|]. simpl.
  rewrite filter_cons, (IH v Hv).
  destruct (decide _) as [[Ha1 Hb1]|Hn]; simpl in *.
  - subst. lia.
  - destruct Ha as [->| ->], Hb as [->| ->]; lia.
Qed.

Lemma block_row_spec_binary (bc : list label) (x : label) :
  Forall (λ z, z = 0 ∨ z = 1) (block_row_spec bc x).
Proof.
  apply Forall_forall. intros z [c Hc]%list_elem_of_lookup_1.
  apply lookup_lt_Some in Hc as Hlt. rewrite length_block_row_spec in Hlt.
  rewrite block_row_spec_lookup in Hc by done.
  injection Hc as <-. case_bool_decide; auto.
Qed.

Lemma hypergraph_spec_binary (N : nat) (bcs : list (list label)) :
  Forall (Forall (λ z, z = 0 ∨ z = 1)) (hypergraph_spec N bcs).
Proof.
  apply Forall_forall. intros row [i Hrow]%list_elem_of_lookup_1.
  rewrite hypergraph_spec_lookup in Hrow. case_decide; [|done].
  injection Hrow as <-. clear.
  induction bcs as [|bc bcs IH]; simpl; [constructor|].
  apply Forall_app. split; [apply block_row_spec_binary|done].
Qed.

Lemma dotZ_spec_rows (N : nat) (bcs : list (list label)) (i j : nat) :
  Forall (λ bc, length bc = N) bcs → (i < N)%nat → (j < N)%nat →
  dotZ (concat (map (λ bc, block_row_spec bc (default NaN (bc !! i))) bcs))
       (concat (map (λ bc, block_row_spec bc (default NaN (bc !! j))) bcs))
  = Z.of_nat (co_count bcs i j).
Proof.
  intros Hall Hi Hj. induction Hall as [|bc bcs Hbc Hall IH]; simpl; [done|].
  rewrite dotZ_app by (by rewrite !length_block_row_spec).
  rewrite IH, co_count_cons.
  destruct (lookup_lt_is_Some_2 bc i) as [x Hx]; [lia|].
  rewrite Hx. simpl.
  rewrite dotZ_block_rows by (by eapply list_elem_of_lookup_2).
  destruct (label_eqb _ _); lia.
Qed.

Lemma at2_dot_rows (a b : list (list Z)) (i j : nat) (u v : list Z) :
  a !! i = Some u → b !! j = Some v → at2 (dot_rows a b) i j = Some (dotZ u v).
Proof.
  intros Hu Hv. unfold at2, dot_rows. rewrite list_lookup_fmap, Hu. simpl.
  by rewrite list_lookup_fmap, Hv.
Qed.

(** The entries of [H . H^T] count the runs in which two objects share a
    non-missing label. *)
Lemma cspa_similarity_entry (N : nat) (bcs : list (list label)) (i j : nat) :
  Forall (λ bc, length bc = N) bcs → (i < N)%nat → (j < N)%nat →
  at2 (dot_rows (hypergraph_spec N bcs) (hypergraph_spec N bcs)) i j
  = Some (Z.of_nat (co_count bcs i j)).
Proof.
  intros Hall Hi Hj.
  erewrite at2_dot_rows.
  2,3: rewrite hypergraph_spec_lookup; by rewrite decide_True by done.
  f_equal. by apply (dotZ_spec_rows N).
Qed.

(** ** MCLA: the similarity of hyperedges *)

Lemma K_of_nil : K_of [] = 0%nat.
Proof. reflexivity. Qed.

Lemma has_shape_hypergraph_spec (N : nat) (bcs : list (list label)) :
  has_shape N (sum_list (K_of <$> bcs)) (hypergraph_spec N bcs).
Proof.
  split; [apply length_hypergraph_spec|].
  apply Forall_forall. intros row [i Hrow]%list_elem_of_lookup_1.
  rewrite hypergraph_spec_lookup in Hrow. case_decide; [|done].
  injection Hrow as <-.
  apply (length_concat_blocks _ K_of). intros bc. apply length_block_row_spec.
Qed.

Lemma ncols_has_shape {A} (n k : nat) (a : list (list A)) :
  has_shape n k a → (0 < n)%nat → ncols a = k.
Proof.
  intros [Hn Hk] Hpos. destruct a as [|row a]; simpl in *; [lia|].
  by apply Forall_cons in Hk as [Hrow _].
Qed.

Lemma ncols_hypergraph_spec (N : nat) (bcs : list (list label)) :
  Forall (λ bc, length bc = N) bcs →
  ncols (hypergraph_spec N bcs) = sum_list (K_of <$> bcs).
Proof.
  intros Hall. destruct N as [|N].
  - simpl. induction Hall as [|bc bcs Hbc Hall IH]; [done|].
    apply nil_length_inv in Hbc as ->. rewrite fmap_cons. simpl.
    by rewrite <- IH.
  - apply (ncols_has_shape (S N)); [apply has_shape_hypergraph_spec|lia].
Qed.

Lemma ncols_fmap {A B} (f : A → B) (a : list (list A)) :
  ncols ((λ row : list A, f <$> row) <$> a) = ncols a.
Proof. destruct a as [|row a]; simpl; [done|apply length_fmap]. Qed.

Lemma lookup_transpose {A} `{Inhabited A} (k : nat) (a : list (list A)) (c : nat) :
  (c < k)%nat → transpose k a !! c = Some (column a c).
Proof.
  intros Hc. unfold transpose, column.
  by rewrite list_lookup_fmap, lookup_seq_lt.
Qed.

Lemma length_transpose {A} `{Inhabited A} (k : nat) (a : list (list A)) :
  length (transpose k a) = k.
Proof. unfold transpose. by rewrite length_fmap, length_seq. Qed.

Lemma at2_column {A} `{Inhabited A} (n k : nat) (a : list (list A)) (i c : nat) :
  has_shape n k a → (i < n)%nat → (c < k)%nat →
  at2 a i c = column a c !! i.
Proof.
  intros [Hn Hk] Hi Hc. unfold at2, column. rewrite list_lookup_fmap.
  destruct (lookup_lt_is_Some_2 a i) as [row Hrow]; [lia|]. rewrite Hrow. simpl.
  rewrite Forall_forall in Hk.
  apply list_lookup_lookup_total_lt. rewrite (Hk row); [done|].
  by eapply list_elem_of_lookup_2.
Qed.

Lemma at2_mcla_similarity (H : list (list bool)) (a b : nat) :
  (a < ncols H)%nat → (b < ncols H)%nat →
  at2 (mcla_similarity H) a b
  = Some (jaccard_weight (jaccard (column H a) (column H b))).
Proof.
  intros Ha Hb. unfold mcla_similarity, pairwise_distances.
  rewrite at2_fmap. unfold at2.
  rewrite list_lookup_fmap, (lookup_transpose _ _ a) by done. simpl.
  by rewrite list_lookup_fmap, (lookup_transpose _ _ b) by done.
Qed.

Lemma length_mcla_similarity (H : list (list bool)) :
  length (mcla_similarity H) = ncols H.
Proof.
  unfold mcla_similarity, pairwise_distances.
  by rewrite !length_fmap, length_transpose.
Qed.

Lemma count_true_xorb_diag (u : list bool) : count_true (zip_with xorb u u) = 0%nat.
Proof.
  unfold count_true. induction u as [|b u IH]; simpl; [done|].
  rewrite filter_cons, xorb_nilpotent. by rewrite decide_False by done.
Qed.

(** *** Rounding to a double *)

Lemma round_half_even_le (a b K : Z) :
  0 < b → a ≤ K * b → round_half_even a b ≤ K.
Proof.
  intros Hb Ha. unfold round_half_even.
  pose proof (Z.div_mod a b ltac:(lia)) as Hdm.
  pose proof (Z.mod_pos_bound a b Hb) as Hr.
  assert (a / b ≤ K) as Hq by nia.
  destruct (decide (a / b = K)) as [HK|HK].
  - rewrite decide_True by nia. lia.
  - repeat case_decide; try destruct (Z.even (a / b)); lia.
Qed.

Lemma round_half_even_nonneg (a b : Z) :
  0 ≤ a → 0 < b → 0 ≤ round_half_even a b.
Proof.
  intros Ha Hb. unfold round_half_even.
  pose proof (Z.div_pos a b Ha Hb).
  repeat case_decide; try destruct (Z.even (a / b)); lia.
Qed.

Lemma binary_exponent_lower (n d : Z) :
  0 < n → 0 < d →
  d * 2 ^ Z.max 0 (binary_exponent n d)
  ≤ n * 2 ^ Z.max 0 (- binary_exponent n d).
Proof.
  intros Hn Hd. unfold binary_exponent. case_decide as Hdec; [done|].
  clear Hdec.
  destruct (Z.log2_spec n Hn) as [Hn1 Hn2].
  destruct (Z.log2_spec d Hd) as [Hd1 Hd2].
  pose proof (Z.log2_nonneg n) as Hln. pose proof (Z.log2_nonneg d) as Hld.
  set (ln := Z.log2 n) in *. set (ld := Z.log2 d) in *.
  destruct (decide (0 ≤ ln - ld - 1)) as [Hpos|Hneg].
  - rewrite (Z.max_r 0 (ln - ld - 1)), (Z.max_l 0 (- (ln - ld - 1))) by lia.
    rewrite Z.pow_0_r, Z.mul_1_r.
    assert (2 ^ ln = 2 ^ (ld + 1) * 2 ^ (ln - ld - 1)) as Heq.
    { rewrite <- Z.pow_add_r by lia. f_equal. lia. }
    assert (0 < 2 ^ (ln - ld - 1)) by (apply Z.pow_pos_nonneg; lia).
    replace (Z.succ ld) with (ld + 1) in Hd2 by lia. nia.
  - rewrite (Z.max_l 0 (ln - ld - 1)), (Z.max_r 0 (- (ln - ld - 1))) by lia.
    rewrite Z.pow_0_r, Z.mul_1_r.
    assert (2 ^ (ld + 1) = 2 ^ ln * 2 ^ (- (ln - ld - 1))) as Heq.
    { rewrite <- Z.pow_add_r by lia. f_equal. lia. }
    assert (0 < 2 ^ (- (ln - ld - 1))) by (apply Z.pow_pos_nonneg; lia).
    replace (Z.succ ld) with (ld + 1) in Hd2 by lia. nia.
Qed.

Lemma ulp_exponent_nonpos (n d c : Z) :
  0 < n → 0 < d → n ≤ c * d → c < 2 ^ 53 → ulp_exponent n d ≤ 0.
Proof.
  intros Hn Hd Hle Hc. unfold ulp_exponent.
  pose proof (binary_exponent_lower n d Hn Hd) as Hlow.
  destruct (decide (binary_exponent n d ≤ 52)) as [|Hbig]; [lia|].
  exfalso. set (e := binary_exponent n d) in *.
  rewrite (Z.max_r 0 e), (Z.max_l 0 (- e)), Z.pow_0_r, Z.mul_1_r in Hlow by lia.
  assert (2 ^ 53 ≤ 2 ^ e) by (apply Z.pow_le_mono_r; lia).
  nia.
Qed.

Lemma Qcle_Q2Qc_r (x : Qc) (q : Q) : (this x <= q)%Q → (x ≤ Q2Qc q)%Qc.
Proof.
  intros H. unfold Qcle. change (this (Q2Qc q)) with (Qred q).
  eapply Qle_trans; [exact H|]. apply Qle_lteq. right. symmetry.
  apply Qred_correct.
Qed.

Lemma Qcle_Q2Qc_l (x : Qc) (q : Q) : (q <= this x)%Q → (Q2Qc q ≤ x)%Qc.
Proof.
  intros H. unfold Qcle. change (this (Q2Qc q)) with (Qred q).
  eapply Qle_trans; [|exact H]. apply Qle_lteq. right. apply Qred_correct.
Qed.

Lemma Qc_of_Z_le_num (x : Qc) (c : Z) :
  (x ≤ Qc_of_Z c)%Qc ↔ Qnum (this x) ≤ c * Z.pos (Qden (this x)).
Proof. unfold Qcle, Qle. simpl. lia. Qed.

Lemma Qc_nonneg_num (x : Qc) : (0 ≤ x)%Qc ↔ 0 ≤ Qnum (this x).
Proof. unfold Qcle, Qle. simpl. lia. Qed.

Lemma round64_pos_nonneg (n d : Z) : 0 < n → 0 < d → (0 ≤ round64_pos n d)%Qc.
Proof.
  intros Hn Hd. unfold round64_pos. apply Qcle_Q2Qc_r. unfold Qle. simpl.
  pose proof (round_half_even_nonneg
                (n * 2 ^ Z.max 0 (- ulp_exponent n d))
                (d * 2 ^ Z.max 0 (ulp_exponent n d))) as Hm.
  assert (0 < 2 ^ Z.max 0 (- ulp_exponent n d)) by (apply Z.pow_pos_nonneg; lia).
  assert (0 < 2 ^ Z.max 0 (ulp_exponent n d)) by (apply Z.pow_pos_nonneg; lia).
  nia.
Qed.

Lemma round64_nonneg (x : Qc) : (0 ≤ x)%Qc → (0 ≤ round64 x)%Qc.
Proof.
  intros Hx%Qc_nonneg_num. unfold round64.
  case_decide; [done|]. rewrite decide_True by lia.
  apply round64_pos_nonneg; lia.
Qed.

Lemma round64_le_Z (x : Qc) (c : Z) :
  (0 ≤ x)%Qc → (x ≤ Qc_of_Z c)%Qc → 0 ≤ c < 2 ^ 53 →
  (round64 x ≤ Qc_of_Z c)%Qc.
Proof.
  intros Hx%Qc_nonneg_num Hle%Qc_of_Z_le_num Hc. unfold round64.
  case_decide as H0.
  { apply Qc_of_Z_le_num. simpl. lia. }
  rewrite decide_True by lia.
  set (n := Qnum (this x)) in *. set (d := Z.pos (Qden (this x))) in *.
  assert (0 < d) as Hd by (unfold d; lia).
  pose proof (ulp_exponent_nonpos n d c ltac:(lia) Hd Hle ltac:(lia)) as Hp.
  unfold round64_pos. set (p := ulp_exponent n d) in *.
  rewrite (Z.max_l 0 p), (Z.max_r 0 (- p)), Z.pow_0_r, !Z.mul_1_r by lia.
  assert (0 < 2 ^ (- p)) as Hk by (apply Z.pow_pos_nonneg; lia).
  apply Qc_of_Z_le_num. change (this (Q2Qc ?q)) with (Qred q).
  set (m := round_half_even (n * 2 ^ (- p)) d).
  assert (m ≤ (c * 2 ^ (- p))) as Hm
    by (apply round_half_even_le; [done|nia]).
  pose proof (Qred_correct (m # Z.to_pos (2 ^ (- p)))) as Hred.
  unfold Qeq in Hred. simpl in Hred. rewrite Z2Pos.id in Hred by done.
  assert (0 < Z.pos (Qden (Qred (m # Z.to_pos (2 ^ (- p)))))) by lia.
  nia.
Qed.

Lemma round64_0 : round64 0 = 0%Qc.
Proof. reflexivity. Qed.

Lemma round64_1 : round64 1 = 1%Qc.
Proof. apply Qc_is_canon. vm_compute. reflexivity. Qed.

(** The Jaccard distance of a vector to itself is 0. *)
Lemma jaccard_diag (u : list bool) : jaccard u u = 0%Qc.
Proof.
  unfold jaccard. rewrite count_true_xorb_diag.
  destruct (count_true _); [done|].
  change (Z.of_nat 0) with 0. unfold fdiv64.
  rewrite Z2Qc_inj_0. unfold Qcdiv. rewrite Qcmult_0_l. apply round64_0.
Qed.

Lemma jaccard_weight_0 : jaccard_weight 0%Qc = 1000.
Proof. vm_compute. reflexivity. Qed.

(** The rounding shows in the weights: two hyperedges at distance 4/5 get
    the weight 199, the product being the double just below 200. *)
Lemma jaccard_weight_rounded :
  jaccard_weight (jaccard [true; true; true; false; false]
                          [false; false; true; true; true]) = 199.
Proof. vm_compute. reflexivity. Qed.

Section SolverProperties.

Variable part_graph :
  nat → list nat → list nat → option (list Z) → Z * list nat.
Context {rng : Type}.
Variable random_choice : list nat → rng → nat * rng.

(** C5, as amended. CSPA computes S = H . H^T: S[i][j] is the number of
    hyperedges that contain both i and j, S is symmetric, and S[i][i] is
    the number of runs in which i has a label, which is R when i is
    missing in no run.  The adapter turns exactly the non-zero entries
    of S into weighted edges, so a non-zero diagonal entry stays as a
    self-loop, and the membership vector of the partitioner, asked for
    nclass parts, is returned as it is. *)
Theorem cspa_similarity (N : nat) (bcs : list (list label)) (nclass : nat) :
  valid_bc N bcs →
  ∃ H : list (list Z),
    create_hypergraph bcs = Some H
    ∧ let S := dot_rows H H in
      let g := to_pymetis_format S in
      (∀ i j, (i < N)%nat → (j < N)%nat →
         ∃ u v, H !! i = Some u ∧ H !! j = Some v
                ∧ at2 S i j = Some (Z.of_nat (both_in u v))
                ∧ at2 S j i = at2 S i j)
      ∧ (∀ i, (i < N)%nat →
           at2 S i i = Some (Z.of_nat (labelled_runs bcs i)))
      ∧ (∀ i, (i < N)%nat → (∀ bc, bc ∈ bcs → bc !! i ≠ Some NaN) →
           at2 S i i = Some (Z.of_nat (length bcs)))
      ∧ (∀ i j w, at2 S i j = Some w → csr_edge g i j w ↔ w ≠ 0)
      ∧ cspa part_graph bcs nclass
        = Ok (part_graph nclass g.1.1 g.1.2 (Some g.2)).2.
Proof.
  intros Hvalid. exists (hypergraph_spec N bcs).
  pose proof (create_hypergraph_spec N bcs Hvalid) as Hcreate.
  split; [done|]. destruct Hvalid as [Hne Hall]. simpl.
  split; [|split; [|split; [|split]]].
  - intros i j Hi Hj.
    destruct (lookup_lt_is_Some_2 (hypergraph_spec N bcs) i) as [u Hu];
      [by rewrite length_hypergraph_spec|].
    destruct (lookup_lt_is_Some_2 (hypergraph_spec N bcs) j) as [v Hv];
      [by rewrite length_hypergraph_spec|].
    exists u, v. split; [done|]. split; [done|].
    pose proof (hypergraph_spec_binary N bcs) as Hbin.
    rewrite Forall_forall in Hbin. split.
    + rewrite (at2_dot_rows _ _ i j u v) by done. f_equal.
      apply dotZ_binary; apply Hbin; by eapply list_elem_of_lookup_2.
    + rewrite (at2_dot_rows _ _ i j u v), (at2_dot_rows _ _ j i v u) by done.
      f_equal. apply dotZ_comm.
  - intros i Hi. rewrite (cspa_similarity_entry N) by done.
    by rewrite co_count_diag.
  - intros i Hi Hlab. rewrite (cspa_similarity_entry N) by done.
    rewrite co_count_diag. do 2 f_equal.
    unfold labelled_runs. apply length_filter_all, Forall_forall.
    intros bc Hbc. rewrite Forall_forall in Hall.
    destruct (lookup_lt_is_Some_2 bc i) as [x Hx]; [rewrite (Hall bc Hbc); lia|].
    rewrite Hx. simpl. destruct x; [|done]. by destruct (Hlab bc Hbc).
  - intros i j w Hw. unfold at2 in Hw.
    destruct (dot_rows _ _ !! i) as [row|] eqn:Hrow; [|done]. simpl in Hw.
    rewrite (csr_edge_iff _ i j w row Hrow). split; [by intros [_ ?]|by intros ?].
  - unfold cspa. rewrite Hcreate. simpl.
    by destruct (to_pymetis_format _) as [[xadj adjncy] eweights].
Qed.

(** *** MCLA: what is handed to the partitioner *)

Lemma mcla_unfold (N : nat) (bcs : list (list label)) (nclass : nat) (g : rng) :
  valid_bc N bcs →
  let Hb := astype_bool (hypergraph_spec N bcs) in
  let gr := to_pymetis_format (mcla_similarity Hb) in
  mcla part_graph random_choice bcs nclass g
  = mcla_assign random_choice N nclass Hb
      (part_graph nclass gr.1.1 gr.1.2 (Some gr.2)).2 g.
Proof.
  intros Hvalid. unfold mcla.
  rewrite (create_hypergraph_spec N bcs Hvalid), (ncols_valid N bcs Hvalid). simpl.
  by destruct (to_pymetis_format _) as [[xadj adjncy] eweights].
Qed.

Lemma ncols_astype_bool_spec (N : nat) (bcs : list (list label)) :
  Forall (λ bc, length bc = N) bcs →
  ncols (astype_bool (hypergraph_spec N bcs)) = sum_list (K_of <$> bcs).
Proof.
  intros Hall. unfold astype_bool. rewrite ncols_fmap.
  by apply ncols_hypergraph_spec.
Qed.

(** C10. In MCLA every hyperedge keeps its self-similarity as the weight
    1000: the Jaccard distance of a column of H to itself is 0, the weight
    is (1 - 0) * 1000 truncated, and the adapter keeps the non-zero entry,
    so the graph handed to the partitioner has, for every hyperedge, a
    self-loop of weight 1000. *)
Theorem mcla_self_loops (N : nat) (bcs : list (list label)) (nclass : nat) (g : rng) :
  valid_bc N bcs →
  ∃ H : list (list Z),
    create_hypergraph bcs = Some H
    ∧ let Hb := astype_bool H in
      let S := mcla_similarity Hb in
      let gr := to_pymetis_format S in
      mcla part_graph random_choice bcs nclass g
      = mcla_assign random_choice N nclass Hb
          (part_graph nclass gr.1.1 gr.1.2 (Some gr.2)).2 g
      ∧ length S = sum_list (K_of <$> bcs)
      ∧ ∀ c, (c < sum_list (K_of <$> bcs))%nat →
          jaccard (column Hb c) (column Hb c) = 0%Qc
          ∧ jaccard_weight (jaccard (column Hb c) (column Hb c)) = 1000
          ∧ at2 S c c = Some 1000
          ∧ csr_edge gr c c 1000.
Proof.
  intros Hvalid. exists (hypergraph_spec N bcs).
  split; [by apply create_hypergraph_spec|]. simpl.
  split; [by apply mcla_unfold|].
  destruct Hvalid as [_ Hall].
  pose proof (ncols_astype_bool_spec N bcs Hall) as HC.
  split; [by rewrite length_mcla_similarity|].
  intros c Hc. rewrite jaccard_diag. split; [done|]. split; [done|].
  assert (at2 (mcla_similarity (astype_bool (hypergraph_spec N bcs))) c c
          = Some 1000) as Hdiag.
  { rewrite at2_mcla_similarity by lia. by rewrite jaccard_diag. }
  split; [done|]. unfold at2 in Hdiag.
  destruct (mcla_similarity _ !! c) as [row|] eqn:Hrow; [|done].
  apply (csr_edge_iff _ c c 1000 row Hrow). by split.
Qed.

(** *** HBGF: the bipartite graph *)

Lemma lookup_hstack {A} (a b : list (list A)) (i : nat) (u v : list A) :
  a !! i = Some u → b !! i = Some v → hstack a b !! i = Some (u ++ v).
Proof. intros Hu Hv. unfold hstack. by rewrite lookup_zip_with, Hu, Hv. Qed.

Lemma has_shape_hstack {A} (n k1 k2 : nat) (a b : list (list A)) :
  has_shape n k1 a → has_shape n k2 b → has_shape n (k1 + k2) (hstack a b).
Proof.
  intros [Ha1 Ha2] [Hb1 Hb2]. unfold hstack. split.
  - rewrite length_zip_with. lia.
  - apply Forall_forall. intros row [i Hrow]%list_elem_of_lookup_1.
    apply lookup_zip_with_Some in Hrow as (u & v & -> & Hu & Hv).
    rewrite Forall_forall in Ha2, Hb2. rewrite length_app.
    by rewrite (Ha2 u), (Hb2 v) by (by eapply list_elem_of_lookup_2).
Qed.

Lemma has_shape_vstack {A} (n1 n2 k : nat) (a b : list (list A)) :
  has_shape n1 k a → has_shape n2 k b → has_shape (n1 + n2) k (vstack a b).
Proof.
  intros [Ha1 Ha2] [Hb1 Hb2]. unfold vstack. split.
  - rewrite length_app. lia.
  - by apply Forall_app.
Qed.

Lemma has_shape_transpose {A} `{Inhabited A} (n k : nat) (a : list (list A)) :
  length a = n → has_shape k n (transpose k a).
Proof.
  intros Hn. split; [apply length_transpose|].
  unfold transpose. apply Forall_fmap, Forall_forall. intros c _. simpl.
  by rewrite length_fmap.
Qed.

Lemma hbgf_adjacency_shape (N C : nat) (A : list (list Z)) :
  has_shape N C A → ncols A = C →
  has_shape (C + N) (C + N) (hbgf_adjacency A).
Proof.
  intros HA HC. unfold hbgf_adjacency. rewrite HC.
  destruct HA as [HN HAk]. rewrite HN.
  apply has_shape_vstack.
  - apply has_shape_hstack; [apply has_shape_zeros|by apply has_shape_transpose].
  - apply has_shape_hstack; [by split|apply has_shape_zeros].
Qed.

(** The four blocks of the adjacency matrix: the cluster nodes come first,
    then the object nodes; an edge joins an object and a cluster exactly
    when the incidence matrix has a 1 there. *)
Lemma hbgf_adjacency_entry (N C : nat) (A : list (list Z)) (a b : nat) :
  has_shape N C A → ncols A = C → (a < C + N)%nat → (b < C + N)%nat →
  at2 (hbgf_adjacency A) a b =
    if decide (a < C)%nat
    then (if decide (b < C)%nat then Some 0 else at2 A (b - C) a)
    else (if decide (b < C)%nat then at2 A (a - C) b else Some 0).
Proof.
  intros HA HC Ha Hb. unfold hbgf_adjacency. rewrite HC.
  pose proof HA as [HN HAk]. rewrite HN. unfold at2, vstack.
  destruct (decide (a < C)%nat) as [HaC|HaC].
  - rewrite lookup_app_l
      by (rewrite (proj1 (has_shape_hstack C C N _ _ (has_shape_zeros C C)
                            (has_shape_transpose N C A HN))); lia).
    erewrite lookup_hstack;
      [|apply lookup_replicate_2; lia|by apply lookup_transpose].
    simpl. destruct (decide (b < C)%nat) as [HbC|HbC].
    + rewrite lookup_app_l by (rewrite length_replicate; lia).
      by apply lookup_replicate_2.
    + rewrite lookup_app_r by (rewrite length_replicate; lia).
      rewrite length_replicate.
      symmetry. apply (at2_column N C); [done|lia|done].
  - rewrite lookup_app_r
      by (rewrite (proj1 (has_shape_hstack C C N _ _ (has_shape_zeros C C)
                            (has_shape_transpose N C A HN))); lia).
    rewrite (proj1 (has_shape_hstack C C N _ _ (has_shape_zeros C C)
                            (has_shape_transpose N C A HN))).
    destruct (lookup_lt_is_Some_2 A (a - C)) as [row Hrow]; [lia|].
    erewrite lookup_hstack; [|exact Hrow|apply lookup_replicate_2; lia].
    simpl. rewrite Hrow. simpl.
    rewrite Forall_forall in HAk.
    assert (length row = C) as Hlen by (apply HAk; by eapply list_elem_of_lookup_2).
    destruct (decide (b < C)%nat) as [HbC|HbC].
    + by rewrite lookup_app_l by lia.
    + rewrite lookup_app_r by lia. apply lookup_replicate_2. lia.
Qed.

(** C7. HBGF builds the (C+N) x (C+N) bipartite adjacency matrix with zero
    diagonal blocks and H^T, H off the diagonal, hands all C+N nodes to the
    partitioner without edge weights, and returns the membership vector
    without its first C entries: entry i of the output is the part of
    object node C+i, and the output has N entries when the partitioner
    returns one per node. *)
Theorem hbgf_bipartite (N : nat) (bcs : list (list label)) (nclass : nat) :
  valid_bc N bcs →
  ∃ H : list (list Z),
    create_hypergraph bcs = Some H
    ∧ let C := sum_list (K_of <$> bcs) in
      let W := hbgf_adjacency H in
      let gr := to_pymetis_format W in
      let membership := (part_graph nclass gr.1.1 gr.1.2 None).2 in
      has_shape (C + N) (C + N) W
      ∧ (∀ a b, (a < C + N)%nat → (b < C + N)%nat →
           at2 W a b =
             if decide (a < C)%nat
             then (if decide (b < C)%nat then Some 0 else at2 H (b - C) a)
             else (if decide (b < C)%nat then at2 H (a - C) b else Some 0))
      ∧ length gr.1.1 = S (C + N)
      ∧ hbgf part_graph bcs nclass = Ok (drop C membership)
      ∧ (∀ i, drop C membership !! i = membership !! (C + i)%nat)
      ∧ (length membership = (length gr.1.1 - 1)%nat →
         length (drop C membership) = N).
Proof.
  intros Hvalid. exists (hypergraph_spec N bcs).
  split; [by apply create_hypergraph_spec|]. simpl.
  pose proof (create_hypergraph_spec N bcs Hvalid) as Hcreate.
  destruct Hvalid as [_ Hall].
  pose proof (has_shape_hypergraph_spec N bcs) as Hshape.
  pose proof (ncols_hypergraph_spec N bcs Hall) as HC.
  pose proof (hbgf_adjacency_shape _ _ _ Hshape HC) as HW.
  split; [done|]. split; [intros a b; by apply hbgf_adjacency_entry|].
  assert (length (to_pymetis_format (hbgf_adjacency (hypergraph_spec N bcs))).1.1
          = S (sum_list (K_of <$> bcs) + N)) as Hx.
  { rewrite length_xadj. by destruct HW as [-> _]. }
  split; [done|]. split; [|split].
  - unfold hbgf. rewrite Hcreate. simpl. rewrite HC.
    by destruct (to_pymetis_format _) as [[xadj adjncy] eweights].
  - intros i. apply lookup_drop.
  - intros Hlen. rewrite length_drop, Hlen, Hx. lia.
Qed.

(** *** MCLA: the votes and the draw *)

Lemma has_shape_add_column (n k : nat) (meta : list (list Z)) (v : nat)
    (col : list bool) :
  has_shape n k meta → length col = n → has_shape n k (add_column meta v col).
Proof.
  intros [Hn Hk] Hcol. unfold add_column. split.
  - rewrite length_zip_with. lia.
  - apply Forall_forall. intros row [i Hrow]%list_elem_of_lookup_1.
    apply lookup_zip_with_Some in Hrow as (u & b & -> & Hu & Hb).
    rewrite length_insert. rewrite Forall_forall in Hk.
    apply Hk. by eapply list_elem_of_lookup_2.
Qed.

Lemma at2_add_column (n k : nat) (meta : list (list Z)) (v : nat)
    (col : list bool) (i j : nat) (a : Z) (b : bool) :
  has_shape n k meta → (j < k)%nat →
  at2 meta i j = Some a → col !! i = Some b →
  at2 (add_column meta v col) i j
  = Some (if decide (j = v) then a + (if b then 1 else 0) else a).
Proof.
  intros [Hn Hk] Hj Ha Hb. unfold at2, add_column in *.
  rewrite lookup_zip_with, Hb.
  destruct (meta !! i) as [row|] eqn:Hrow; [|done]. simpl in *.
  rewrite Forall_forall in Hk.
  assert (length row = k) as Hlen by (apply Hk; by eapply list_elem_of_lookup_2).
  rewrite list_lookup_insert.
  destruct (decide (j = v)) as [->|Hne].
  - rewrite decide_True by (split; [done|lia]).
    by rewrite (list_lookup_total_correct _ _ _ Ha).
  - by rewrite decide_False by (intros [? _]; done).
Qed.

Lemma length_column {A} `{Inhabited A} (a : list (list A)) (c : nat) :
  length (column a c) = length a.
Proof. unfold column. apply length_fmap. Qed.

(** The vote loop: no index is out of range when the membership vector
    names parts below [nclass] and has no more entries than there are
    hyperedges, and each cell then counts the hyperedges of its
    meta-cluster that contain its object. *)
Lemma foldl_meta_step (N C nclass : nat) (H : list (list bool)) (m : list nat) :
  has_shape N C H → ncols H = C →
  Forall (λ v, v < nclass)%nat m →
  ∀ (s : nat) (meta : list (list Z)),
    (s + length m ≤ C)%nat → has_shape N nclass meta →
    ∃ meta',
      foldl (meta_step nclass H) (Ok meta) (zip (seq s (length m)) m) = Ok meta'
      ∧ has_shape N nclass meta'
      ∧ ∀ i k a, (i < N)%nat → (k < nclass)%nat → at2 meta i k = Some a →
          at2 meta' i k
          = Some (a + Z.of_nat
                        (length (filter (λ cv : nat * nat,
                                           cv.2 = k ∧ at2 H i cv.1 = Some true)
                                        (zip (seq s (length m)) m)))).
Proof.
  intros HH HC Hm. induction Hm as [|v m Hv Hm IH]; intros s meta Hs Hmeta; simpl.
  { exists meta. split; [done|]. split; [done|].
    intros i k a _ _ Ha. rewrite Ha. f_equal. lia. }
  simpl in Hs. rewrite decide_True by (rewrite HC; lia).
  assert (length (column H s) = N) as Hcol
    by (rewrite length_column; by destruct HH).
  destruct (IH (S s) (add_column meta v (column H s))) as (meta' & Hfold & Hshape & Hcells);
    [lia|by apply has_shape_add_column|].
  exists meta'. split; [done|]. split; [done|].
  intros i k a Hi Hk Ha.
  destruct (lookup_lt_is_Some_2 (column H s) i) as [b Hb]; [lia|].
  rewrite (Hcells i k _ Hi Hk
             (at2_add_column N nclass meta v _ i k a b Hmeta Hk Ha Hb)).
  f_equal. rewrite filter_cons. simpl.
  rewrite (at2_column N C H i s HH Hi) by lia. rewrite Hb.
  destruct (decide (k = v)) as [->|Hne].
  - destruct b.
    + rewrite decide_True by done. simpl. lia.
    + rewrite decide_False by (intros [_ ?]; done). lia.
  - rewrite decide_False by (intros [? _]; done). lia.
Qed.

Lemma foldl_max_spec (l : list Z) (x : Z) :
  (foldl Z.max x l = x ∨ foldl Z.max x l ∈ l)
  ∧ x ≤ foldl Z.max x l
  ∧ Forall (λ y, y ≤ foldl Z.max x l) l.
Proof.
  revert x. induction l as [|y l IH]; intros x; simpl.
  { split; [by left|]. split; [lia|constructor]. }
  destruct (IH (Z.max x y)) as (Hin & Hle & Hall).
  split; [|split; [lia|]].
  - destruct Hin as [Heq|Hin]; [|right; by right].
    rewrite Heq. destruct (Z.max_spec x y) as [[_ ->]|[_ ->]];
      [right; left|by left].
  - constructor; [lia|done].
Qed.

Lemma np_max_spec (v : list Z) :
  v ≠ [] → ∃ mx, np_max v = Some mx ∧ mx ∈ v ∧ Forall (λ y, y ≤ mx) v.
Proof.
  destruct v as [|x l]; [done|]. intros _. simpl.
  exists (foldl Z.max x l). split; [done|].
  destruct (foldl_max_spec l x) as (Hin & Hle & Hall). split.
  - destruct Hin as [->|Hin]; [left|by right].
  - by constructor.
Qed.

Lemma elem_of_tied_at (v : list Z) (mx : Z) (k : nat) :
  k ∈ tied_at v mx ↔ v !! k = Some mx.
Proof.
  unfold tied_at. rewrite list_elem_of_fmap. split.
  - intros ([i x] & -> & Hin). apply list_elem_of_filter in Hin as [Hx Hin].
    simpl in *. subst. by apply elem_of_enumerate.
  - intros Hk. exists (k, mx). split; [done|].
    apply list_elem_of_filter. split; [done|]. by apply elem_of_enumerate.
Qed.

Lemma NoDup_tied_at (v : list Z) (mx : Z) : NoDup (tied_at v mx).
Proof.
  unfold tied_at. apply NoDup_fmap_fst.
  - intros i x y [_ Hx%elem_of_enumerate]%list_elem_of_filter
      [_ Hy%elem_of_enumerate]%list_elem_of_filter. congruence.
  - apply NoDup_filter. apply (NoDup_fmap_1 fst).
    unfold enumerate. rewrite fst_zip by (rewrite length_seq; lia).
    apply NoDup_seq.
Qed.

(** The candidates of a non-empty row are exactly the positions of its
    maximum. *)
Lemma elem_of_tied_set (v : list Z) (k : nat) :
  v ≠ [] →
  k ∈ tied_set v ↔ ∃ x, v !! k = Some x ∧ Forall (λ y, y ≤ x) v.
Proof.
  intros Hv. unfold tied_set.
  destruct (np_max_spec v Hv) as (mx & -> & Hin & Hall).
  rewrite elem_of_tied_at. split.
  - intros Hk. by exists mx.
  - intros (x & Hk & Hx). rewrite Hk. f_equal.
    rewrite Forall_forall in Hall, Hx.
    pose proof (Hall x (list_elem_of_lookup_2 _ _ _ Hk)).
    pose proof (Hx mx Hin). lia.
Qed.

Lemma tied_set_nonempty (v : list Z) : v ≠ [] → tied_set v ≠ [].
Proof.
  intros Hv. unfold tied_set.
  destruct (np_max_spec v Hv) as (mx & -> & [k Hk]%list_elem_of_lookup_1 & _).
  apply elem_of_tied_at in Hk. intros Heq. rewrite Heq in Hk.
  by apply elem_of_nil in Hk.
Qed.

Lemma choose_labels_draw (rows : list (list Z)) (g : rng) :
  Forall (λ v, v ≠ []) rows →
  choose_labels random_choice rows g
  = let '(labs, g') := draw random_choice (tied_set <$> rows) g in (Ok labs, g').
Proof.
  intros Hrows. revert g. induction Hrows as [|v rows Hv Hrows IH]; intros g;
    simpl; [done|].
  unfold tied_set at 1.
  destruct (np_max_spec v Hv) as (mx & -> & _).
  destruct (random_choice (tied_at v mx) g) as [lab g1].
  rewrite IH. change (list_fmap (list Z) (list nat) tied_set rows) with (tied_set <$> rows).
  by destruct (draw random_choice (tied_set <$> rows) g1) as [labs g2].
Qed.

Lemma draw_members (cands : list (list nat)) (g : rng) :
  choice_contract random_choice → Forall (λ c, c ≠ []) cands →
  Forall2 (λ lab c, lab ∈ c) (draw random_choice cands g).1 cands.
Proof.
  intros Hchoice Hcands. revert g.
  induction Hcands as [|c cands Hc Hcands IH]; intros g; simpl; [constructor|].
  pose proof (Hchoice c g Hc) as Hin.
  destruct (random_choice c g) as [lab g1]. specialize (IH g1).
  destruct (draw random_choice cands g1) as [labs g2]. simpl in *.
  by constructor.
Qed.

Lemma length_draw (cands : list (list nat)) (g : rng) :
  length (draw random_choice cands g).1 = length cands.
Proof.
  revert g. induction cands as [|c cands IH]; intros g; simpl; [done|].
  destruct (random_choice c g) as [lab g1]. specialize (IH g1).
  destruct (draw random_choice cands g1) as [labs g2]. simpl in *. by rewrite IH.
Qed.

(** The cells of [meta_clusters] after the vote loop, and the outcome of
    [mcla_assign], when the partitioner keeps its contract. *)
Lemma mcla_assign_votes (N C nclass : nat) (H : list (list bool))
    (membership : list nat) (g : rng) :
  has_shape N C H → ncols H = C → (0 < nclass)%nat →
  length membership = C → Forall (λ v, v < nclass)%nat membership →
  ∃ meta : list (list Z),
    has_shape N nclass meta
    ∧ (∀ i k, (i < N)%nat → (k < nclass)%nat →
         at2 meta i k = Some (Z.of_nat (votes H membership i k)))
    ∧ mcla_assign random_choice N nclass H membership g
      = let '(labs, g') := draw random_choice (tied_set <$> meta) g in
        (Ok labs, g').
Proof.
  intros HH HC Hpos Hlen Hm.
  destruct (foldl_meta_step N C nclass H membership HH HC Hm 0 (zeros N nclass))
    as (meta & Hfold & Hshape & Hcells); [lia|apply has_shape_zeros|].
  exists meta. split; [done|]. split.
  - intros i k Hi Hk. rewrite (Hcells i k 0 Hi Hk (at2_zeros N nclass i k Hi Hk)).
    done.
  - unfold mcla_assign, enumerate. rewrite Hfold.
    apply choose_labels_draw. destruct Hshape as [_ Hrows].
    eapply Forall_impl; [exact Hrows|]. intros v Hv ->. simpl in Hv. lia.
Qed.

(** The candidates of object [i]: the meta-clusters with the most votes. *)
Lemma tied_set_votes (N nclass : nat) (meta : list (list Z))
    (vote : nat → nat → nat) (i : nat) (row : list Z) :
  has_shape N nclass meta → (0 < nclass)%nat → (i < N)%nat →
  (∀ k, (k < nclass)%nat → at2 meta i k = Some (Z.of_nat (vote i k))) →
  meta !! i = Some row →
  ∀ k, k ∈ tied_set row ↔
       (k < nclass)%nat ∧ ∀ k', (k' < nclass)%nat → (vote i k' ≤ vote i k)%nat.
Proof.
  intros [_ Hrows] Hpos Hi Hcells Hrow k.
  rewrite Forall_forall in Hrows.
  assert (length row = nclass) as Hlen
    by (apply Hrows; by eapply list_elem_of_lookup_2).
  assert (∀ k, (k < nclass)%nat → row !! k = Some (Z.of_nat (vote i k))) as Hcell.
  { intros k0 Hk0. specialize (Hcells k0 Hk0). unfold at2 in Hcells.
    by rewrite Hrow in Hcells. }
  rewrite elem_of_tied_set by (intros ->; simpl in Hlen; lia). split.
  - intros (x & Hk & Hall). apply lookup_lt_Some in Hk as Hlt.
    split; [lia|]. intros k' Hk'.
    rewrite Hcell in Hk by lia. injection Hk as <-.
    rewrite Forall_forall in Hall.
    specialize (Hall _ (list_elem_of_lookup_2 _ _ _ (Hcell k' Hk'))). lia.
  - intros [Hk Hmax]. exists (Z.of_nat (vote i k)). split; [by apply Hcell|].
    apply Forall_forall. intros y [k' Hy]%list_elem_of_lookup_1.
    apply lookup_lt_Some in Hy as Hlt. rewrite Hcell in Hy by lia.
    injection Hy as <-. specialize (Hmax k'). lia.
Qed.

(** The outcome of MCLA when the collaborators keep their contracts: the
    candidate lists, and the labels drawn from them. *)
Lemma mcla_outcome (N : nat) (bcs : list (list label)) (nclass : nat) (g : rng) :
  valid_bc N bcs → (0 < nclass)%nat →
  partitioner_contract part_graph → choice_contract random_choice →
  let Hb := astype_bool (hypergraph_spec N bcs) in
  let gr := to_pymetis_format (mcla_similarity Hb) in
  let membership := (part_graph nclass gr.1.1 gr.1.2 (Some gr.2)).2 in
  ∃ (cands : list (list nat)) (labs : list nat) (g' : rng),
    length cands = N
    ∧ (∀ i c, cands !! i = Some c →
         NoDup c
         ∧ ∀ k, k ∈ c ↔
             (k < nclass)%nat
             ∧ ∀ k', (k' < nclass)%nat →
                 (votes Hb membership i k' ≤ votes Hb membership i k)%nat)
    ∧ draw random_choice cands g = (labs, g')
    ∧ mcla part_graph random_choice bcs nclass g = (Ok labs, g')
    ∧ length labs = N
    ∧ ∀ i lab, labs !! i = Some lab →
        (lab < nclass)%nat
        ∧ ∀ k', (k' < nclass)%nat →
            (votes Hb membership i k' ≤ votes Hb membership i lab)%nat.
Proof.
  intros Hvalid Hpos Hpart Hchoice. simpl.
  pose proof (mcla_unfold N bcs nclass g Hvalid) as Hmcla. simpl in Hmcla.
  destruct Hvalid as [_ Hall].
  pose proof (ncols_astype_bool_spec N bcs Hall) as HC.
  set (Hb := astype_bool (hypergraph_spec N bcs)) in *.
  set (gr := to_pymetis_format (mcla_similarity Hb)) in *.
  set (membership := (part_graph nclass gr.1.1 gr.1.2 (Some gr.2)).2) in *.
  assert (has_shape N (sum_list (K_of <$> bcs)) Hb) as Hshape
    by apply has_shape_fmap, has_shape_hypergraph_spec.
  destruct (Hpart nclass gr.1.1 gr.1.2 (Some gr.2) Hpos) as [Hlen Hrange].
  fold membership in Hlen, Hrange.
  assert (length membership = sum_list (K_of <$> bcs)) as Hlen'.
  { rewrite Hlen. unfold gr. rewrite length_xadj, length_mcla_similarity. lia. }
  destruct (mcla_assign_votes N _ nclass Hb membership g Hshape HC Hpos Hlen' Hrange)
    as (meta & Hmeta & Hcells & Hassign).
  assert (∀ i c, (tied_set <$> meta) !! i = Some c →
            (i < N)%nat ∧ ∃ row, meta !! i = Some row ∧ c = tied_set row) as Hcand.
  { intros i c Hc. rewrite list_lookup_fmap in Hc.
    destruct (meta !! i) as [row|] eqn:Hrow; [|done]. injection Hc as <-.
    apply lookup_lt_Some in Hrow as Hlt. destruct Hmeta as [HmN _].
    split; [lia|]. by exists row. }
  assert (∀ i c, (tied_set <$> meta) !! i = Some c →
            ∀ k, k ∈ c ↔
              (k < nclass)%nat
              ∧ ∀ k', (k' < nclass)%nat →
                  (votes Hb membership i k' ≤ votes Hb membership i k)%nat) as Htied.
  { intros i c Hc. destruct (Hcand i c Hc) as (Hi & row & Hrow & ->).
    apply (tied_set_votes N nclass meta (votes Hb membership) i row); try done.
    intros k Hk. by apply Hcells. }
  destruct (draw random_choice (tied_set <$> meta) g) as [labs g'] eqn:Hdraw.
  exists (tied_set <$> meta), labs, g'.
  assert (length labs = N) as HlabsN.
  { pose proof (length_draw (tied_set <$> meta) g) as Hl.
    rewrite Hdraw, length_fmap in Hl. simpl in Hl. by destruct Hmeta as [<- _]. }
  split; [rewrite length_fmap; by destruct Hmeta|].
  split.
  { intros i c Hc. split; [|by apply Htied].
    destruct (Hcand i c Hc) as (_ & row & _ & ->). unfold tied_set.
    destruct (np_max row); [apply NoDup_tied_at|constructor]. }
  split; [done|]. split; [by rewrite Hmcla, Hassign|]. split; [done|].
  intros i lab Hlab.
  pose proof (draw_members (tied_set <$> meta) g Hchoice) as Hmem.
  rewrite Hdraw in Hmem. simpl in Hmem.
  assert (Forall (λ c : list nat, c ≠ []) (tied_set <$> meta)) as Hne.
  { apply Forall_fmap. destruct Hmeta as [_ Hrows].
    eapply Forall_impl; [exact Hrows|]. intros v Hv. simpl.
    apply tied_set_nonempty. intros ->. simpl in Hv. lia. }
  specialize (Hmem Hne).
  destruct (Forall2_lookup_l _ _ _ i lab Hmem Hlab) as (c & Hc & Hin).
  by apply (Htied i c Hc).
Qed.


(** C6. MCLA weighs the pair of hyperedges (a, b) by (1 - Jaccard distance
    of the columns a and b of H) * 1000 truncated to an integer, the
    distance, the difference and the product being doubles.  With a
    partitioner and a [choice] that keep their contracts, for every state
    [g] of the random source the label of object i is the draw of
    [choice], in turn, from its candidate list, the candidates are exactly
    the meta-clusters with the maximal number of votes from the hyperedges
    containing i, each listed once, and so the label has maximal votes. *)
Theorem mcla_weights_and_votes (N : nat) (bcs : list (list label))
    (nclass : nat) (g : rng) :
  valid_bc N bcs → (0 < nclass)%nat →
  partitioner_contract part_graph → choice_contract random_choice →
  ∃ H : list (list Z),
    create_hypergraph bcs = Some H
    ∧ let Hb := astype_bool H in
      let C := sum_list (K_of <$> bcs) in
      let S := mcla_similarity Hb in
      let gr := to_pymetis_format S in
      let membership := (part_graph nclass gr.1.1 gr.1.2 (Some gr.2)).2 in
      (∀ a b, (a < C)%nat → (b < C)%nat →
         at2 S a b
         = Some (astype_int
                   (fmul64 (fsub64 1%Qc (jaccard (column Hb a) (column Hb b)))
                           (Qc_of_Z 1000)))
           ∧ jaccard (column Hb a) (column Hb b)
             = match count_true (zip_with orb (column Hb a) (column Hb b)) with
               | O => 0%Qc
               | S _ =>
                   round64
                     (Qc_of_Z (Z.of_nat (count_true
                                 (zip_with xorb (column Hb a) (column Hb b))))
                      / Qc_of_Z (Z.of_nat (count_true
                                   (zip_with orb (column Hb a) (column Hb b)))))
               end)
      ∧ ∃ (cands : list (list nat)) (labs : list nat) (g' : rng),
          length cands = N
          ∧ (∀ i c, cands !! i = Some c →
               NoDup c
               ∧ ∀ k, k ∈ c ↔
                   (k < nclass)%nat
                   ∧ ∀ k', (k' < nclass)%nat →
                       (votes Hb membership i k' ≤ votes Hb membership i k)%nat)
          ∧ draw random_choice cands g = (labs, g')
          ∧ mcla part_graph random_choice bcs nclass g = (Ok labs, g')
          ∧ length labs = N
          ∧ ∀ i lab, labs !! i = Some lab →
              (lab < nclass)%nat
              ∧ ∀ k', (k' < nclass)%nat →
                  (votes Hb membership i k' ≤ votes Hb membership i lab)%nat.
Proof.
  intros Hvalid Hpos Hpart Hchoice. exists (hypergraph_spec N bcs).
  split; [by apply create_hypergraph_spec|]. simpl. split.
  - intros a b Ha Hb. destruct Hvalid as [_ Hall].
    rewrite at2_mcla_similarity by (rewrite (ncols_astype_bool_spec N bcs Hall); lia).
    split; [done|]. unfold jaccard.
    by destruct (count_true (zip_with orb _ _)).
  - by apply mcla_outcome.
Qed.

(** *** NMF: the loop and the labels *)

Lemma for_range_S {St} (n : nat) (body : nat → St → St) (s : St) :
  for_range (S n) body s = body n (for_range n body s).
Proof. unfold for_range. by rewrite seq_S, foldl_snoc. Qed.

Lemma for_range_iter {St} (n : nat) (f : St → St) (s : St) :
  for_range n (λ _, f) s = Nat.iter n f s.
Proof.
  induction n as [|n IH]; [done|]. by rewrite for_range_S, IH.
Qed.

(** A round counter run along the loop ends at [n]. *)
Lemma for_range_count {St} (n : nat) (f : St → St) (s : St) :
  for_range n (λ _ (cs : nat * St), (S cs.1, f cs.2)) (0%nat, s)
  = (n, for_range n (λ _, f) s).
Proof.
  induction n as [|n IH]; [done|]. by rewrite !for_range_S, IH.
Qed.

Section NMFProperties.

Context {F : Type}.
Variables (fzero feps : F) (fadd fmul fdiv : F → F → F) (fsqrt : F → F).
Variable fleb : F → F → bool.
Variable of_cell : cell → F.
Variable random_rand : rng → F * rng.

Lemma length_rand_mat (n k : nat) (g : rng) :
  length (rand_mat random_rand n k g).1 = n.
Proof.
  revert g. induction n as [|n IH]; intros g; simpl; [done|].
  destruct (rand_vec random_rand k g) as [row g1]. specialize (IH g1).
  destruct (rand_mat random_rand n k g1) as [rows g2]. simpl in *. by rewrite IH.
Qed.

Lemma length_fdot (k : nat) (a b : list (list F)) :
  length (fdot fzero fadd fmul k a b) = length a.
Proof. unfold fdot. apply length_fmap. Qed.

Lemma fdot_rows (k : nat) (a b : list (list F)) :
  Forall (λ row, length row = k) (fdot fzero fadd fmul k a b).
Proof.
  unfold fdot. apply Forall_fmap, Forall_forall. intros row _. simpl.
  by rewrite length_fmap, length_seq.
Qed.

Lemma length_fmat_map (f : F → F) (a : list (list F)) :
  length (fmat_map f a) = length a.
Proof. unfold fmat_map. apply length_fmap. Qed.

Lemma length_fmat_zip (op : F → F → F) (a b : list (list F)) :
  length (fmat_zip op a b) = min (length a) (length b).
Proof. unfold fmat_zip. apply length_zip_with. Qed.

(** A round keeps the number of rows of [Q]. *)
Lemma nmf_round_length (W : list (list F)) (nclass : nat)
    (QS : list (list F) * list (list F)) :
  length QS.1 = length W →
  length (nmf_round fzero feps fadd fmul fdiv fsqrt W nclass QS).1 = length W.
Proof.
  destruct QS as [Q S0]. simpl. intros HQ.
  rewrite length_fmat_zip, length_fmat_map, length_fmat_zip, length_fmat_map,
    !length_fdot. lia.
Qed.

Lemma orthogonal_nmf_algorithm_iter (W : list (list F)) (nclass maxiter : nat)
    (g : rng) :
  orthogonal_nmf_algorithm fzero feps fadd fmul fdiv fsqrt random_rand
    W nclass maxiter g
  = let '(QS0, g') :=
      orthogonal_nmf_algorithm fzero feps fadd fmul fdiv fsqrt random_rand
        W nclass 0 g in
    (Nat.iter maxiter (nmf_round fzero feps fadd fmul fdiv fsqrt W nclass) QS0, g').
Proof.
  unfold orthogonal_nmf_algorithm.
  destruct (rand_mat random_rand (length W) nclass g) as [Q g1].
  destruct (rand_vec random_rand nclass g1) as [d g2].
  by rewrite for_range_iter.
Qed.

Lemma orthogonal_nmf_algorithm_length (W : list (list F)) (nclass maxiter : nat)
    (g : rng) :
  length (orthogonal_nmf_algorithm fzero feps fadd fmul fdiv fsqrt random_rand
            W nclass maxiter g).1.1 = length W.
Proof.
  rewrite orthogonal_nmf_algorithm_iter. unfold orthogonal_nmf_algorithm.
  pose proof (length_rand_mat (length W) nclass g) as HQ.
  destruct (rand_mat random_rand (length W) nclass g) as [Q g1].
  destruct (rand_vec random_rand nclass g1) as [d g2]. simpl in *.
  induction maxiter as [|n IH]; simpl; [done|]. by apply nmf_round_length.
Qed.

Lemma argmax_from_bound (mp : F) (max_ind i : nat) (l : list F) :
  (max_ind < i)%nat → (argmax_from fleb mp max_ind i l < i + length l)%nat.
Proof.
  revert mp max_ind i. induction l as [|x l IH]; intros mp max_ind i Hlt; simpl;
    [lia|].
  destruct (negb (fleb x mp)).
  - destruct (fisnan fleb x); [lia|]. specialize (IH x i (S i)). lia.
  - specialize (IH mp max_ind (S i)). lia.
Qed.

Lemma np_argmax_bound (row : list F) (k : nat) :
  np_argmax fleb row = Some k → (k < length row)%nat.
Proof.
  destruct row as [|x l]; simpl; [done|]. intros [= <-].
  destruct (fisnan fleb x); [lia|].
  pose proof (argmax_from_bound x 0 1 l). lia.
Qed.

(** The labels read off any pair of factors are in range. *)
Lemma nmf_labels_valid (nclass : nat) (QS : list (list F) * list (list F)) :
  (0 < nclass)%nat →
  valid_labels (length QS.1) nclass (nmf_labels fzero fadd fmul fsqrt fleb nclass QS).
Proof.
  intros Hpos. unfold nmf_labels, argmax_axis1.
  destruct nclass as [|k]; [lia|]. eexists. split; [done|].
  split; [by rewrite length_fmap, length_fdot|].
  apply Forall_fmap, Forall_forall. intros row Hrow. simpl.
  pose proof (fdot_rows (S k) QS.1 (fmat_map fsqrt QS.2)) as Hrows.
  rewrite Forall_forall in Hrows. specialize (Hrows row Hrow).
  destruct (np_argmax fleb row) as [j|] eqn:Hj; simpl; [|lia].
  apply np_argmax_bound in Hj. lia.
Qed.

Lemma fisnan_false (x : F) : fisnan fleb x = false ↔ fleb x x = true.
Proof. unfold fisnan. by destruct (fleb x x). Qed.

(** The scan of [argmax]: [pre] is the part of the row already seen, free
    of NaN, with its first maximum [mp] at [max_ind]. *)
Lemma argmax_from_spec (l pre : list F) (mp : F) (max_ind : nat) :
  fleb_order fleb →
  pre !! max_ind = Some mp →
  (∀ j y, pre !! j = Some y → fleb y mp = true) →
  (∀ j y, pre !! j = Some y → (j < max_ind)%nat → fleb mp y = false) →
  let k := argmax_from fleb mp max_ind (length pre) l in
  (Forall (λ y, fleb y y = true) l → first_max fleb (pre ++ l) k)
  ∧ (Exists (λ y, fleb y y = false) l → first_nan fleb (pre ++ l) k).
Proof.
  intros Hord. pose proof Hord as (Htrans & Htotal & Hnan).
  revert pre mp max_ind.
  induction l as [|x l IH]; intros pre mp max_ind Hmp Hle Hlt; simpl.
  { rewrite app_nil_r. split.
    - intros _. by exists mp.
    - intros Hex. by apply Exists_nil in Hex. }
  assert (∀ j y, pre !! j = Some y → fleb y y = true) as Hpre_ok.
  { intros j y Hy. by destruct (Hnan _ _ (Hle j y Hy)). }
  destruct (fleb x mp) eqn:Hx; simpl.
  - (* x does not exceed the maximum so far *)
    destruct (Hnan _ _ Hx) as [Hxx _].
    destruct (IH (pre ++ [x]) mp max_ind) as [IH1 IH2].
    + by rewrite lookup_app_l by (by apply lookup_lt_Some in Hmp).
    + intros j y Hy. apply lookup_app_Some in Hy as [Hy|[_ Hy]]; [by eapply Hle|].
      apply list_lookup_singleton_Some in Hy as [_ <-]. done.
    + intros j y Hy Hj. apply lookup_lt_Some in Hmp as Hmi.
      rewrite lookup_app_l in Hy by lia. by eapply Hlt.
    + rewrite length_app, Nat.add_1_r, <- app_assoc in IH1, IH2. simpl in *.
      split.
      * intros Hall. apply Forall_cons in Hall as [_ Hall]. by apply IH1.
      * intros Hex. apply Exists_cons in Hex as [Hex|Hex]; [congruence|].
        by apply IH2.
  - destruct (fisnan fleb x) eqn:Hnx.
    + (* the first NaN ends the scan *)
      assert (fleb x x = false) as Hxx.
      { unfold fisnan in Hnx. by destruct (fleb x x). }
      split.
      * intros Hall. apply Forall_cons in Hall as [Hxt _]. congruence.
      * intros _. exists x. split; [by rewrite list_lookup_middle|].
        split; [done|]. intros j y Hy Hj.
        rewrite lookup_app_l in Hy by done. by eapply Hpre_ok.
    + (* a new maximum *)
      apply fisnan_false in Hnx.
      assert (fleb mp x = true) as Hmx.
      { destruct (Htotal mp x) as [?|?]; try done; [|congruence].
        by destruct (Hnan _ _ (Hle _ _ Hmp)). }
      destruct (IH (pre ++ [x]) x (length pre)) as [IH1 IH2].
      * by rewrite list_lookup_middle.
      * intros j y Hy. apply lookup_app_Some in Hy as [Hy|[_ Hy]].
        -- eapply Htrans; [by eapply Hle|done].
        -- apply list_lookup_singleton_Some in Hy as [_ <-]. done.
      * intros j y Hy Hj. rewrite lookup_app_l in Hy by done.
        destruct (fleb x y) eqn:Hxy; [|done].
        rewrite (Htrans x y mp Hxy (Hle j y Hy)) in Hx. done.
      * rewrite length_app, Nat.add_1_r, <- app_assoc in IH1, IH2. simpl in *.
        split.
        -- intros Hall. apply Forall_cons in Hall as [_ Hall]. by apply IH1.
        -- intros Hex. apply Exists_cons in Hex as [Hex|Hex]; [congruence|].
           by apply IH2.
Qed.

(** [np.argmax] of a row: the first position of its maximum when the row
    has no NaN, the position of its first NaN otherwise. *)
Lemma np_argmax_spec (row : list F) (k : nat) :
  fleb_order fleb → np_argmax fleb row = Some k →
  (Forall (λ y, fleb y y = true) row → first_max fleb row k)
  ∧ (Exists (λ y, fleb y y = false) row → first_nan fleb row k).
Proof.
  intros Hord. destruct row as [|x l]; [done|]. simpl. intros [= <-].
  destruct (fisnan fleb x) eqn:Hnx.
  - assert (fleb x x = false) as Hxx.
    { unfold fisnan in Hnx. by destruct (fleb x x). }
    split.
    + intros Hall. apply Forall_cons in Hall as [Hxt _]. congruence.
    + intros _. exists x. split; [done|]. split; [done|]. intros j y _ Hj. lia.
  - apply fisnan_false in Hnx.
    destruct (argmax_from_spec l [x] x 0 Hord) as [H1 H2]; try done.
    + intros [|j] y Hy; simpl in Hy; [by injection Hy as <-|done].
    + intros j y _ Hj. lia.
    + simpl in *. split.
      * intros Hall. apply Forall_cons in Hall as [_ Hall]. by apply H1.
      * intros Hex. apply Exists_cons in Hex as [Hex|Hex]; [congruence|].
        by apply H2.
Qed.

Local Abbreviation ona :=
  (orthogonal_nmf_algorithm fzero feps fadd fmul fdiv fsqrt random_rand).
Local Abbreviation round := (nmf_round fzero feps fadd fmul fdiv fsqrt).
Local Abbreviation labels_of := (nmf_labels fzero fadd fmul fsqrt fleb).
Local Abbreviation nmf' :=
  (nmf fzero feps fadd fmul fdiv fsqrt fleb of_cell random_rand).

Lemma nmf_unfold (bcs : list (list label)) (nclass : nat) (g : rng) :
  nmf' bcs nclass g
  = (labels_of nclass
       (ona ((λ row : list cell, of_cell <$> row) <$> create_connectivity_matrix bcs)
            nclass default_maxiter g).1,
     (ona ((λ row : list cell, of_cell <$> row) <$> create_connectivity_matrix bcs)
          nclass default_maxiter g).2).
Proof. unfold nmf. by destruct (orthogonal_nmf_algorithm _ _ _ _ _ _ _ _ _ _ _). Qed.

Lemma length_nmf_input (N : nat) (bcs : list (list label)) :
  valid_bc N bcs →
  length ((λ row : list cell, of_cell <$> row) <$> create_connectivity_matrix bcs)
  = N.
Proof.
  intros Hvalid. rewrite length_fmap.
  by destruct (create_connectivity_matrix_shape N bcs Hvalid).
Qed.

(** C8. [orthogonal_nmf_algorithm] applies the update round exactly
    [maxiter] times to the random initialisation, whatever the values (a
    round counter run along ends at [maxiter]; the default is 500), and
    [nmf] gives object i the result of [argmax] on row i of Q . sqrt(S):
    the first position of the row's maximum (of its first NaN, if it has
    one).  With [maxiter = 0] the factors are the untouched random draws
    and the labels read off them are N values in [0, nclass). *)
Theorem nmf_rounds_and_labels (N : nat) (bcs : list (list label))
    (nclass maxiter : nat) (g : rng) :
  valid_bc N bcs → (0 < nclass)%nat → fleb_order fleb →
  let W := (λ row : list cell, of_cell <$> row) <$> create_connectivity_matrix bcs in
  let QS0 := (ona W nclass 0 g).1 in
  (ona W nclass maxiter g = (Nat.iter maxiter (round W nclass) QS0, (ona W nclass 0 g).2)
   ∧ ona W nclass (S maxiter) g
     = (round W nclass (ona W nclass maxiter g).1, (ona W nclass maxiter g).2)
   ∧ for_range maxiter (λ _ (cs : nat * _), (S cs.1, round W nclass cs.2)) (0%nat, QS0)
     = (maxiter, (ona W nclass maxiter g).1)
   ∧ default_maxiter = 500%nat)
  ∧ (let QS := (ona W nclass default_maxiter g).1 in
     (nmf' bcs nclass g).1 = labels_of nclass QS
     ∧ ∃ labs, labels_of nclass QS = Ok labs
         ∧ length labs = N
         ∧ ∀ i lab, labs !! i = Some lab →
             ∃ row, fdot fzero fadd fmul nclass QS.1 (fmat_map fsqrt QS.2) !! i
                    = Some row
                    ∧ (Forall (λ y, fleb y y = true) row → first_max fleb row lab)
                    ∧ (Exists (λ y, fleb y y = false) row → first_nan fleb row lab))
  ∧ (QS0 = ((rand_mat random_rand N nclass g).1,
            np_diag fzero
              (rand_vec random_rand nclass (rand_mat random_rand N nclass g).2).1)
     ∧ valid_labels N nclass (labels_of nclass QS0)).
Proof.
  intros Hvalid Hpos Hord W QS0.
  pose proof (length_nmf_input N bcs Hvalid) as HW. fold W in HW.
  split; [|split].
  - assert (∀ n, ona W nclass n g
                 = (Nat.iter n (round W nclass) QS0, (ona W nclass 0 g).2)) as Hiter.
    { intros n. rewrite orthogonal_nmf_algorithm_iter. unfold QS0.
      by destruct (ona W nclass 0 g). }
    split; [apply Hiter|].
    split; [by rewrite (Hiter (S maxiter)), (Hiter maxiter)|]. split; [|done].
    rewrite for_range_count, (Hiter maxiter). simpl. by rewrite for_range_iter.
  - simpl. split; [by rewrite nmf_unfold|].
    set (QS := (ona W nclass default_maxiter g).1).
    unfold nmf_labels, argmax_axis1. destruct nclass as [|k]; [lia|].
    eexists. split; [done|]. split.
    + rewrite length_fmap, length_fdot. unfold QS.
      by rewrite orthogonal_nmf_algorithm_length.
    + intros i lab Hlab. rewrite list_lookup_fmap in Hlab.
      destruct (fdot fzero fadd fmul (S k) QS.1 (fmat_map fsqrt QS.2) !! i)
        as [row|] eqn:Hrow; [|done].
      exists row. split; [done|]. simpl in Hlab. injection Hlab as <-.
      pose proof (fdot_rows (S k) QS.1 (fmat_map fsqrt QS.2)) as Hrows.
      rewrite Forall_forall in Hrows.
      specialize (Hrows row (list_elem_of_lookup_2 _ _ _ Hrow)).
      destruct (np_argmax fleb row) as [j|] eqn:Hj.
      * simpl. by apply np_argmax_spec.
      * destruct row; [simpl in Hrows; lia|done].
  - split.
    + unfold QS0, orthogonal_nmf_algorithm. rewrite HW.
      destruct (rand_mat random_rand N nclass g) as [Q g1]. simpl.
      by destruct (rand_vec random_rand nclass g1) as [d g2].
    + pose proof (nmf_labels_valid nclass QS0 Hpos) as Hlabels.
      unfold QS0 in Hlabels at 1.
      by rewrite orthogonal_nmf_algorithm_length, HW in Hlabels.
Qed.

(** *** Every solver returns N labels below nclass *)

Lemma length_dot_rows (a b : list (list Z)) : length (dot_rows a b) = length a.
Proof. unfold dot_rows. apply length_fmap. Qed.

Lemma cspa_valid_labels (N : nat) (bcs : list (list label)) (nclass : nat) :
  valid_bc N bcs → (0 < nclass)%nat → partitioner_contract part_graph →
  valid_labels N nclass (cspa part_graph bcs nclass).
Proof.
  intros Hvalid Hpos Hpart. unfold cspa.
  rewrite (create_hypergraph_spec N bcs Hvalid). simpl.
  pose proof (length_xadj (dot_rows (hypergraph_spec N bcs) (hypergraph_spec N bcs)))
    as Hx.
  destruct (to_pymetis_format _) as [[xadj adjncy] eweights]. simpl in Hx.
  destruct (Hpart nclass xadj adjncy (Some eweights) Hpos) as [Hlen Hrange].
  eexists. split; [done|]. split; [|done].
  rewrite Hlen, Hx, length_dot_rows, length_hypergraph_spec. lia.
Qed.

Lemma mcla_valid_labels (N : nat) (bcs : list (list label)) (nclass : nat) (g : rng) :
  valid_bc N bcs → (0 < nclass)%nat →
  partitioner_contract part_graph → choice_contract random_choice →
  valid_labels N nclass (mcla part_graph random_choice bcs nclass g).1.
Proof.
  intros Hvalid Hpos Hpart Hchoice.
  destruct (mcla_outcome N bcs nclass g Hvalid Hpos Hpart Hchoice)
    as (cands & labs & g' & _ & _ & _ & -> & Hlen & Hlabs).
  exists labs. split; [done|]. split; [done|].
  apply Forall_forall. intros lab [i Hi]%list_elem_of_lookup_1.
  by destruct (Hlabs i lab Hi).
Qed.

Lemma hbgf_valid_labels (N : nat) (bcs : list (list label)) (nclass : nat) :
  valid_bc N bcs → (0 < nclass)%nat → partitioner_contract part_graph →
  valid_labels N nclass (hbgf part_graph bcs nclass).
Proof.
  intros Hvalid Hpos Hpart. unfold hbgf.
  rewrite (create_hypergraph_spec N bcs Hvalid). simpl.
  destruct Hvalid as [_ Hall].
  pose proof (has_shape_hypergraph_spec N bcs) as Hshape.
  pose proof (ncols_hypergraph_spec N bcs Hall) as HC.
  pose proof (hbgf_adjacency_shape _ _ _ Hshape HC) as [HW _].
  pose proof (length_xadj (hbgf_adjacency (hypergraph_spec N bcs))) as Hx.
  destruct (to_pymetis_format _) as [[xadj adjncy] eweights]. simpl in Hx.
  destruct (Hpart nclass xadj adjncy None Hpos) as [Hlen Hrange].
  eexists. split; [done|]. split.
  - rewrite length_drop, Hlen, Hx, HW, HC. lia.
  - by apply Forall_drop.
Qed.

Lemma nmf_valid_labels (N : nat) (bcs : list (list label)) (nclass : nat) (g : rng) :
  valid_bc N bcs → (0 < nclass)%nat →
  valid_labels N nclass (nmf' bcs nclass g).1.
Proof.
  intros Hvalid Hpos. rewrite nmf_unfold. simpl.
  pose proof (nmf_labels_valid nclass
    (ona ((λ row : list cell, of_cell <$> row) <$> create_connectivity_matrix bcs)
         nclass default_maxiter g).1 Hpos) as Hlabels.
  by rewrite orthogonal_nmf_algorithm_length, (length_nmf_input N bcs Hvalid)
    in Hlabels.
Qed.

Local Abbreviation ce :=
  (cluster_ensembles part_graph random_choice fzero feps fadd fmul fdiv fsqrt
     fleb of_cell random_rand).

(** The dispatch of the orchestrator on a positive class count. *)
Lemma cluster_ensembles_positive (bcs : list (list label)) (z : Z)
    (solver : string) (verbose : bool) (g : rng) :
  0 < z →
  ce bcs (PyInt z) solver verbose g =
    (if verbose then verbose_lines bcs (PyInt z) solver else [],
     if decide (solver = "cspa") then (cspa part_graph bcs (Z.to_nat z), g)
     else if decide (solver = "mcla")
          then mcla part_graph random_choice bcs (Z.to_nat z) g
     else if decide (solver = "hbgf") then (hbgf part_graph bcs (Z.to_nat z), g)
     else if decide (solver = "nmf") then nmf' bcs (Z.to_nat z) g
     else (Raise (solver_error solver), g)).
Proof.
  intros Hz. unfold cluster_ensembles. rewrite decide_True by done.
  repeat case_decide; done.
Qed.

(** C1. For a valid base-clustering matrix of shape (R, N), R >= 1, and a
    positive class count, CSPA, MCLA, HBGF, NMF and [cluster_ensembles]
    (with any of the four solver names) return N labels, each in
    [0, nclass), when the partitioner returns one part in [0, nclass) per
    node and [choice] returns one of its candidates. *)
Theorem solvers_valid_labels (N : nat) (bcs : list (list label)) (nclass : nat)
    (g : rng) :
  valid_bc N bcs → (0 < nclass)%nat →
  partitioner_contract part_graph → choice_contract random_choice →
  valid_labels N nclass (cspa part_graph bcs nclass)
  ∧ valid_labels N nclass (mcla part_graph random_choice bcs nclass g).1
  ∧ valid_labels N nclass (hbgf part_graph bcs nclass)
  ∧ valid_labels N nclass (nmf' bcs nclass g).1
  ∧ ∀ solver verbose,
      solver ∈ ["cspa"; "mcla"; "hbgf"; "nmf"] →
      valid_labels N nclass
        (ce bcs (PyInt (Z.of_nat nclass)) solver verbose g).2.1.
Proof.
  intros Hvalid Hpos Hpart Hchoice.
  pose proof (cspa_valid_labels N bcs nclass Hvalid Hpos Hpart) as Hcspa.
  pose proof (mcla_valid_labels N bcs nclass g Hvalid Hpos Hpart Hchoice) as Hmcla.
  pose proof (hbgf_valid_labels N bcs nclass Hvalid Hpos Hpart) as Hhbgf.
  pose proof (nmf_valid_labels N bcs nclass g Hvalid Hpos) as Hnmf.
  repeat (split; [done|]).
  intros solver verbose Hsolver.
  rewrite cluster_ensembles_positive by lia. rewrite Nat2Z.id. simpl.
  repeat (apply elem_of_cons in Hsolver as [->|Hsolver]; [done|]).
  by apply elem_of_nil in Hsolver.
Qed.

(** *** The orchestrator *)

Lemma foldl_default_nclass (bcs : list (list label)) (a : Z) :
  0 ≤ a →
  foldl (λ nclass bc,
           let len_unique_bc := length (np_unique (non_missing bc)) in
           Z.max nclass (Z.of_nat len_unique_bc)) a bcs
  = Z.max a (Z.of_nat (max_list (K_of <$> bcs))).
Proof.
  revert a. induction bcs as [|bc bcs IH]; intros a Ha; simpl; [lia|].
  rewrite IH by lia.
  change (list_fmap (list label) nat K_of bcs) with (K_of <$> bcs).
  unfold K_of at 2. lia.
Qed.

(** With at least one run the default class count is the largest number
    of distinct non-missing labels of a run. *)
Lemma default_nclass_max (bcs : list (list label)) :
  bcs ≠ [] → default_nclass bcs = Z.of_nat (max_list (K_of <$> bcs)).
Proof.
  destruct bcs as [|bc bcs]; [done|]. intros _. unfold default_nclass. simpl.
  rewrite foldl_default_nclass by lia.
  change (list_fmap (list label) nat K_of bcs) with (K_of <$> bcs).
  unfold K_of at 2. lia.
Qed.

Lemma string_app_assoc (a b c : string) : (a +:+ b) +:+ c = a +:+ (b +:+ c).
Proof.
  induction a as [|x a IH]; [done|].
  change ((String x a +:+ b) +:+ c) with (String x ((a +:+ b) +:+ c)).
  change (String x a +:+ (b +:+ c)) with (String x (a +:+ (b +:+ c))).
  by rewrite IH.
Qed.
Lemma string_app_inj_l (a b c : string) : a +:+ b = a +:+ c → b = c.
Proof.
  induction a as [|x a IH]; [done|].
  change (String x a +:+ b) with (String x (a +:+ b)).
  change (String x a +:+ c) with (String x (a +:+ c)).
  intros [= Heq]. by apply IH.
Qed.
Lemma string_length_app (a b : string) :
  String.length (a +:+ b) = (String.length a + String.length b)%nat.
Proof.
  induction a as [|x a IH]; [done|].
  change (String x a +:+ b) with (String x (a +:+ b)). simpl. by rewrite IH.
Qed.
Lemma string_app_inj_r (a b c : string) : a +:+ c = b +:+ c → a = b.
Proof.
  intros Heq.
  assert (String.length a = String.length b) as Hlen.
  { apply (f_equal String.length) in Heq.
    rewrite !string_length_app in Heq. lia. }
  revert b Heq Hlen. induction a as [|x a IH]; intros [|y b] Heq Hlen;
    simpl in Hlen; try done.
  change (String x a +:+ c = String y b +:+ c) with
    (String x (a +:+ c) = String y (b +:+ c)) in Heq.
  injection Heq as -> Heq. f_equal. apply IH; [done|lia].
Qed.

(** The message of the class-count error tells the offending integer. *)
Lemma nclass_error_inj (a b : Z) :
  nclass_error (PyInt a) = nclass_error (PyInt b) → a = b.
Proof.
  unfold nclass_error. simpl. intros [= Heq].
  apply string_app_inj_l, string_app_inj_r in Heq. by apply (inj pretty) in Heq.
Qed.

(** The message of the solver error ends with the accepted names. *)
Lemma solver_error_names (solver : string) :
  solver_error solver
  = ValueError (("Invalid solver parameter: got '" +:+ solver
                 +:+ "' instead of one of ")
                +:+ "('cspa', 'mcla', 'hbgf', 'nmf')").
Proof. unfold solver_error. by rewrite !string_app_assoc. Qed.

Lemma foldl_meta_step_Raise (nclass : nat) (H : list (list bool)) (e : exn)
    (l : list (nat * nat)) :
  foldl (meta_step nclass H) (Raise e) l = Raise e.
Proof. induction l as [|iv l IH]; simpl; [done|apply IH]. Qed.

(** The vote loop ends with an array of the same shape or with an
    [IndexError]. *)
Lemma foldl_meta_step_shape (N nclass : nat) (H : list (list bool))
    (l : list (nat * nat)) (meta : list (list Z)) :
  length H = N → has_shape N nclass meta →
  match foldl (meta_step nclass H) (Ok meta) l with
  | Ok meta' => has_shape N nclass meta'
  | Raise e => e = IndexError
  end.
Proof.
  intros HH. revert meta. induction l as [|iv l IH]; intros meta Hmeta; simpl;
    [done|].
  case_decide.
  - apply IH, has_shape_add_column; [done|]. by rewrite length_column.
  - by rewrite foldl_meta_step_Raise.
Qed.

(** With a positive class count no solver raises a [ValueError]. *)
Lemma solvers_no_ValueError (N : nat) (bcs : list (list label)) (k : nat)
    (g : rng) (msg : string) :
  Forall (λ bc, length bc = N) bcs → (0 < k)%nat →
  cspa part_graph bcs k ≠ Raise (ValueError msg)
  ∧ (mcla part_graph random_choice bcs k g).1 ≠ Raise (ValueError msg)
  ∧ hbgf part_graph bcs k ≠ Raise (ValueError msg)
  ∧ (nmf' bcs k g).1 ≠ Raise (ValueError msg).
Proof.
  intros Hall Hk. split; [|split; [|split]].
  - unfold cspa. destruct (create_hypergraph bcs); simpl; [|done].
    by destruct (to_pymetis_format _) as [[xadj adjncy] eweights].
  - destruct bcs as [|bc bcs]; [done|].
    assert (valid_bc N (bc :: bcs)) as Hvalid by done.
    rewrite (mcla_unfold N _ k g Hvalid). simpl. unfold mcla_assign.
    set (Hb := astype_bool (hypergraph_spec N (bc :: bcs))).
    set (m := (part_graph k _ _ _).2).
    pose proof (foldl_meta_step_shape N k Hb (enumerate m) (zeros N k)) as Hfold.
    destruct (foldl (meta_step k Hb) (Ok (zeros N k)) (enumerate m))
      as [meta|e] eqn:Hm.
    + rewrite choose_labels_draw.
      * by destruct (draw random_choice (tied_set <$> meta) g).
      * destruct Hfold as [_ Hrows];
          [unfold Hb, astype_bool; by rewrite length_fmap, length_hypergraph_spec
          |apply has_shape_zeros|].
        eapply Forall_impl; [exact Hrows|]. intros v Hv ->. simpl in Hv. lia.
    + simpl. rewrite Hfold; [done| |apply has_shape_zeros].
      unfold Hb, astype_bool. by rewrite length_fmap, length_hypergraph_spec.
  - unfold hbgf. destruct (create_hypergraph bcs); simpl; [|done].
    by destruct (to_pymetis_format _) as [[xadj adjncy] eweights].
  - rewrite nmf_unfold. simpl. unfold nmf_labels, argmax_axis1.
    by destruct k; [lia|].
Qed.

Lemma cluster_ensembles_effective (bcs : list (list label)) (nclass : pyval)
    (solver : string) (verbose : bool) (g : rng) :
  ce bcs nclass solver verbose g
  = ce bcs (effective_nclass bcs nclass) solver verbose g.
Proof. by destruct nclass. Qed.

Lemma cluster_ensembles_bad_nclass (bcs : list (list label)) (nclass : pyval)
    (solver : string) (verbose : bool) (g : rng) :
  nclass ≠ PyNone → ¬ positive_int nclass →
  ce bcs nclass solver verbose g
  = (if verbose then verbose_lines bcs nclass solver else [],
     (Raise (nclass_error nclass), g)).
Proof.
  intros Hnone Hpos. unfold cluster_ensembles.
  destruct nclass as [|z|s]; [done| |done].
  rewrite decide_False; [done|]. intros Hz. apply Hpos. by exists z.
Qed.

Lemma classic_positive (nclass : pyval) :
  positive_int nclass ∨ ¬ positive_int nclass.
Proof.
  destruct nclass as [|z|s].
  - right. by intros (z & Hz & _).
  - destruct (decide (0 < z)) as [Hz|Hz].
    + left. by exists z.
    + right. intros (z' & [= <-] & Hz'). done.
  - right. by intros (z & Hz & _).
Qed.

Lemma effective_nclass_not_None (bcs : list (list label)) (nclass : pyval) :
  effective_nclass bcs nclass ≠ PyNone.
Proof. by destruct nclass. Qed.

(** C9. Without a class count [cluster_ensembles] takes the largest
    number of distinct non-missing labels of a run.  It raises the
    class-count [ValueError], whose message tells the value, when the
    class count after defaulting is not a positive [int]; otherwise the
    solver [ValueError], whose message ends with the four accepted names,
    when the solver name is not one of them; in both cases nothing of a
    solver has run: the result is the error alone and the random source is
    untouched.  It raises a [ValueError] in no other case, and for valid
    arguments it returns what the selected solver returns. *)
Theorem cluster_ensembles_orchestration (N : nat) (bcs : list (list label))
    (nclass : pyval) (solver : string) (verbose : bool) (g : rng) :
  Forall (λ bc, length bc = N) bcs →
  let nclass' := effective_nclass bcs nclass in
  let out := if verbose then verbose_lines bcs nclass' solver else [] in
  let r := ce bcs nclass solver verbose g in
  (bcs ≠ [] → default_nclass bcs = Z.of_nat (max_list (K_of <$> bcs)))
  ∧ (nclass = PyNone → nclass' = PyInt (default_nclass bcs))
  ∧ (¬ positive_int nclass' → r = (out, (Raise (nclass_error nclass'), g)))
  ∧ (positive_int nclass' → solver ∉ solver_names →
     r = (out, (Raise (solver_error solver), g)))
  ∧ (∀ z, nclass' = PyInt z → 0 < z →
       (solver = "cspa" → r = (out, (cspa part_graph bcs (Z.to_nat z), g)))
       ∧ (solver = "mcla" →
          r = (out, mcla part_graph random_choice bcs (Z.to_nat z) g))
       ∧ (solver = "hbgf" → r = (out, (hbgf part_graph bcs (Z.to_nat z), g)))
       ∧ (solver = "nmf" → r = (out, nmf' bcs (Z.to_nat z) g)))
  ∧ ((∃ msg, r.2.1 = Raise (ValueError msg))
     ↔ ¬ positive_int nclass' ∨ solver ∉ solver_names)
  ∧ (∀ a b, nclass_error (PyInt a) = nclass_error (PyInt b) → a = b)
  ∧ (∃ pre, solver_error solver
            = ValueError (pre +:+ "('cspa', 'mcla', 'hbgf', 'nmf')")).
Proof.
  intros Hall nclass' out r.
  assert (r = ce bcs nclass' solver verbose g) as Hr
    by apply cluster_ensembles_effective.
  assert (¬ positive_int nclass' →
          r = (out, (Raise (nclass_error nclass'), g))) as Hbad.
  { intros Hpos. rewrite Hr. apply cluster_ensembles_bad_nclass; [|done].
    apply effective_nclass_not_None. }
  assert (∀ z, nclass' = PyInt z → 0 < z →
          r = (out,
               if decide (solver = "cspa") then (cspa part_graph bcs (Z.to_nat z), g)
               else if decide (solver = "mcla")
                    then mcla part_graph random_choice bcs (Z.to_nat z) g
               else if decide (solver = "hbgf")
                    then (hbgf part_graph bcs (Z.to_nat z), g)
               else if decide (solver = "nmf") then nmf' bcs (Z.to_nat z) g
               else (Raise (solver_error solver), g))) as Hgood.
  { intros z Hz Hpos. rewrite Hr. unfold out. rewrite Hz.
    by apply cluster_ensembles_positive. }
  assert (positive_int nclass' → solver ∉ solver_names →
          r = (out, (Raise (solver_error solver), g))) as Hunknown.
  { intros (z & Hz & Hpos) Hsolver. rewrite (Hgood z Hz Hpos).
    unfold solver_names in Hsolver. rewrite !not_elem_of_cons in Hsolver.
    destruct Hsolver as (? & ? & ? & ? & _).
    by rewrite !decide_False by done. }
  split; [apply default_nclass_max|].
  split; [by intros ->|].
  split; [done|]. split; [done|]. split.
  { intros z Hz Hpos. rewrite (Hgood z Hz Hpos).
    repeat split; intros ->; done. }
  split; [|split; [apply nclass_error_inj|]].
  - split.
    + intros [msg Hmsg].
      destruct (decide (solver ∈ solver_names)) as [Hin|Hnin]; [|by right].
      left. intros (z & Hz & Hpos).
      rewrite (Hgood z Hz Hpos) in Hmsg. simpl in Hmsg.
      destruct (solvers_no_ValueError N bcs (Z.to_nat z) g msg Hall)
        as (Hcspa & Hmcla & Hhbgf & Hnmf); [lia|].
      unfold solver_names in Hin.
      repeat (apply elem_of_cons in Hin as [->|Hin]; [simpl in Hmsg; done|]).
      by apply elem_of_nil in Hin.
    + intros [Hpos|Hsolver].
      * rewrite (Hbad Hpos). simpl. unfold nclass_error. by eexists.
      * destruct (classic_positive nclass') as [Hpos|Hpos].
        -- rewrite (Hunknown Hpos Hsolver). simpl. unfold solver_error. by eexists.
        -- rewrite (Hbad Hpos). simpl. unfold nclass_error. by eexists.
  - eexists. apply solver_error_names.
Qed.

End NMFProperties.

End SolverProperties.

(** ** The concrete collaborators keep the contracts *)

Lemma Z_leb_order : fleb_order Z.leb.
Proof.
  split; [|split].
  - intros x y z Hxy Hyz. apply Z.leb_le in Hxy, Hyz. apply Z.leb_le. lia.
  - intros x y _ _. destruct (Z.le_ge_cases x y); [left|right]; by apply Z.leb_le.
  - intros x y _. split; apply Z.leb_refl.
Qed.


Lemma part_graph_mod_contract : partitioner_contract part_graph_mod.
Proof.
  intros nparts xadj adjncy eweights Hpos. simpl. split.
  - by rewrite length_fmap, length_seq.
  - apply Forall_fmap, Forall_forall. intros i _. simpl.
    apply Nat.mod_upper_bound. lia.
Qed.

Lemma choice_counter_contract : choice_contract choice_counter.
Proof.
  intros l g Hl. unfold choice_counter. simpl.
  destruct (lookup_lt_is_Some_2 l (g `mod` length l)) as [x Hx].
  - apply Nat.mod_upper_bound. by destruct l.
  - rewrite Hx. simpl. by eapply list_elem_of_lookup_2.
Qed.

Lemma cspa_similarity_witness :
  ∃ H : list (list Z),
    create_hypergraph [[Lab 0; Lab 0; Lab 1; Lab 1]; [Lab 3; NaN; Lab 4; Lab 4]]
    = Some H
    ∧ at2 (dot_rows H H) 1 1 = Some 1.
Proof.
  destruct (cspa_similarity part_graph_mod 4
              [[Lab 0; Lab 0; Lab 1; Lab 1]; [Lab 3; NaN; Lab 4; Lab 4]] 2)
    as (H & HH & _ & Hdiag & _).
  - split; [done|]. repeat constructor.
  - exists H. split; [done|]. by rewrite Hdiag by lia.
Defined.

(** C5, as stated, fails on the diagonal: an object that is missing in the
    only run has S[i][i] = 0, not R = 1. *)
Lemma cspa_similarity_diagonal_cex :
  valid_bc 2 [[Lab 0; NaN]]
  ∧ ∃ H : list (list Z),
      create_hypergraph [[Lab 0; NaN]] = Some H
      ∧ at2 (dot_rows H H) 1 1 = Some 0
      ∧ at2 (dot_rows H H) 1 1
        ≠ Some (Z.of_nat (length [[Lab 0; NaN]])).
Proof.
  split; [split; [done|repeat constructor]|].
  eexists. split; [reflexivity|]. split; [reflexivity|]. discriminate.
Qed.

Lemma mcla_self_loops_witness :
  ∃ H : list (list Z),
    create_hypergraph [[Lab 0; Lab 0; Lab 1; Lab 1]; [Lab 3; NaN; Lab 4; Lab 4]]
    = Some H
    ∧ csr_edge (to_pymetis_format (mcla_similarity (astype_bool H))) 2 2 1000.
Proof.
  destruct (mcla_self_loops part_graph_mod choice_counter 4
              [[Lab 0; Lab 0; Lab 1; Lab 1]; [Lab 3; NaN; Lab 4; Lab 4]] 2 0%nat)
    as (H & HH & _ & _ & Hloop).
  - split; [done|]. repeat constructor.
  - exists H. split; [done|]. apply Hloop. vm_compute. lia.
Defined.

Lemma hbgf_bipartite_witness :
  hbgf part_graph_mod [[Lab 0; Lab 0; Lab 1; Lab 1]; [Lab 3; NaN; Lab 4; Lab 4]] 2
  = Ok [0; 1; 0; 1]%nat.
Proof.
  destruct (hbgf_bipartite part_graph_mod 4
              [[Lab 0; Lab 0; Lab 1; Lab 1]; [Lab 3; NaN; Lab 4; Lab 4]] 2)
    as (H & HH & _ & _ & _ & Hhbgf & _).
  - split; [done|]. repeat constructor.
  - rewrite Hhbgf. injection HH as <-. reflexivity.
Defined.

Lemma mcla_weights_and_votes_witness :
  ∃ (H : list (list Z)) (labs : list nat) (g' : nat),
    create_hypergraph
      [[Lab 0; Lab 0; Lab 0; Lab 1; Lab 1]; [Lab 0; Lab 0; Lab 1; Lab 1; Lab 1]]
    = Some H
    ∧ at2 (mcla_similarity (astype_bool H)) 0 3 = Some 199
    ∧ mcla part_graph_mod choice_counter
           [[Lab 0; Lab 0; Lab 0; Lab 1; Lab 1];
            [Lab 0; Lab 0; Lab 1; Lab 1; Lab 1]] 2 0%nat
      = (Ok labs, g')
    ∧ length labs = 5%nat.
Proof.
  destruct (mcla_weights_and_votes part_graph_mod choice_counter 5
              [[Lab 0; Lab 0; Lab 0; Lab 1; Lab 1];
               [Lab 0; Lab 0; Lab 1; Lab 1; Lab 1]] 2 0%nat)
    as (H & HH & Hw & cands & labs & g' & _ & _ & _ & Hmcla & Hlen & _).
  - split; [done|]. repeat constructor.
  - lia.
  - apply part_graph_mod_contract.
  - apply choice_counter_contract.
  - exists H, labs, g'. split; [done|]. split; [|done].
    destruct (Hw 0%nat 3%nat) as [-> _]; [vm_compute; lia..|].
    vm_compute in HH. injection HH as <-. vm_compute. reflexivity.
Defined.

Lemma nmf_rounds_and_labels_witness :
  valid_labels 4 2
    (nmf_labels 0 Z.add Z.mul Z.sqrt Z.leb 2
       (orthogonal_nmf_algorithm 0 1 Z.add Z.mul Z.div Z.sqrt rand_counter
          ((λ row : list cell, cell_to_Z <$> row) <$>
             create_connectivity_matrix
               [[Lab 0; Lab 0; Lab 1; Lab 1]; [Lab 3; NaN; Lab 4; Lab 4]])
          2 0 0%nat).1).
Proof.
  apply (nmf_rounds_and_labels 0 1 Z.add Z.mul Z.div Z.sqrt Z.leb cell_to_Z
           rand_counter 4
           [[Lab 0; Lab 0; Lab 1; Lab 1]; [Lab 3; NaN; Lab 4; Lab 4]] 2 0 0%nat).
  - split; [done|]. repeat constructor.
  - lia.
  - apply Z_leb_order.
Defined.

Lemma cluster_ensembles_orchestration_witness :
  cluster_ensembles part_graph_mod choice_counter 0 1 Z.add Z.mul Z.div Z.sqrt
    Z.leb cell_to_Z rand_counter
    [[Lab 0; Lab 0; Lab 1; Lab 1]; [Lab 3; NaN; Lab 4; Lab 4]]
    (PyInt (-3)) "hbgf" false 0%nat
  = ([], (Raise (nclass_error (PyInt (-3))), 0%nat)).
Proof.
  apply (cluster_ensembles_orchestration part_graph_mod choice_counter 0 1
           Z.add Z.mul Z.div Z.sqrt Z.leb cell_to_Z rand_counter 4
           [[Lab 0; Lab 0; Lab 1; Lab 1]; [Lab 3; NaN; Lab 4; Lab 4]]
           (PyInt (-3)) "hbgf" false 0%nat).
  - repeat constructor.
  - intros (z & [= <-] & Hz). lia.
Defined.

Lemma solvers_valid_labels_witness :
  valid_labels 4 2
    (hbgf part_graph_mod
       [[Lab 0; Lab 0; Lab 1; Lab 1]; [Lab 3; NaN; Lab 4; Lab 4]] 2).
Proof.
  apply (solvers_valid_labels part_graph_mod choice_counter 0 1 Z.add Z.mul
           Z.div Z.sqrt Z.leb cell_to_Z rand_counter 4
           [[Lab 0; Lab 0; Lab 1; Lab 1]; [Lab 3; NaN; Lab 4; Lab 4]] 2 0%nat).
  - split; [done|]. repeat constructor.
  - lia.
  - apply part_graph_mod_contract.
  - apply choice_counter_contract.
Defined.

(** * Further properties of the code *)

(** ** The graph-format adapter *)

Lemma length_take_at (row : list Z) (idx : list nat) :
  length (take_at row idx) = length idx.
Proof. unfold take_at. apply length_fmap. Qed.

Lemma sum_list_take_le (l : list nat) (r : nat) :
  (sum_list (take r l) ≤ sum_list (take (S r) l))%nat.
Proof.
  revert r. induction l as [|x l IH]; intros r; [by destruct r|].
  destruct r as [|r]; simpl; [lia|]. specialize (IH r). simpl in IH. lia.
Qed.

Lemma xadj_lookup (adj : list (list Z)) (r : nat) :
  (r ≤ length adj)%nat →
  (to_pymetis_format adj).1.1 !! r
  = Some (sum_list ((length ∘ np_nonzero) <$> take r adj)).
Proof.
  intros Hr. rewrite to_pymetis_format_closed. cbn [fst snd].
  by rewrite list_lookup_fmap, lookup_seq_lt by lia.
Qed.

Lemma xadj_lookup_inv (adj : list (list Z)) (r a : nat) :
  (to_pymetis_format adj).1.1 !! r = Some a →
  (r ≤ length adj)%nat
  ∧ a = sum_list ((length ∘ np_nonzero) <$> take r adj).
Proof.
  intros Ha. apply lookup_lt_Some in Ha as Hlt. rewrite length_xadj in Hlt.
  rewrite xadj_lookup in Ha by lia. injection Ha as <-. split; [lia|done].
Qed.

(** X1. The offsets of the CSR triple: one more than rows, starting at 0,
    never decreasing, the step at a row being the number of its non-zero
    entries, and ending at the common length of the neighbour and weight
    sequences. *)
Theorem to_pymetis_format_offsets (adj_mat : list (list Z)) :
  let xadj := (to_pymetis_format adj_mat).1.1 in
  let adjncy := (to_pymetis_format adj_mat).1.2 in
  let eweights := (to_pymetis_format adj_mat).2 in
  length xadj = S (length adj_mat)
  ∧ xadj !! 0%nat = Some 0%nat
  ∧ (∀ r row, adj_mat !! r = Some row →
       ∃ a, xadj !! r = Some a
            ∧ xadj !! S r = Some (a + length (np_nonzero row))%nat)
  ∧ (∀ r a b, xadj !! r = Some a → xadj !! S r = Some b → (a ≤ b)%nat)
  ∧ last xadj = Some (length adjncy)
  ∧ length eweights = length adjncy.
Proof.
  rewrite to_pymetis_format_closed. cbn [fst snd].
  set (f := λ r, sum_list ((length ∘ np_nonzero) <$> take r adj_mat)).
  assert (∀ r, (r ≤ length adj_mat)%nat →
            (f <$> seq 0 (S (length adj_mat))) !! r = Some (f r)) as Hx.
  { intros r Hr. by rewrite list_lookup_fmap, lookup_seq_lt by lia. }
  assert (length (concat (np_nonzero <$> adj_mat)) = f (length adj_mat)) as Hlen.
  { unfold f. rewrite firstn_all.
    apply (length_concat_blocks np_nonzero (length ∘ np_nonzero)). done. }
  split; [by rewrite length_fmap, length_seq|].
  split; [by rewrite Hx by lia|]. split; [|split; [|split]].
  - intros r row Hr. apply lookup_lt_Some in Hr as Hlt.
    exists (f r). rewrite Hx by lia. split; [done|].
    rewrite Hx by lia. f_equal. unfold f.
    rewrite (take_S_r _ _ row) by done. rewrite fmap_app, sum_list_app. simpl. lia.
  - intros r a b Ha Hb.
    assert (S r ≤ length adj_mat)%nat as Hr.
    { apply lookup_lt_Some in Hb.
      rewrite length_fmap, length_seq in Hb. lia. }
    rewrite Hx in Ha, Hb by lia. injection Ha as <-. injection Hb as <-.
    unfold f. rewrite !fmap_take. apply sum_list_take_le.
  - rewrite Hlen, seq_S, fmap_app. simpl. apply last_snoc.
  - rewrite Hlen. unfold f. rewrite firstn_all.
    apply (length_concat_blocks _ (length ∘ np_nonzero)).
    intros row. simpl. apply length_take_at.
Qed.

Lemma filter_enumerate_ascending {A} (P : nat * A → Prop)
    `{∀ p, Decision (P p)} (l : list A) (s : nat) :
  StronglySorted lt (filter P (zip (seq s (length l)) l)).*1
  ∧ Forall (λ i, s ≤ i)%nat (filter P (zip (seq s (length l)) l)).*1.
Proof.
  revert s. induction l as [|x l IH]; intros s; simpl.
  { split; constructor. }
  destruct (IH (S s)) as [Hsorted Hge].
  rewrite filter_cons. destruct (decide (P (s, x))); simpl.
  - split.
    + constructor; [done|]. eapply Forall_impl; [exact Hge|]. simpl. lia.
    + constructor; [done|]. eapply Forall_impl; [exact Hge|]. simpl. lia.
  - split; [done|]. eapply Forall_impl; [exact Hge|]. simpl. lia.
Qed.

(** [np.nonzero] lists the positions in ascending order. *)
Lemma np_nonzero_ascending (row : list Z) : StronglySorted lt (np_nonzero row).
Proof. unfold np_nonzero, enumerate. apply filter_enumerate_ascending. Qed.

Lemma StronglySorted_lookup_lt (l : list nat) (i j x y : nat) :
  StronglySorted lt l → l !! i = Some x → l !! j = Some y → (i < j)%nat →
  (x < y)%nat.
Proof.
  intros Hs. revert i j. induction Hs as [|z l Hs IH Hz]; intros i j Hx Hy Hij;
    [done|].
  destruct j as [|j]; [lia|]. simpl in Hy. destruct i as [|i]; simpl in Hx.
  - injection Hx as ->. rewrite Forall_forall in Hz.
    apply Hz. by eapply list_elem_of_lookup_2.
  - apply (IH i j); [done|done|lia].
Qed.

(** The slice of one node in the two flat sequences. *)
Lemma csr_slice (adj : list (list Z)) (r : nat) (row : list Z) (k : nat) :
  adj !! r = Some row → (k < length (np_nonzero row))%nat →
  let a := sum_list ((length ∘ np_nonzero) <$> take r adj) in
  (to_pymetis_format adj).1.2 !! (a + k)%nat = np_nonzero row !! k
  ∧ (to_pymetis_format adj).2 !! (a + k)%nat
    = take_at row (np_nonzero row) !! k.
Proof.
  intros Hr Hk. rewrite to_pymetis_format_closed. cbn [fst snd]. split.
  - apply (lookup_concat_blocks np_nonzero (length ∘ np_nonzero) adj r row k);
      done.
  - apply (lookup_concat_blocks (λ row, take_at row (np_nonzero row))
             (length ∘ np_nonzero) adj r row k); [|done|done].
    intros row'. simpl. apply length_take_at.
Qed.

(** X2. The adapter keeps exactly the non-zero entries of a row as the
    edges of its node, each with the entry as weight, and lists the
    neighbours of a node in ascending order, so none twice. *)
Theorem to_pymetis_format_edges (adj_mat : list (list Z)) (r : nat)
    (row : list Z) :
  adj_mat !! r = Some row →
  let g := to_pymetis_format adj_mat in
  (∀ c w, csr_edge g r c w ↔ row !! c = Some w ∧ w ≠ 0)
  ∧ (∀ a b p q c d,
       g.1.1 !! r = Some a → g.1.1 !! S r = Some b →
       (a ≤ p)%nat → (p < q)%nat → (q < b)%nat →
       g.1.2 !! p = Some c → g.1.2 !! q = Some d → (c < d)%nat).
Proof.
  intros Hr g. split; [intros c w; by apply csr_edge_iff|].
  intros a b p q c d Ha Hb Hap Hpq Hqb Hc Hd.
  apply xadj_lookup_inv in Ha as [_ Hsum]. apply xadj_lookup_inv in Hb as [_ Hb].
  rewrite (take_S_r _ _ row), fmap_app, sum_list_app in Hb by done.
  simpl in Hb. rewrite <- Hsum in Hb.
  destruct (csr_slice adj_mat r row (p - a) Hr) as [Hp _]; [lia|].
  destruct (csr_slice adj_mat r row (q - a) Hr) as [Hq _]; [lia|].
  cbn zeta in Hp, Hq. rewrite <- Hsum in Hp, Hq.
  replace (a + (p - a))%nat with p in Hp by lia.
  replace (a + (q - a))%nat with q in Hq by lia.
  fold g in Hp, Hq. rewrite Hc in Hp. rewrite Hd in Hq.
  apply (StronglySorted_lookup_lt (np_nonzero row) (p - a) (q - a));
    [apply np_nonzero_ascending|done|done|lia].
Qed.

Lemma to_pymetis_format_edges_witness :
  csr_edge (to_pymetis_format [[0; 2; 0]; [1; 0; 3]; [0; 0; 0]]) 1 2 3.
Proof.
  apply (to_pymetis_format_edges [[0; 2; 0]; [1; 0; 3]; [0; 0; 0]] 1 [1; 0; 3]).
  - reflexivity.
  - split; [reflexivity|lia].
Defined.

(** ** The graphs handed to the partitioner *)

Lemma csr_edge_row (adj : list (list Z)) (r c : nat) (w : Z) :
  csr_edge (to_pymetis_format adj) r c w → ∃ row, adj !! r = Some row.
Proof.
  pose proof (length_xadj adj) as Hlen.
  destruct (to_pymetis_format adj) as [[xadj adjncy] eweights]. simpl in *.
  intros (a & b & p & _ & Hb & _). apply lookup_lt_Some in Hb.
  apply lookup_lt_is_Some_2. lia.
Qed.

Lemma csr_edge_at2 (adj : list (list Z)) (r c : nat) (w : Z) :
  csr_edge (to_pymetis_format adj) r c w ↔ at2 adj r c = Some w ∧ w ≠ 0.
Proof.
  split.
  - intros Hedge. destruct (csr_edge_row adj r c w Hedge) as [row Hrow].
    destruct (proj1 (csr_edge_iff adj r c w row Hrow) Hedge) as [Hc Hw].
    split; [|done]. unfold at2. by rewrite Hrow.
  - intros [Hat Hw]. unfold at2 in Hat.
    destruct (adj !! r) as [row|] eqn:Hrow; [|done].
    by apply (csr_edge_iff adj r c w row Hrow).
Qed.

(** A symmetric matrix becomes an undirected graph. *)
Lemma csr_edge_symmetric (adj : list (list Z)) (i j : nat) (w : Z) :
  (∀ i j, at2 adj i j = at2 adj j i) →
  csr_edge (to_pymetis_format adj) i j w → csr_edge (to_pymetis_format adj) j i w.
Proof. intros Hsym. rewrite !csr_edge_at2, (Hsym i j). done. Qed.

Lemma at2_dot_rows_sym (H : list (list Z)) (i j : nat) :
  at2 (dot_rows H H) i j = at2 (dot_rows H H) j i.
Proof.
  unfold at2, dot_rows. rewrite !list_lookup_fmap.
  destruct (H !! i) as [u|] eqn:Hu, (H !! j) as [v|] eqn:Hv; simpl;
    rewrite ?list_lookup_fmap, ?Hu, ?Hv; simpl; try done.
  f_equal. apply dotZ_comm.
Qed.

Lemma co_count_le (bcs : list (list label)) (i j : nat) :
  (co_count bcs i j ≤ length bcs)%nat.
Proof. unfold co_count. apply length_filter. Qed.

Lemma at2_lt {A} (n k : nat) (a : list (list A)) (i j : nat) (x : A) :
  has_shape n k a → at2 a i j = Some x → (i < n)%nat ∧ (j < k)%nat.
Proof.
  intros [Hn Hk] Hx. unfold at2 in Hx.
  destruct (a !! i) as [row|] eqn:Hrow; [|done]. simpl in Hx.
  apply lookup_lt_Some in Hrow as Hi. apply lookup_lt_Some in Hx as Hj.
  rewrite Forall_forall in Hk.
  rewrite (Hk row) in Hj by (by eapply list_elem_of_lookup_2). lia.
Qed.

Lemma has_shape_dot_rows (n k : nat) (a b : list (list Z)) :
  length a = n → length b = k → has_shape n k (dot_rows a b).
Proof.
  intros Ha Hb. unfold dot_rows. split; [by rewrite length_fmap|].
  apply Forall_fmap, Forall_forall. intros u _. simpl. by rewrite length_fmap.
Qed.

(** X3. The graph CSPA hands to the partitioner is undirected, joins
    objects only, and its weights are integers between 1 and R: the edge
    (i, j) is there exactly when i and j share a label in some run, with
    the number of such runs as weight. *)
Theorem cspa_graph (N : nat) (bcs : list (list label)) :
  valid_bc N bcs →
  ∃ H : list (list Z),
    create_hypergraph bcs = Some H
    ∧ let g := to_pymetis_format (dot_rows H H) in
      (∀ i j w,
         csr_edge g i j w ↔
           (i < N)%nat ∧ (j < N)%nat
           ∧ w = Z.of_nat (co_count bcs i j) ∧ w ≠ 0)
      ∧ (∀ i j w,
           csr_edge g i j w →
           csr_edge g j i w ∧ 1 ≤ w ≤ Z.of_nat (length bcs)).
Proof.
  intros Hvalid. exists (hypergraph_spec N bcs).
  split; [by apply create_hypergraph_spec|]. simpl.
  destruct Hvalid as [_ Hall].
  assert (∀ i j w,
            csr_edge (to_pymetis_format
                        (dot_rows (hypergraph_spec N bcs) (hypergraph_spec N bcs)))
                     i j w ↔
              (i < N)%nat ∧ (j < N)%nat
              ∧ w = Z.of_nat (co_count bcs i j) ∧ w ≠ 0) as Hedge.
  { intros i j w. rewrite csr_edge_at2. split.
    - intros [Hat Hw].
      destruct (at2_lt N N _ i j w
                  (has_shape_dot_rows N N _ _ (length_hypergraph_spec N bcs)
                     (length_hypergraph_spec N bcs)) Hat) as [Hi Hj].
      rewrite (cspa_similarity_entry N) in Hat by done. by injection Hat as <-.
    - intros (Hi & Hj & -> & Hpos).
      by rewrite (cspa_similarity_entry N) by done. }
  split; [done|]. intros i j w Hw. split.
  - apply csr_edge_symmetric; [apply at2_dot_rows_sym|done].
  - apply Hedge in Hw as (_ & _ & -> & Hne).
    pose proof (co_count_le bcs i j). lia.
Qed.

Lemma cspa_graph_witness :
  ∃ H : list (list Z),
    create_hypergraph [[Lab 0; Lab 0; Lab 1]; [Lab 3; NaN; Lab 4]] = Some H
    ∧ csr_edge (to_pymetis_format (dot_rows H H)) 0 1 1.
Proof.
  destruct (cspa_graph 3 [[Lab 0; Lab 0; Lab 1]; [Lab 3; NaN; Lab 4]])
    as (H & HH & Hedge & _).
  - split; [done|]. repeat constructor.
  - exists H. split; [done|]. apply Hedge. by repeat split; try lia.
Defined.

(** ** The incidence matrix *)

Lemma split_block_index {A} (g : A → nat) (l : list A) (c : nat) :
  (c < sum_list (g <$> l))%nat →
  ∃ r a c', l !! r = Some a ∧ (c' < g a)%nat
            ∧ c = (sum_list (g <$> take r l) + c')%nat.
Proof.
  revert c. induction l as [|a l IH]; intros c Hc; simpl in Hc; [lia|].
  destruct (decide (c < g a)%nat) as [Hlt|Hge].
  - exists 0%nat, a, c. by repeat split.
  - destruct (IH (c - g a)%nat) as (r & b & c' & Hr & Hc' & Heq).
    { change (list_fmap A nat g l) with (g <$> l) in Hc. lia. }
    exists (S r), b, c'. split; [done|]. split; [done|].
    simpl. change (list_fmap A nat g (take r l)) with (g <$> take r l). lia.
Qed.

Lemma hypergraph_spec_entry (N : nat) (bcs : list (list label))
    (r : nat) (bc : list label) (i : nat) (x : label) (c : nat) :
  Forall (λ bc, length bc = N) bcs →
  bcs !! r = Some bc → bc !! i = Some x → (c < K_of bc)%nat →
  at2 (hypergraph_spec N bcs) i (sum_list (K_of <$> take r bcs) + c)%nat
  = Some (if bool_decide (Lab <$> np_unique (non_missing bc) !! c = Some x)
          then 1 else 0).
Proof.
  intros Hall Hr Hx Hc. unfold at2. rewrite hypergraph_spec_lookup.
  rewrite Forall_forall in Hall.
  assert (length bc = N) as HN by (apply Hall; by eapply list_elem_of_lookup_2).
  apply lookup_lt_Some in Hx as Hlt. rewrite decide_True by lia. simpl.
  rewrite (lookup_concat_blocks
             (λ bc, block_row_spec bc (default NaN (bc !! i))) K_of bcs r bc c);
    [|intros; apply length_block_row_spec|done|done].
  rewrite Hx. simpl. by apply block_row_spec_lookup.
Qed.

Lemma sum_binary (u : list Z) :
  Forall (λ z, z = 0 ∨ z = 1) u → foldr Z.add 0 u = dotZ u u.
Proof.
  unfold dotZ. induction 1 as [|z u Hz Hu IH]; simpl; [done|].
  rewrite IH. destruct Hz as [-> | ->]; lia.
Qed.

(** X4. In the incidence matrix no hyperedge is empty: every column has a
    1 in the row of some object; and the row of object i has as many 1s
    as there are runs in which i has a label. *)
Theorem create_hypergraph_columns_rows (N : nat) (bcs : list (list label)) :
  valid_bc N bcs →
  ∃ H : list (list Z),
    create_hypergraph bcs = Some H
    ∧ (∀ c, (c < sum_list (K_of <$> bcs))%nat →
         ∃ i, (i < N)%nat ∧ at2 H i c = Some 1)
    ∧ (∀ i row, H !! i = Some row →
         foldr Z.add 0 row = Z.of_nat (labelled_runs bcs i)).
Proof.
  intros Hvalid. exists (hypergraph_spec N bcs).
  split; [by apply create_hypergraph_spec|].
  destruct Hvalid as [_ Hall]. split.
  - intros c Hc.
    destruct (split_block_index K_of bcs c Hc) as (r & bc & c' & Hr & Hc' & ->).
    destruct (lookup_lt_is_Some_2 (np_unique (non_missing bc)) c') as [v Hv];
      [done|].
    assert (Lab v ∈ bc) as [i Hi]%list_elem_of_lookup_1.
    { apply elem_of_non_missing, (elem_of_np_unique _ v).
      by eapply list_elem_of_lookup_2. }
    exists i. split.
    + apply lookup_lt_Some in Hi. rewrite Forall_forall in Hall.
      rewrite <- (Hall bc); [done|]. by eapply list_elem_of_lookup_2.
    + rewrite (hypergraph_spec_entry N bcs r bc i (Lab v) c') by done.
      rewrite Hv. simpl. by rewrite bool_decide_eq_true_2.
  - intros i row Hrow. apply lookup_lt_Some in Hrow as Hi.
    rewrite length_hypergraph_spec in Hi.
    pose proof (hypergraph_spec_binary N bcs) as Hbin.
    rewrite Forall_forall in Hbin.
    rewrite sum_binary by (apply Hbin; by eapply list_elem_of_lookup_2).
    rewrite hypergraph_spec_lookup, decide_True in Hrow by done.
    injection Hrow as <-.
    by rewrite (dotZ_spec_rows N), co_count_diag.
Qed.

Lemma create_hypergraph_columns_rows_witness :
  ∃ H : list (list Z),
    create_hypergraph [[Lab 5; NaN; Lab 2]; [Lab 1; Lab 1; Lab 7]] = Some H
    ∧ ∃ i, (i < 3)%nat ∧ at2 H i 3 = Some 1.
Proof.
  destruct (create_hypergraph_columns_rows 3
              [[Lab 5; NaN; Lab 2]; [Lab 1; Lab 1; Lab 7]])
    as (H & HH & Hcol & _).
  - split; [done|]. repeat constructor.
  - exists H. split; [done|]. apply Hcol. vm_compute. lia.
Defined.

(** ** The similarity of hyperedges in MCLA *)

Lemma zip_with_comm {A B} (f : A → A → B) (u v : list A) :
  (∀ x y, f x y = f y x) → zip_with f u v = zip_with f v u.
Proof.
  intros Hf. revert v. induction u as [|x u IH]; intros [|y v]; simpl; try done.
  by rewrite Hf, IH.
Qed.

Lemma jaccard_sym (u v : list bool) : jaccard u v = jaccard v u.
Proof.
  unfold jaccard.
  by rewrite (zip_with_comm xorb u v xorb_comm), (zip_with_comm orb u v orb_comm).
Qed.

Lemma count_true_xor_le_or (u v : list bool) :
  (count_true (zip_with xorb u v) ≤ count_true (zip_with orb u v))%nat.
Proof.
  unfold count_true. revert v. induction u as [|x u IH]; intros [|y v]; simpl;
    try done.
  rewrite !filter_cons. specialize (IH v).
  destruct x, y; simpl; repeat case_decide; simpl; try done; lia.
Qed.

Lemma jaccard_range (u v : list bool) : (0 ≤ jaccard u v ≤ 1)%Qc.
Proof.
  unfold jaccard. pose proof (count_true_xor_le_or u v) as Hle.
  destruct (count_true (zip_with orb u v)) as [|n] eqn:Hn; [done|].
  destruct (Qc_fraction_bounds (Z.of_nat (count_true (zip_with xorb u v)))
              (Z.of_nat (S n))) as [Hlo Hhi]; [lia..|].
  unfold fdiv64. split; [by apply round64_nonneg|].
  rewrite <- Z2Qc_inj_1. apply round64_le_Z; [done|by rewrite Z2Qc_inj_1|done].
Qed.

Lemma astype_int_range (q : Qc) (n : Z) :
  (0 ≤ q)%Qc → (q ≤ Qc_of_Z n)%Qc → 0 ≤ astype_int q ≤ n.
Proof.
  unfold astype_int, Qcle, Qle. destruct q as [[num den] Hcanon]. simpl.
  intros H0 Hn. split.
  - apply Z.quot_pos; lia.
  - apply Z.quot_le_upper_bound; lia.
Qed.

Lemma jaccard_weight_range (d : Qc) :
  (0 ≤ d ≤ 1)%Qc → 0 ≤ jaccard_weight d ≤ 1000.
Proof.
  intros [H0 H1]. unfold jaccard_weight.
  assert (0 ≤ 1 - d)%Qc as Hlo.
  { apply (Qcplus_le_mono_r _ _ d). rewrite Qcplus_0_l.
    replace (1 - d + d)%Qc with 1%Qc by ring. done. }
  assert (1 - d ≤ 1)%Qc as Hhi.
  { apply (Qcplus_le_mono_r _ _ d).
    replace (1 - d + d)%Qc with (1 + 0)%Qc by ring.
    by apply Qcplus_le_mono_l. }
  assert (0 ≤ fsub64 1 d)%Qc as Hslo by (by apply round64_nonneg).
  assert (fsub64 1 d ≤ 1)%Qc as Hshi.
  { unfold fsub64. rewrite <- Z2Qc_inj_1 at 2.
    apply round64_le_Z; [done|by rewrite Z2Qc_inj_1|done]. }
  apply astype_int_range; unfold fmul64.
  - apply round64_nonneg.
    apply Qcmult_nonneg_nonneg; [done|]. by apply Z2Qc_inj_le.
  - apply round64_le_Z; [| |done].
    + apply Qcmult_nonneg_nonneg; [done|]. by apply Z2Qc_inj_le.
    + rewrite <- (Qcmult_1_l (Qc_of_Z 1000)) at 2.
      apply Qcmult_le_mono_nonneg_r; [|done]. by apply Z2Qc_inj_le.
Qed.

Lemma at2_mcla_similarity_sym (H : list (list bool)) (a b : nat) :
  at2 (mcla_similarity H) a b = at2 (mcla_similarity H) b a.
Proof.
  destruct (decide (a < ncols H)%nat) as [Ha|Ha],
           (decide (b < ncols H)%nat) as [Hb|Hb].
  - rewrite !at2_mcla_similarity by done. by rewrite jaccard_sym.
  - unfold at2. rewrite (lookup_ge_None_2 _ b) by (rewrite length_mcla_similarity; lia).
    destruct (mcla_similarity H !! a) as [row|] eqn:Hrow; simpl; [|done].
    apply lookup_ge_None_2. unfold mcla_similarity, pairwise_distances in Hrow.
    rewrite !list_lookup_fmap in Hrow.
    destruct (transpose (ncols H) H !! a); [|done]. simpl in Hrow.
    injection Hrow as <-. rewrite !length_fmap, length_transpose. lia.
  - unfold at2. rewrite (lookup_ge_None_2 _ a) by (rewrite length_mcla_similarity; lia).
    destruct (mcla_similarity H !! b) as [row|] eqn:Hrow; simpl; [|done].
    symmetry. apply lookup_ge_None_2.
    unfold mcla_similarity, pairwise_distances in Hrow.
    rewrite !list_lookup_fmap in Hrow.
    destruct (transpose (ncols H) H !! b); [|done]. simpl in Hrow.
    injection Hrow as <-. rewrite !length_fmap, length_transpose. lia.
  - unfold at2.
    by rewrite !lookup_ge_None_2 by (rewrite length_mcla_similarity; lia).
Qed.

Lemma count_true_pos (l : list bool) : true ∈ l → (0 < count_true l)%nat.
Proof.
  unfold count_true. intros Hin.
  assert (true ∈ filter (λ b, b = true) l) as Hf
    by (by apply list_elem_of_filter).
  destruct (filter _ l); [by apply elem_of_nil in Hf|simpl; lia].
Qed.

(** Two vectors that are never set together, one of them set somewhere,
    are at Jaccard distance 1. *)
Lemma jaccard_disjoint (u v : list bool) :
  length u = length v →
  (∀ i, u !! i = Some true → v !! i = Some true → False) →
  true ∈ u →
  jaccard u v = 1%Qc.
Proof.
  intros Hlen Hdisj Hin. unfold jaccard.
  assert (zip_with xorb u v = zip_with orb u v) as ->.
  { apply list_eq. intros i. rewrite !lookup_zip_with.
    destruct (u !! i) as [[|]|] eqn:Hu, (v !! i) as [[|]|] eqn:Hv; simpl;
      try done.
    by destruct (Hdisj i). }
  assert (0 < count_true (zip_with orb u v))%nat as Hpos.
  { apply count_true_pos. apply list_elem_of_lookup_1 in Hin as [i Hi].
    destruct (lookup_lt_is_Some_2 v i) as [b Hb];
      [rewrite <- Hlen; by apply lookup_lt_Some in Hi|].
    apply (list_elem_of_lookup_2 _ i). by rewrite lookup_zip_with, Hi, Hb. }
  destruct (count_true (zip_with orb u v)) as [|n]; [lia|].
  unfold fdiv64.
  assert (Qc_of_Z (Z.of_nat (S n)) / Qc_of_Z (Z.of_nat (S n)) = 1)%Qc as ->
    by (apply Qc_fraction_one; lia).
  apply round64_1.
Qed.

Lemma jaccard_weight_1 : jaccard_weight 1%Qc = 0.
Proof. vm_compute. reflexivity. Qed.

Lemma astype_bool_column (N C : nat) (H : list (list Z)) (i c : nat) (z : Z) :
  has_shape N C H → at2 H i c = Some z →
  column (astype_bool H) c !! i = Some (bool_decide (z ≠ 0)).
Proof.
  intros Hshape Hz.
  destruct (at2_lt N C H i c z Hshape Hz) as [Hi Hc].
  rewrite <- (at2_column N C (astype_bool H) i c);
    [|by apply has_shape_fmap|done|done].
  unfold astype_bool. by rewrite at2_fmap, Hz.
Qed.

(** X5. The graph MCLA hands to the partitioner is undirected, joins
    hyperedges only, with integer weights between 1 and 1000, and never
    joins two different hyperedges of the same run: their columns share no
    object, so their Jaccard distance is 1 and the weight 0 is dropped. *)
Theorem mcla_graph (N : nat) (bcs : list (list label)) :
  valid_bc N bcs →
  ∃ H : list (list Z),
    create_hypergraph bcs = Some H
    ∧ let C := sum_list (K_of <$> bcs) in
      let g := to_pymetis_format (mcla_similarity (astype_bool H)) in
      (∀ a b w,
         csr_edge g a b w →
         csr_edge g b a w ∧ (a < C)%nat ∧ (b < C)%nat ∧ 1 ≤ w ≤ 1000)
      ∧ (∀ r bc c1 c2 w,
           bcs !! r = Some bc → (c1 < K_of bc)%nat → (c2 < K_of bc)%nat →
           c1 ≠ c2 →
           ¬ csr_edge g (sum_list (K_of <$> take r bcs) + c1)%nat
                        (sum_list (K_of <$> take r bcs) + c2)%nat w).
Proof.
  intros Hvalid. exists (hypergraph_spec N bcs).
  split; [by apply create_hypergraph_spec|]. simpl.
  destruct Hvalid as [_ Hall].
  pose proof (ncols_astype_bool_spec N bcs Hall) as HC.
  pose proof (has_shape_hypergraph_spec N bcs) as Hshape.
  set (Hb := astype_bool (hypergraph_spec N bcs)) in *.
  split.
  - intros a b w Hw. split.
    { apply csr_edge_symmetric; [apply at2_mcla_similarity_sym|done]. }
    apply csr_edge_at2 in Hw as [Hat Hne].
    assert (a < ncols Hb ∧ b < ncols Hb)%nat as [Ha Hb'].
    { apply (at2_lt _ _ (mcla_similarity Hb) a b w); [|done].
      unfold mcla_similarity, pairwise_distances. split.
      - by rewrite !length_fmap, length_transpose.
      - apply Forall_fmap, Forall_fmap, Forall_forall. intros u _. simpl.
        by rewrite !length_fmap, length_transpose. }
    rewrite at2_mcla_similarity in Hat by done. injection Hat as <-.
    pose proof (jaccard_weight_range _ (jaccard_range (column Hb a) (column Hb b))).
    repeat split; lia.
  - unfold Hb in *. clear Hb. intros r bc c1 c2 w Hr Hc1 Hc2 Hne Hw.
    apply csr_edge_at2 in Hw as [Hat Hw].
    assert (sum_list (K_of <$> take r bcs) + K_of bc ≤ sum_list (K_of <$> bcs))%nat
      as Hoff.
    { replace (sum_list (K_of <$> bcs))
        with (sum_list (K_of <$> (take r bcs ++ bc :: drop (S r) bcs)))
        by (by rewrite (take_drop_middle bcs r bc Hr)).
      rewrite fmap_app, sum_list_app. simpl. lia. }
    rewrite at2_mcla_similarity in Hat by lia.
    rewrite jaccard_disjoint, jaccard_weight_1 in Hat; [by injection Hat as <-|..].
    + by rewrite !length_column.
    + intros i Hu Hv. apply lookup_lt_Some in Hu as Hi.
      rewrite length_column in Hi. unfold astype_bool in Hi.
      rewrite length_fmap, length_hypergraph_spec in Hi.
      pose proof (proj1 (Forall_forall _ _) Hall bc
                    (list_elem_of_lookup_2 _ _ _ Hr)) as HbcN. simpl in HbcN.
      destruct (lookup_lt_is_Some_2 bc i) as [x Hx]; [lia|].
      rewrite (astype_bool_column N _ _ i _ _ Hshape
                 (hypergraph_spec_entry N bcs r bc i x c1 Hall Hr Hx Hc1)) in Hu.
      rewrite (astype_bool_column N _ _ i _ _ Hshape
                 (hypergraph_spec_entry N bcs r bc i x c2 Hall Hr Hx Hc2)) in Hv.
      destruct (lookup_lt_is_Some_2 (np_unique (non_missing bc)) c1) as [u1 Hu1];
        [done|].
      destruct (lookup_lt_is_Some_2 (np_unique (non_missing bc)) c2) as [u2 Hu2];
        [done|].
      rewrite Hu1 in Hu. rewrite Hu2 in Hv. simpl in Hu, Hv.
      destruct (decide (Some (Lab u1) = Some x)) as [Heq1|Hn1];
        [|by rewrite (bool_decide_eq_false_2 _ Hn1) in Hu].
      destruct (decide (Some (Lab u2) = Some x)) as [Heq2|Hn2];
        [|by rewrite (bool_decide_eq_false_2 _ Hn2) in Hv].
      apply Hne. apply (NoDup_lookup (np_unique (non_missing bc)) c1 c2 u1);
        [apply NoDup_np_unique|done|]. rewrite Hu2. congruence.
    + destruct (lookup_lt_is_Some_2 (np_unique (non_missing bc)) c1) as [u1 Hu1];
        [done|].
      assert (Lab u1 ∈ bc) as [i Hi]%list_elem_of_lookup_1.
      { apply elem_of_non_missing, (elem_of_np_unique _ u1).
        by eapply list_elem_of_lookup_2. }
      apply (list_elem_of_lookup_2 _ i).
      rewrite (astype_bool_column N _ _ i _ _ Hshape
                 (hypergraph_spec_entry N bcs r bc i (Lab u1) c1 Hall Hr Hi Hc1)).
      rewrite Hu1. simpl.
      rewrite (bool_decide_eq_true_2 (Some (Lab u1) = Some (Lab u1))) by done.
      by rewrite bool_decide_eq_true_2 by lia.
Qed.

Lemma mcla_graph_witness :
  ∃ H : list (list Z),
    create_hypergraph [[Lab 0; Lab 0; Lab 1; Lab 1]; [Lab 3; NaN; Lab 4; Lab 4]]
    = Some H
    ∧ ¬ csr_edge (to_pymetis_format (mcla_similarity (astype_bool H))) 0 1 1000.
Proof.
  destruct (mcla_graph 4
              [[Lab 0; Lab 0; Lab 1; Lab 1]; [Lab 3; NaN; Lab 4; Lab 4]])
    as (H & HH & _ & Hsame).
  - split; [done|]. repeat constructor.
  - exists H. split; [done|].
    apply (Hsame 0%nat [Lab 0; Lab 0; Lab 1; Lab 1] 0%nat 1%nat 1000);
      [reflexivity|vm_compute; lia|vm_compute; lia|lia].
Defined.

(** ** The bipartite graph of HBGF *)

Lemma hypergraph_spec_at2_binary (N : nat) (bcs : list (list label))
    (i c : nat) (z : Z) :
  at2 (hypergraph_spec N bcs) i c = Some z → z = 0 ∨ z = 1.
Proof.
  unfold at2. intros Hz.
  destruct (hypergraph_spec N bcs !! i) as [row|] eqn:Hrow; [|done].
  simpl in Hz. pose proof (hypergraph_spec_binary N bcs) as Hbin.
  rewrite Forall_forall in Hbin.
  specialize (Hbin row (list_elem_of_lookup_2 _ _ _ Hrow)).
  rewrite Forall_forall in Hbin. apply Hbin. by eapply list_elem_of_lookup_2.
Qed.

(** X6. The graph HBGF hands to the partitioner is bipartite and
    undirected: an edge joins cluster node c (below C) and object node
    C + i exactly when H[i][c] = 1, in both directions, every entry kept is
    1, and no node has a self-loop. *)
Theorem hbgf_graph (N : nat) (bcs : list (list label)) :
  valid_bc N bcs →
  ∃ H : list (list Z),
    create_hypergraph bcs = Some H
    ∧ let C := sum_list (K_of <$> bcs) in
      let g := to_pymetis_format (hbgf_adjacency H) in
      (∀ a b w,
         csr_edge g a b w ↔
           w = 1
           ∧ (((a < C)%nat ∧ (C ≤ b)%nat ∧ at2 H (b - C) a = Some 1)
              ∨ ((C ≤ a)%nat ∧ (b < C)%nat ∧ at2 H (a - C) b = Some 1)))
      ∧ (∀ a b w, csr_edge g a b w → csr_edge g b a w ∧ a ≠ b).
Proof.
  intros Hvalid. exists (hypergraph_spec N bcs).
  split; [by apply create_hypergraph_spec|]. simpl.
  destruct Hvalid as [_ Hall].
  pose proof (has_shape_hypergraph_spec N bcs) as Hshape.
  pose proof (ncols_hypergraph_spec N bcs Hall) as HC.
  pose proof (hbgf_adjacency_shape _ _ _ Hshape HC) as HW.
  set (C := sum_list (K_of <$> bcs)) in *.
  set (H := hypergraph_spec N bcs) in *.
  assert (∀ a b w,
            csr_edge (to_pymetis_format (hbgf_adjacency H)) a b w ↔
              w = 1
              ∧ (((a < C)%nat ∧ (C ≤ b)%nat ∧ at2 H (b - C) a = Some 1)
                 ∨ ((C ≤ a)%nat ∧ (b < C)%nat ∧ at2 H (a - C) b = Some 1)))
    as Hedge.
  { intros a b w. rewrite csr_edge_at2. split.
    - intros [Hat Hw].
      destruct (at2_lt _ _ _ a b w HW Hat) as [Ha Hb].
      rewrite (hbgf_adjacency_entry N C H a b Hshape HC Ha Hb) in Hat.
      destruct (decide (a < C)%nat) as [HaC|HaC],
               (decide (b < C)%nat) as [HbC|HbC];
        try (injection Hat as <-; done).
      + destruct (hypergraph_spec_at2_binary N bcs _ _ w Hat) as [->| ->];
          [done|]. split; [done|]. left. repeat split; [done|lia|done].
      + destruct (hypergraph_spec_at2_binary N bcs _ _ w Hat) as [->| ->];
          [done|]. split; [done|]. right. repeat split; [lia|done|done].
    - intros [-> [(Ha & Hb & Hat)|(Ha & Hb & Hat)]].
      + destruct (at2_lt _ _ _ _ _ _ Hshape Hat) as [Hi _].
        rewrite (hbgf_adjacency_entry N C H a b Hshape HC) by lia.
        rewrite decide_True, decide_False by lia. done.
      + destruct (at2_lt _ _ _ _ _ _ Hshape Hat) as [Hi _].
        rewrite (hbgf_adjacency_entry N C H a b Hshape HC) by lia.
        rewrite decide_False, decide_True by lia. done. }
  split; [done|]. intros a b w Hw. apply Hedge in Hw as [-> Hcases]. split.
  - apply Hedge. split; [done|]. destruct Hcases as [(?&?&?)|(?&?&?)];
      [right|left]; done.
  - destruct Hcases as [(?&?&?)|(?&?&?)]; lia.
Qed.

Lemma hbgf_graph_witness :
  ∃ H : list (list Z),
    create_hypergraph [[Lab 0; Lab 0; Lab 1]; [Lab 3; NaN; Lab 4]] = Some H
    ∧ csr_edge (to_pymetis_format (hbgf_adjacency H)) 0 4 1.
Proof.
  destruct (hbgf_graph 3 [[Lab 0; Lab 0; Lab 1]; [Lab 3; NaN; Lab 4]])
    as (H & HH & Hedge & _).
  - split; [done|]. repeat constructor.
  - exists H. split; [done|]. apply Hedge. split; [done|]. left.
    injection HH as <-. vm_compute. repeat split; lia.
Defined.

(** ** The connectivity matrix and the similarity matrix of CSPA *)

(** X7. The connectivity matrix is the similarity matrix of CSPA divided
    by the number of runs: M[i][j] = (H . H^T)[i][j] / R. *)
Theorem connectivity_is_scaled_similarity (N : nat) (bcs : list (list label)) :
  valid_bc N bcs →
  ∃ H : list (list Z),
    create_hypergraph bcs = Some H
    ∧ ∀ i j, (i < N)%nat → (j < N)%nat →
        ∃ s, at2 (dot_rows H H) i j = Some s
             ∧ at2 (create_connectivity_matrix bcs) i j
               = Some (cfin (Qc_of_Z s / Qc_of_Z (Z.of_nat (length bcs)))%Qc).
Proof.
  intros Hvalid. exists (hypergraph_spec N bcs).
  split; [by apply create_hypergraph_spec|].
  intros i j Hi Hj. exists (Z.of_nat (co_count bcs i j)).
  split; [apply (cspa_similarity_entry N); by destruct Hvalid|].
  rewrite (create_connectivity_matrix_entry N) by done.
  destruct Hvalid as [Hne _]. unfold np_div.
  destruct bcs; [done|]. done.
Qed.

Lemma connectivity_is_scaled_similarity_witness :
  ∃ H : list (list Z),
    create_hypergraph [[Lab 0; Lab 0; NaN]; [Lab 2; Lab 1; Lab 1]] = Some H
    ∧ ∃ s, at2 (dot_rows H H) 0 1 = Some s
           ∧ at2 (create_connectivity_matrix
                    [[Lab 0; Lab 0; NaN]; [Lab 2; Lab 1; Lab 1]]) 0 1
             = Some (cfin (Qc_of_Z s / Qc_of_Z 2)%Qc).
Proof.
  destruct (connectivity_is_scaled_similarity 3
              [[Lab 0; Lab 0; NaN]; [Lab 2; Lab 1; Lab 1]])
    as (H & HH & Hentry).
  - split; [done|]. repeat constructor.
  - exists H. split; [done|]. apply (Hentry 0%nat 1%nat); lia.
Defined.

Lemma co_count_missing (bcs : list (list label)) (i j : nat) :
  (∀ bc, bc ∈ bcs → bc !! i = Some NaN) →
  co_count bcs i j = 0%nat ∧ co_count bcs j i = 0%nat.
Proof.
  intros Hnan. unfold co_count.
  assert (∀ k l, (k = i ∨ l = i) →
            filter (λ bc : list label,
                      label_eqb (default NaN (bc !! k)) (default NaN (bc !! l))
                      = true) bcs = []) as Hnil.
  { intros k l Hkl. induction bcs as [|bc bcs IH]; [done|].
    rewrite filter_cons.
    pose proof (Hnan bc (list_elem_of_here bc bcs)) as Hbc.
    rewrite decide_False.
    - apply IH. intros bc' Hbc'. apply Hnan. by right.
    - destruct Hkl as [-> | ->]; rewrite Hbc; simpl;
        [|rewrite (proj2 (label_eqb_nan _))]; done. }
  by rewrite !Hnil by auto.
Qed.

(** X8. An object whose label is missing in every run is tied to
    nothing: its row and column of the connectivity matrix are 0, the
    diagonal included, and it has no edge, in either direction, in the
    graph of CSPA. *)
Theorem missing_object_isolated (N : nat) (bcs : list (list label)) (i : nat) :
  valid_bc N bcs → (i < N)%nat →
  (∀ bc, bc ∈ bcs → bc !! i = Some NaN) →
  (∀ j, (j < N)%nat →
     at2 (create_connectivity_matrix bcs) i j = Some (cfin 0%Qc)
     ∧ at2 (create_connectivity_matrix bcs) j i = Some (cfin 0%Qc))
  ∧ ∃ H : list (list Z),
      create_hypergraph bcs = Some H
      ∧ ∀ j w,
          ¬ csr_edge (to_pymetis_format (dot_rows H H)) i j w
          ∧ ¬ csr_edge (to_pymetis_format (dot_rows H H)) j i w.
Proof.
  intros Hvalid Hi Hnan. split.
  - intros j Hj. rewrite !(create_connectivity_matrix_entry N) by done.
    destruct (co_count_missing bcs i j Hnan) as [-> ->].
    destruct Hvalid as [Hne _]. unfold np_div.
    destruct bcs as [|bc bcs]; [done|].
    change (Z.of_nat 0) with 0. rewrite Z2Qc_inj_0. unfold Qcdiv.
    by rewrite Qcmult_0_l.
  - exists (hypergraph_spec N bcs).
    split; [by apply create_hypergraph_spec|].
    destruct Hvalid as [_ Hall].
    pose proof (has_shape_dot_rows N N _ _ (length_hypergraph_spec N bcs)
                  (length_hypergraph_spec N bcs)) as Hshape.
    intros j w. split; intros [Hat Hw]%csr_edge_at2.
    + destruct (at2_lt N N _ _ _ _ Hshape Hat) as [_ Hj].
      rewrite (cspa_similarity_entry N) in Hat by done.
      destruct (co_count_missing bcs i j Hnan) as [Hij _].
      rewrite Hij in Hat. by injection Hat as <-.
    + destruct (at2_lt N N _ _ _ _ Hshape Hat) as [Hj _].
      rewrite (cspa_similarity_entry N) in Hat by done.
      destruct (co_count_missing bcs i j Hnan) as [_ Hji].
      rewrite Hji in Hat. by injection Hat as <-.
Qed.

Lemma missing_object_isolated_witness :
  at2 (create_connectivity_matrix [[Lab 0; NaN]; [Lab 1; NaN]]) 1 1
  = Some (cfin 0%Qc).
Proof.
  apply (missing_object_isolated 2 [[Lab 0; NaN]; [Lab 1; NaN]] 1);
    [split; [done|repeat constructor]|lia| |lia].
  intros bc Hbc. repeat (apply elem_of_cons in Hbc as [->|Hbc]; [done|]).
  by apply elem_of_nil in Hbc.
Defined.

(** ** The orchestrator and the solvers at the edges *)

Lemma length_remove_dups_le (l : list Z) : (length (remove_dups l) ≤ length l)%nat.
Proof.
  induction l as [|x l IH]; simpl; [done|].
  destruct (decide_rel elem_of x l); simpl; lia.
Qed.

Lemma K_of_le_length (bc : list label) : (K_of bc ≤ length bc)%nat.
Proof.
  unfold K_of, np_unique. rewrite merge_sort_Permutation.
  etrans; [apply length_remove_dups_le|].
  unfold non_missing. induction bc as [|x bc IH]; [done|].
  destruct x; csimpl; lia.
Qed.

Lemma K_of_pos (bc : list label) : (0 < K_of bc)%nat ↔ ∃ v, Lab v ∈ bc.
Proof.
  unfold K_of. split.
  - intros Hpos. destruct (np_unique (non_missing bc)) as [|v l] eqn:Hl;
      [simpl in Hpos; lia|].
    exists v. apply elem_of_non_missing, (elem_of_np_unique _ v).
    rewrite Hl. left.
  - intros [v Hv]. apply elem_of_non_missing, (elem_of_np_unique _ v) in Hv.
    destruct (np_unique (non_missing bc)); [by apply elem_of_nil in Hv|].
    simpl. lia.
Qed.

Lemma max_list_pos (ns : list nat) :
  (0 < max_list ns)%nat ↔ ∃ n, n ∈ ns ∧ (0 < n)%nat.
Proof.
  split.
  - intros Hpos. exists (max_list ns). split; [|done].
    apply max_list_elem_of. intros ->. simpl in Hpos. lia.
  - intros (n & Hn & Hpos). apply max_list_elem_of_le in Hn. lia.
Qed.

Lemma max_list_le (ns : list nat) (b : nat) :
  Forall (λ n, n ≤ b)%nat ns → (max_list ns ≤ b)%nat.
Proof. induction 1; simpl; lia. Qed.

Section EdgeProperties.

Variable part_graph :
  nat → list nat → list nat → option (list Z) → Z * list nat.
Context {rng : Type}.
Variable random_choice : list nat → rng → nat * rng.
Context {F : Type}.
Variables (fzero feps : F) (fadd fmul fdiv : F → F → F) (fsqrt : F → F).
Variable fleb : F → F → bool.
Variable of_cell : cell → F.
Variable random_rand : rng → F * rng.

Local Abbreviation ce :=
  (cluster_ensembles part_graph random_choice fzero feps fadd fmul fdiv fsqrt
     fleb of_cell random_rand).

(** X9. The default class count is -1 when there is no run, and otherwise
    the largest number of distinct labels of a run, at most N; it is
    positive exactly when some run labels some object.  So a call without
    class count on a matrix in which every label is missing raises the
    class-count error, before any solver runs. *)
Theorem default_class_count (N : nat) (bcs : list (list label))
    (solver : string) (verbose : bool) (g : rng) :
  Forall (λ bc, length bc = N) bcs →
  -1 ≤ default_nclass bcs ≤ Z.of_nat N
  ∧ (default_nclass bcs = -1 ↔ bcs = [])
  ∧ (0 < default_nclass bcs ↔ ∃ bc v, bc ∈ bcs ∧ Lab v ∈ bc)
  ∧ ((∀ bc v, bc ∈ bcs → Lab v ∉ bc) →
     ce bcs PyNone solver verbose g
     = (if verbose
        then verbose_lines bcs (PyInt (default_nclass bcs)) solver
        else [],
        (Raise (nclass_error (PyInt (default_nclass bcs))), g))).
Proof.
  intros Hall.
  assert (0 < default_nclass bcs ↔ ∃ bc v, bc ∈ bcs ∧ Lab v ∈ bc) as Hpos.
  { destruct bcs as [|bc0 bcs0] eqn:Hbcs.
    - split; [done|]. intros (bc & v & Hbc & _). by apply elem_of_nil in Hbc.
    - rewrite <- Hbcs. rewrite default_nclass_max by (by rewrite Hbcs).
      split.
      + intros Hp. assert (0 < max_list (K_of <$> bcs))%nat as Hm by lia.
        apply max_list_pos in Hm as (n & Hn & Hn0).
        apply list_elem_of_fmap in Hn as (bc & -> & Hbc).
        apply K_of_pos in Hn0 as [v Hv]. by exists bc, v.
      + intros (bc & v & Hbc & Hv).
        assert (0 < max_list (K_of <$> bcs))%nat; [|lia].
        apply max_list_pos. exists (K_of bc). split.
        * by apply list_elem_of_fmap_2.
        * apply K_of_pos. by exists v. }
  split; [|split; [|split; [done|]]].
  - destruct bcs as [|bc0 bcs0] eqn:Hbcs; [unfold default_nclass; simpl; lia|].
    rewrite <- Hbcs in *. rewrite default_nclass_max by (by rewrite Hbcs).
    split; [lia|]. apply inj_le, max_list_le, Forall_fmap.
    eapply Forall_impl; [exact Hall|]. intros bc <-. apply K_of_le_length.
  - split; [|by intros ->].
    destruct bcs as [|bc0 bcs0] eqn:Hbcs; [done|].
    rewrite <- Hbcs. rewrite default_nclass_max by (by rewrite Hbcs). lia.
  - intros Hnone. unfold cluster_ensembles.
    rewrite decide_False; [done|]. intros Hp.
    apply Hpos in Hp as (bc & v & Hbc & Hv). by apply (Hnone bc v).
Qed.

Lemma choose_labels_no_AttributeError (rows : list (list Z)) (g : rng) :
  (choose_labels random_choice rows g).1 ≠ Raise AttributeError.
Proof.
  revert g. induction rows as [|v rows IH]; intros g; simpl; [done|].
  destruct (np_max v); [|done].
  destruct (random_choice _ g) as [lab g1]. specialize (IH g1).
  destruct (choose_labels random_choice rows g1) as [[labs|e] g2]; simpl in *;
    [done|congruence].
Qed.

Lemma foldl_meta_step_error (nclass : nat) (H : list (list bool))
    (l : list (nat * nat)) (meta : list (list Z)) (e : exn) :
  foldl (meta_step nclass H) (Ok meta) l = Raise e → e = IndexError.
Proof.
  revert meta. induction l as [|iv l IH]; intros meta; simpl; [done|].
  case_decide; [apply IH|].
  rewrite foldl_meta_step_Raise. by intros [= <-].
Qed.

Lemma create_hypergraph_cons (bc : list label) (bcs : list (list label)) :
  ∃ H, create_hypergraph (bc :: bcs) = Some H.
Proof. unfold create_hypergraph. simpl. rewrite foldl_stack_Some. by eexists. Qed.

(** X10. [create_hypergraph] returns [None] exactly when there is no run,
    and CSPA, MCLA and HBGF raise an [AttributeError] exactly then: they
    fail on the first use of the incidence matrix, without a call of the
    partitioner and, for MCLA, without a draw. *)
Theorem no_run_AttributeError (bcs : list (list label)) (nclass : nat) (g : rng) :
  (create_hypergraph bcs = None ↔ bcs = [])
  ∧ (cspa part_graph bcs nclass = Raise AttributeError ↔ bcs = [])
  ∧ ((mcla part_graph random_choice bcs nclass g).1 = Raise AttributeError
     ↔ bcs = [])
  ∧ (hbgf part_graph bcs nclass = Raise AttributeError ↔ bcs = [])
  ∧ mcla part_graph random_choice [] nclass g = (Raise AttributeError, g).
Proof.
  split; [|split; [|split; [|split; [|done]]]].
  - split; [|by intros ->]. destruct bcs as [|bc bcs]; [done|].
    destruct (create_hypergraph_cons bc bcs) as [H ->]. done.
  - split; [|by intros ->]. destruct bcs as [|bc bcs]; [done|].
    unfold cspa. destruct (create_hypergraph_cons bc bcs) as [H ->]. simpl.
    by destruct (to_pymetis_format _) as [[xadj adjncy] eweights].
  - split; [|by intros ->]. destruct bcs as [|bc bcs]; [done|].
    unfold mcla. destruct (create_hypergraph_cons bc bcs) as [H ->]. simpl.
    destruct (to_pymetis_format _) as [[xadj adjncy] eweights].
    unfold mcla_assign.
    destruct (foldl _ _ _) as [meta|e] eqn:Hfold.
    + intros Herr. by apply choose_labels_no_AttributeError in Herr.
    + apply foldl_meta_step_error in Hfold as ->. done.
  - split; [|by intros ->]. destruct bcs as [|bc bcs]; [done|].
    unfold hbgf. destruct (create_hypergraph_cons bc bcs) as [H ->]. simpl.
    by destruct (to_pymetis_format _) as [[xadj adjncy] eweights].
Qed.

(** X11. [verbose] changes nothing but the printed text: the result and
    the state of the random source are the same with and without it;
    nothing is printed without it; with it the five lines are printed
    before the arguments are checked, so also when the call then raises. *)
Theorem cluster_ensembles_verbose (bcs : list (list label)) (nclass : pyval)
    (solver : string) (g : rng) :
  (ce bcs nclass solver true g).2 = (ce bcs nclass solver false g).2
  ∧ (ce bcs nclass solver false g).1 = []
  ∧ (ce bcs nclass solver true g).1
    = verbose_lines bcs (effective_nclass bcs nclass) solver
  ∧ length (ce bcs nclass solver true g).1 = 5%nat.
Proof.
  assert (∀ verbose,
            (ce bcs nclass solver verbose g).1
            = if verbose
              then verbose_lines bcs (effective_nclass bcs nclass) solver
              else []) as Hout.
  { intros verbose. unfold cluster_ensembles.
    destruct nclass as [|z|s]; simpl; repeat case_decide; done. }
  split; [|split; [apply (Hout false)|split; [apply (Hout true)|]]].
  - unfold cluster_ensembles.
    destruct nclass as [|z|s]; simpl; repeat case_decide; done.
  - by rewrite (Hout true).
Qed.

(** *** MCLA with a partitioner that breaks its contract *)

Lemma foldl_meta_step_bad (C nclass : nat) (H : list (list bool)) (m : list nat) :
  ncols H = C →
  ∀ (s : nat) (meta : list (list Z)),
    (∃ i v, m !! i = Some v ∧ (nclass ≤ v ∨ C ≤ s + i)%nat) →
    foldl (meta_step nclass H) (Ok meta) (zip (seq s (length m)) m)
    = Raise IndexError.
Proof.
  intros HC. induction m as [|v m IH]; intros s meta (i & w & Hi & Hbad).
  { by rewrite lookup_nil in Hi. }
  simpl. case_decide as Hok; [|by rewrite foldl_meta_step_Raise].
  apply IH. destruct i as [|i]; simpl in Hi.
  - injection Hi as ->. rewrite HC in Hok. lia.
  - exists i, w. split; [done|]. lia.
Qed.

(** X12. MCLA checks the membership vector only through indexing: for a
    valid matrix and a positive class count it raises an [IndexError],
    with the random source untouched, exactly when the partitioner returned
    a part that is not below nclass or more parts than there are
    hyperedges; otherwise it returns N labels, also for a membership
    vector that is too short. *)
Theorem mcla_IndexError (N : nat) (bcs : list (list label)) (nclass : nat)
    (g : rng) :
  valid_bc N bcs → (0 < nclass)%nat →
  ∃ H : list (list Z),
    create_hypergraph bcs = Some H
    ∧ let gr := to_pymetis_format (mcla_similarity (astype_bool H)) in
      let membership := (part_graph nclass gr.1.1 gr.1.2 (Some gr.2)).2 in
      let good :=
        Forall (λ v, v < nclass)%nat membership
        ∧ (length membership ≤ sum_list (K_of <$> bcs))%nat in
      ((mcla part_graph random_choice bcs nclass g).1 = Raise IndexError
       ↔ ¬ good)
      ∧ (¬ good →
         mcla part_graph random_choice bcs nclass g = (Raise IndexError, g))
      ∧ (good →
         ∃ labs, (mcla part_graph random_choice bcs nclass g).1 = Ok labs
                 ∧ length labs = N).
Proof.
  intros Hvalid Hpos. exists (hypergraph_spec N bcs).
  split; [by apply create_hypergraph_spec|]. simpl.
  pose proof (mcla_unfold part_graph random_choice N bcs nclass g Hvalid)
    as Hmcla. simpl in Hmcla. rewrite Hmcla. clear Hmcla.
  destruct Hvalid as [_ Hall].
  pose proof (ncols_astype_bool_spec N bcs Hall) as HC.
  set (Hb := astype_bool (hypergraph_spec N bcs)) in *.
  set (m := (part_graph nclass _ _ _).2).
  set (C := sum_list (K_of <$> bcs)) in *.
  assert (has_shape N C Hb) as Hshape
    by apply has_shape_fmap, has_shape_hypergraph_spec.
  assert (¬ (Forall (λ v, v < nclass)%nat m ∧ (length m ≤ C)%nat) →
          mcla_assign random_choice N nclass Hb m g = (Raise IndexError, g))
    as Hbad.
  { intros Hnot. unfold mcla_assign, enumerate.
    rewrite (foldl_meta_step_bad C nclass Hb m HC 0 (zeros N nclass)); [done|].
    destruct (decide (Forall (λ v, v < nclass)%nat m)) as [Hf|Hf].
    - assert (C < length m)%nat as Hlen by (apply Nat.nlt_ge; intros ?; apply Hnot; split; [done|lia]).
      destruct (lookup_lt_is_Some_2 m C Hlen) as [v Hv].
      exists C, v. split; [done|]. right. lia.
    - apply not_Forall_Exists in Hf; [|apply _].
      apply Exists_exists in Hf as (v & [i Hi]%list_elem_of_lookup_1 & Hv).
      exists i, v. split; [done|]. left. simpl in Hv. lia. }
  assert (Forall (λ v, v < nclass)%nat m ∧ (length m ≤ C)%nat →
          ∃ labs, (mcla_assign random_choice N nclass Hb m g).1 = Ok labs
                  ∧ length labs = N) as Hgood.
  { intros [Hf Hlen].
    destruct (foldl_meta_step N C nclass Hb m Hshape HC Hf 0 (zeros N nclass))
      as (meta & Hfold & Hmeta & _); [lia|apply has_shape_zeros|].
    unfold mcla_assign, enumerate. rewrite Hfold.
    rewrite choose_labels_draw.
    - pose proof (length_draw random_choice (tied_set <$> meta) g) as Hl.
      destruct (draw random_choice (tied_set <$> meta) g) as [labs g'].
      exists labs. split; [done|]. simpl in Hl.
      rewrite Hl, length_fmap. by destruct Hmeta.
    - destruct Hmeta as [_ Hrows]. eapply Forall_impl; [exact Hrows|].
      intros v Hv ->. simpl in Hv. lia. }
  split; [|split; [done|done]].
  split.
  - intros Herr Hg. destruct (Hgood Hg) as (labs & Hlabs & _). congruence.
  - intros Hnot. by rewrite (Hbad Hnot).
Qed.

(** *** Renaming labels *)

Lemma increasing_inj (f : Z → Z) : increasing f → Inj (=) (=) f.
Proof.
  intros Hf a b Hab.
  destruct (Z.lt_trichotomy a b) as [Hlt|[Heq|Hgt]]; [|done|].
  - apply Hf in Hlt. lia.
  - apply Hf in Hgt. lia.
Qed.

Lemma increasing_le (f : Z → Z) a b : increasing f → a ≤ b → f a ≤ f b.
Proof.
  intros Hf Hab. destruct (decide (a = b)) as [->|Hne]; [lia|].
  assert (a < b) as Hlt by lia. apply Hf in Hlt. lia.
Qed.

Lemma non_missing_relabel (f : Z → Z) (bc : list label) :
  non_missing (relabel f <$> bc) = f <$> non_missing bc.
Proof.
  unfold non_missing. induction bc as [|[|v] bc IH]; csimpl; [done|done|].
  by rewrite IH.
Qed.

Lemma remove_dups_fmap_inj (f : Z → Z) (l : list Z) :
  Inj (=) (=) f → remove_dups (f <$> l) = f <$> remove_dups l.
Proof.
  intros Hf. induction l as [|x l IH]; csimpl; [done|].
  destruct (decide_rel elem_of x l) as [Hin|Hnin];
    destruct (decide_rel elem_of (f x) (f <$> l)) as [Hin'|Hnin'].
  - done.
  - destruct Hnin'. by apply list_elem_of_fmap_2.
  - destruct Hnin. by apply (list_elem_of_fmap_inj f).
  - csimpl. by rewrite IH.
Qed.

Lemma Sorted_fmap_increasing (f : Z → Z) (l : list Z) :
  increasing f → Sorted Z.le l → Sorted Z.le (f <$> l).
Proof.
  intros Hf. induction 1 as [|x l Hl IH Hhd]; csimpl; constructor; [done|].
  destruct Hhd; csimpl; constructor. by apply increasing_le.
Qed.

Lemma merge_sort_fmap_increasing (f : Z → Z) (l : list Z) :
  increasing f → merge_sort Z.le (f <$> l) = f <$> merge_sort Z.le l.
Proof.
  intros Hf. apply (Sorted_unique Z.le).
  - apply (Sorted_merge_sort Z.le).
  - apply Sorted_fmap_increasing; [done|]. apply (Sorted_merge_sort Z.le).
  - by rewrite !merge_sort_Permutation.
Qed.

Lemma np_unique_relabel (f : Z → Z) (bc : list label) :
  increasing f →
  np_unique (non_missing (relabel f <$> bc)) = f <$> np_unique (non_missing bc).
Proof.
  intros Hf. unfold np_unique.
  rewrite non_missing_relabel, remove_dups_fmap_inj by by apply increasing_inj.
  by apply merge_sort_fmap_increasing.
Qed.

Lemma dict_from_kmap (f : Z → Z) `{!Inj (=) (=) f} (u : list Z) :
  ∀ (s : list nat) (m : gmap Z nat),
    dict_from (kmap f m) (zip (f <$> u) s) = kmap f (dict_from m (zip u s)).
Proof.
  unfold dict_from. induction u as [|x u IH]; intros [|n s] m; csimpl; try done.
  by rewrite <- (kmap_insert f), IH.
Qed.

Lemma bc2id_of_fmap (f : Z → Z) `{!Inj (=) (=) f} (u : list Z) :
  bc2id_of (f <$> u) = kmap f (bc2id_of u).
Proof.
  unfold bc2id_of, dict. rewrite length_fmap.
  rewrite <- (dict_from_kmap f). by rewrite kmap_empty.
Qed.

Lemma foldl_mark_row_relabel (f : Z → Z) `{!Inj (=) (=) f} (m : gmap Z nat)
    (bc : list label) :
  ∀ (l : list nat) (h : list (list Z)),
    foldl (mark_row (kmap f m)) h (zip l (relabel f <$> bc))
    = foldl (mark_row m) h (zip l bc).
Proof.
  induction bc as [|x bc IH]; intros [|i l] h; csimpl; try done.
  rewrite IH. f_equal. unfold mark_row. destruct x as [|v]; simpl; [done|].
  by rewrite lookup_kmap.
Qed.

Lemma run_block_relabel (f : Z → Z) (len_bcs : nat) (bc : list label) :
  increasing f → run_block len_bcs (relabel f <$> bc) = run_block len_bcs bc.
Proof.
  intros Hf. pose proof (increasing_inj f Hf) as Hinj. unfold run_block.
  rewrite np_unique_relabel by done. rewrite bc2id_of_fmap by done.
  unfold enumerate. rewrite !length_fmap. apply foldl_mark_row_relabel, _.
Qed.

Lemma ncols_relabel_runs (fs : list (Z → Z)) (bcs : list (list label)) :
  length fs = length bcs → ncols (relabel_runs fs bcs) = ncols bcs.
Proof.
  destruct fs, bcs; simpl; try done. intros _. by rewrite length_fmap.
Qed.

Lemma length_relabel_runs (fs : list (Z → Z)) (bcs : list (list label)) :
  length fs = length bcs → length (relabel_runs fs bcs) = length bcs.
Proof.
  intros Hlen. unfold relabel_runs. rewrite length_zip_with. lia.
Qed.

Lemma foldl_relabel_runs {A} (step : A → list label → A)
    (P : (Z → Z) → Prop) :
  (∀ f a bc, P f → step a (relabel f <$> bc) = step a bc) →
  ∀ (fs : list (Z → Z)) (bcs : list (list label)) (a : A),
    length fs = length bcs → Forall P fs →
    foldl step a (relabel_runs fs bcs) = foldl step a bcs.
Proof.
  intros Hstep fs. induction fs as [|f fs IH]; intros [|bc bcs] a Hlen Hfs;
    simpl in *; try done.
  apply Forall_cons in Hfs as [Hf Hfs].
  rewrite Hstep by done. apply IH; [lia|done].
Qed.

Lemma create_hypergraph_relabel (fs : list (Z → Z)) (bcs : list (list label)) :
  length fs = length bcs → Forall increasing fs →
  create_hypergraph (relabel_runs fs bcs) = create_hypergraph bcs.
Proof.
  intros Hlen Hfs. unfold create_hypergraph.
  rewrite ncols_relabel_runs by done.
  apply (foldl_relabel_runs _ increasing); [|done|done].
  intros f a bc Hf. by rewrite run_block_relabel.
Qed.

Lemma default_nclass_relabel (fs : list (Z → Z)) (bcs : list (list label)) :
  length fs = length bcs → Forall increasing fs →
  default_nclass (relabel_runs fs bcs) = default_nclass bcs.
Proof.
  intros Hlen Hfs. unfold default_nclass.
  apply (foldl_relabel_runs _ increasing); [|done|done].
  intros f a bc Hf. by rewrite np_unique_relabel, length_fmap.
Qed.

Lemma label_eqb_relabel (f : Z → Z) `{!Inj (=) (=) f} (x y : label) :
  label_eqb (relabel f x) (relabel f y) = label_eqb x y.
Proof.
  destruct x as [|a], y as [|b]; simpl; try done.
  apply bool_decide_ext. split; [apply (inj f)|by intros ->].
Qed.

Lemma co_row_relabel (f : Z → Z) `{!Inj (=) (=) f} (x : label)
    (bc : list label) :
  co_row (relabel f x) (relabel f <$> bc) = co_row x bc.
Proof.
  unfold co_row. rewrite <- list_fmap_compose. apply list_fmap_ext.
  intros i y _. simpl. by rewrite label_eqb_relabel.
Qed.

Lemma fill_m_relabel (f : Z → Z) `{!Inj (=) (=) f} (m : list (list Z))
    (bc : list label) :
  fill_m m (relabel f <$> bc) = fill_m m bc.
Proof.
  unfold fill_m, enumerate. rewrite length_fmap.
  generalize (seq 0 (length bc)) as l. generalize bc at 2 4 as bc0.
  intros bc0 l. revert l m.
  induction bc0 as [|x bc0 IH]; intros [|i l] m; csimpl; try done.
  by rewrite IH, co_row_relabel.
Qed.

Lemma create_connectivity_matrix_relabel (fs : list (Z → Z))
    (bcs : list (list label)) :
  length fs = length bcs → Forall (Inj (=) (=)) fs →
  create_connectivity_matrix (relabel_runs fs bcs)
  = create_connectivity_matrix bcs.
Proof.
  intros Hlen Hfs. unfold create_connectivity_matrix.
  rewrite ncols_relabel_runs, length_relabel_runs by done.
  rewrite (foldl_relabel_runs ccm_step (Inj (=) (=))); [done| |done|done].
  intros f a bc Hf. unfold ccm_step. by rewrite fill_m_relabel.
Qed.

(** X13. Only the order of the labels of a run matters to the incidence
    matrix: renaming the labels of each run by a strictly increasing
    function of its own changes neither the matrix built by
    create_hypergraph nor anything cluster_ensembles returns or prints,
    for any class count, solver name and state of the random source. *)
Theorem relabel_increasing (fs : list (Z → Z)) (bcs : list (list label)) :
  length fs = length bcs → Forall increasing fs →
  create_hypergraph (relabel_runs fs bcs) = create_hypergraph bcs
  ∧ ∀ nclass solver verbose g,
      ce (relabel_runs fs bcs) nclass solver verbose g
      = ce bcs nclass solver verbose g.
Proof.
  intros Hlen Hfs. split; [by apply create_hypergraph_relabel|].
  intros nclass solver verbose g.
  assert (Forall (Inj (=) (=)) fs) as Hinj
    by (eapply Forall_impl; [exact Hfs|apply increasing_inj]).
  unfold cluster_ensembles, verbose_lines, cspa, mcla, hbgf, nmf.
  rewrite create_hypergraph_relabel, create_connectivity_matrix_relabel,
    default_nclass_relabel, ncols_relabel_runs, length_relabel_runs by done.
  done.
Qed.

(** X14. The connectivity matrix depends on the labels of a run only
    through which objects share one: renaming the labels of each run by
    an injective function of its own, order-preserving or not, leaves
    create_connectivity_matrix and the result of nmf unchanged. *)
Theorem relabel_injective (fs : list (Z → Z)) (bcs : list (list label)) :
  length fs = length bcs → Forall (Inj (=) (=)) fs →
  create_connectivity_matrix (relabel_runs fs bcs)
  = create_connectivity_matrix bcs
  ∧ ∀ nclass g,
      nmf fzero feps fadd fmul fdiv fsqrt fleb of_cell random_rand
        (relabel_runs fs bcs) nclass g
      = nmf fzero feps fadd fmul fdiv fsqrt fleb of_cell random_rand
          bcs nclass g.
Proof.
  intros Hlen Hfs. split; [by apply create_connectivity_matrix_relabel|].
  intros nclass g. unfold nmf.
  by rewrite create_connectivity_matrix_relabel.
Qed.

(** *** The random draws of the NMF initialisation *)












End EdgeProperties.

Lemma default_class_count_witness :
  -1 ≤ default_nclass [[Lab 5; NaN; Lab 2]; [Lab 1; Lab 1; Lab 7]] ≤ 3.
Proof.
  apply (default_class_count part_graph_mod choice_counter 0 1 Z.add Z.mul
           Z.div Z.sqrt Z.leb cell_to_Z rand_counter 3
           [[Lab 5; NaN; Lab 2]; [Lab 1; Lab 1; Lab 7]] "hbgf" false 0%nat).
  repeat constructor.
Defined.

Lemma mcla_IndexError_witness :
  mcla part_graph_out_of_range choice_counter
       [[Lab 0; Lab 0; Lab 1]; [Lab 3; NaN; Lab 4]] 2 0%nat
  = (Raise IndexError, 0%nat).
Proof.
  destruct (mcla_IndexError part_graph_out_of_range choice_counter 3
              [[Lab 0; Lab 0; Lab 1]; [Lab 3; NaN; Lab 4]] 2 0%nat)
    as (H & _ & _ & Hbad & _).
  - split; [done|]. repeat constructor.
  - lia.
  - apply Hbad. intros [Hf _]. simpl in Hf.
    apply Forall_cons in Hf as [Hlt _]. lia.
Defined.

Lemma relabel_increasing_witness :
  create_hypergraph
    (relabel_runs [λ v, v + 5; λ v, 2 * v]
       [[Lab 0; Lab 0; Lab 1]; [Lab 3; NaN; Lab 4]])
  = create_hypergraph [[Lab 0; Lab 0; Lab 1]; [Lab 3; NaN; Lab 4]].
Proof.
  destruct (relabel_increasing part_graph_mod choice_counter 0 1 Z.add Z.mul
              Z.div Z.sqrt Z.leb cell_to_Z rand_counter
              [λ v, v + 5; λ v, 2 * v]
              [[Lab 0; Lab 0; Lab 1]; [Lab 3; NaN; Lab 4]]) as [HH _].
  - reflexivity.
  - repeat constructor; intros a b; lia.
  - exact HH.
Defined.

Lemma relabel_injective_witness :
  create_connectivity_matrix
    (relabel_runs [λ v, - v; λ v, v + 1]
       [[Lab 0; Lab 0; Lab 1]; [Lab 3; NaN; Lab 4]])
  = create_connectivity_matrix [[Lab 0; Lab 0; Lab 1]; [Lab 3; NaN; Lab 4]].
Proof.
  destruct (relabel_injective 0 1 Z.add Z.mul Z.div Z.sqrt Z.leb cell_to_Z
              rand_counter
              [λ v, - v; λ v, v + 1]
              [[Lab 0; Lab 0; Lab 1]; [Lab 3; NaN; Lab 4]]) as [HM _].
  - reflexivity.
  - repeat constructor; intros a b; lia.
  - exact HM.
Defined.
